(** * Chaos: text encodings and entropy estimators

    A shallow embedding of the Python package [chaos]
    ([chaos_encoder.py], [algorithms.py], [order.py], [models.py]) and the
    properties of its encoders, entropy algorithms and orchestrator.

    Conventions of the embedding.
    - A Python [str] is a list of code points ([N]); [ord] is the identity
      on them.
    - A Python call that may raise returns a [result]: [Ok v] or
      [Raise e].  The orchestrator also records the encodings and entropy
      computations it starts ([traced]).
    - A NumPy/Python float is an extended real ([npfloat]): a finite real,
      [+inf], [-inf] or [nan], with the IEEE-754 rules for the special
      values.  Arithmetic on finite values is exact: rounding, overflow
      and the sign of zero are abstracted away.
    - A one-dimensional NumPy array of finite numbers is the list of its
      elements as reals (an integer dtype holds [IZR] of its integers); a
      two-dimensional one is the list of its rows. *)

From Stdlib Require Import String Ascii.
From Stdlib Require Import List ZArith NArith PArith Lia Bool.
From Stdlib Require Import Reals Lra.
From Stdlib Require Import Permutation Sorting.Sorted.
Import ListNotations.

Set Implicit Arguments.

(* ===================================================================== *)
(** * Python values, exceptions and built-ins *)
(* ===================================================================== *)

(** A character is its code point; a [str] is the list of its
    characters. *)
Definition char := N.
Definition text := list char.

Definition ord (c : char) : Z := Z.of_N c.

(** ["aaaa"] and other literals are written as code-point lists. *)
Definition text_of_string (s : string) : text :=
  map N_of_ascii (list_ascii_of_string s).

Module Py.

(** The exceptions the package can meet. *)
Inductive exn : Type :=
| ValueError (msg : string)
| KeyError (key : char)
| IndexError (msg : string)
| ZeroDivisionError (msg : string).

(** [repr(c)] of a one-character string (exact for the printable
    one-byte characters other than the quote and the backslash). *)
Definition repr_char (c : char) : string :=
  ("'" ++ String (ascii_of_N c) "'")%string.

(** [str(e)] *)
Definition exn_str (e : exn) : string :=
  match e with
  | ValueError msg => msg
  | KeyError key => repr_char key
  | IndexError msg => msg
  | ZeroDivisionError msg => msg
  end.

Inductive result (A : Type) : Type :=
| Ok (a : A)
| Raise (e : exn).
Arguments Ok {A} a.
Arguments Raise {A} e.

Definition bind {A B} (m : result A) (f : A -> result B) : result B :=
  match m with
  | Ok a => f a
  | Raise e => Raise e
  end.

(** A comprehension or [for] loop whose body may raise: the first
    exception aborts it. *)
Fixpoint mapM {A B} (f : A -> result B) (l : list A) : result (list B) :=
  match l with
  | [] => Ok []
  | x :: t =>
      match f x with
      | Raise e => Raise e
      | Ok y =>
          match mapM f t with
          | Raise e => Raise e
          | Ok ys => Ok (y :: ys)
          end
      end
  end.

(** A [for] loop threading an accumulator through a body that may
    raise. *)
Fixpoint foldM {A S} (body : S -> A -> result S) (l : list A) (s : S)
  : result S :=
  match l with
  | [] => Ok s
  | x :: t =>
      match body s x with
      | Raise e => Raise e
      | Ok s' => foldM body t s'
      end
  end.

(** [range(n)]: empty when [n <= 0]. *)
Definition range (n : Z) : list Z :=
  map Z.of_nat (seq 0 (Z.to_nat n)).

(** [len(l)] *)
Definition len {A} (l : list A) : Z := Z.of_nat (length l).

(** [enumerate(l)] *)
Definition enumerate {A} (l : list A) : list (Z * A) :=
  combine (range (len l)) l.

(** An index or slice bound of a sequence of length [n]: a negative one
    counts from the end, and both are clamped to [0..n]. *)
Definition clamp (n i : Z) : Z :=
  if (i <? 0)%Z then Z.max 0 (i + n) else Z.min i n.

(** [l[lo:hi]] *)
Definition slice {A} (l : list A) (lo hi : Z) : list A :=
  let a := clamp (len l) lo in
  let b := clamp (len l) hi in
  firstn (Z.to_nat (b - a)) (skipn (Z.to_nat a) l).

(** A bound of a slice that runs backwards: clamped to [-1..n-1]. *)
Definition clamp_rev (n i : Z) : Z :=
  if (i <? 0)%Z then Z.max (-1) (i + n) else Z.min i (n - 1).

(** [l[lo:hi:step]] *)
Definition slice_step {A} (l : list A) (lo hi step : Z) : result (list A) :=
  if (step =? 0)%Z then Raise (ValueError "slice step cannot be zero")
  else
    let n := len l in
    let start := if (0 <? step)%Z then clamp n lo else clamp_rev n lo in
    let stop := if (0 <? step)%Z then clamp n hi else clamp_rev n hi in
    let cnt :=
      if (0 <? step)%Z
      then (if (start <? stop)%Z then (stop - start - 1) / step + 1 else 0)%Z
      else (if (stop <? start)%Z then (start - stop - 1) / (- step) + 1 else 0)%Z
    in
    Ok (flat_map (fun k => match nth_error l (Z.to_nat (start + k * step)) with
                           | Some x => [x]
                           | None => []
                           end)
                 (range cnt)).

(** [l[i]]: a negative index counts from the end; out of range raises. *)
Definition getitem {A} (l : list A) (i : Z) : result A :=
  let j := if (i <? 0)%Z then (i + len l)%Z else i in
  if (j <? 0)%Z then Raise (IndexError "index out of range")
  else match nth_error l (Z.to_nat j) with
       | Some x => Ok x
       | None => Raise (IndexError "index out of range")
       end.

(** [l[i] = v] on a list or array; out of range raises. *)
Fixpoint set_nth {A} (l : list A) (i : nat) (v : A) : option (list A) :=
  match l, i with
  | [], _ => None
  | _ :: t, O => Some (v :: t)
  | x :: t, S k =>
      match set_nth t k v with
      | Some t' => Some (x :: t')
      | None => None
      end
  end.

Definition setitem {A} (l : list A) (i : Z) (v : A) : result (list A) :=
  let j := if (i <? 0)%Z then (i + len l)%Z else i in
  if (j <? 0)%Z then Raise (IndexError "index out of range")
  else match set_nth l (Z.to_nat j) v with
       | Some l' => Ok l'
       | None => Raise (IndexError "index out of range")
       end.

(** [sorted(l)] for keys compared by [leb]. *)
Fixpoint insert_sorted {A} (leb : A -> A -> bool) (x : A) (l : list A)
  : list A :=
  match l with
  | [] => [x]
  | y :: t => if leb x y then x :: y :: t else y :: insert_sorted leb x t
  end.

Definition sorted {A} (leb : A -> A -> bool) (l : list A) : list A :=
  fold_right (insert_sorted leb) [] l.

(** A [dict] with keys [K]: its items, in insertion order. *)
Section Dict.
Variables (K V : Type) (eqb : K -> K -> bool).

Definition dict := list (K * V).

(** [d.get(k)] *)
Fixpoint dict_get (d : dict) (k : K) : option V :=
  match d with
  | [] => None
  | (k', v) :: t => if eqb k k' then Some v else dict_get t k
  end.

(** [d[k] = v] *)
Fixpoint dict_set (d : dict) (k : K) (v : V) : dict :=
  match d with
  | [] => [(k, v)]
  | (k', v') :: t =>
      if eqb k k' then (k', v) :: t else (k', v') :: dict_set t k v
  end.

(** [d.values()] *)
Definition dict_values (d : dict) : list V := map snd d.
End Dict.

End Py.

Export Py.

Declare Scope py_scope.
Delimit Scope py_scope with py.
Notation "x <- m ;; k" := (Py.bind m (fun x => k))
  (at level 61, m at next level, right associativity) : py_scope.
Open Scope py_scope.

(* ===================================================================== *)
(** * NumPy floats *)
(* ===================================================================== *)

Module Np.

Local Open Scope R_scope.

Inductive npfloat : Type :=
| Fin (x : R)
| PInf
| NInf
| NaN.

Definition Rltb (x y : R) : bool := if Rlt_dec x y then true else false.
Definition Reqb (x y : R) : bool := if Req_dec_T x y then true else false.
Definition Rleb (x y : R) : bool := if Rle_dec x y then true else false.

(** [np.isfinite] *)
Definition isfinite (x : npfloat) : bool :=
  match x with
  | Fin _ => true
  | _ => false
  end.

Definition fl_neg (x : npfloat) : npfloat :=
  match x with
  | Fin a => Fin (- a)
  | PInf => NInf
  | NInf => PInf
  | NaN => NaN
  end.

Definition fl_abs (x : npfloat) : npfloat :=
  match x with
  | Fin a => Fin (Rabs a)
  | PInf | NInf => PInf
  | NaN => NaN
  end.

Definition fl_add (x y : npfloat) : npfloat :=
  match x, y with
  | NaN, _ | _, NaN => NaN
  | PInf, NInf | NInf, PInf => NaN
  | PInf, _ | _, PInf => PInf
  | NInf, _ | _, NInf => NInf
  | Fin a, Fin b => Fin (a + b)
  end.

Definition fl_sub (x y : npfloat) : npfloat := fl_add x (fl_neg y).

(** The infinity with the sign of [a * s], for [a <> 0]. *)
Definition inf_signed (positive : bool) : npfloat :=
  if positive then PInf else NInf.

Definition fl_mul (x y : npfloat) : npfloat :=
  match x, y with
  | NaN, _ | _, NaN => NaN
  | Fin a, Fin b => Fin (a * b)
  | Fin a, PInf | PInf, Fin a =>
      if Reqb a 0 then NaN else inf_signed (Rltb 0 a)
  | Fin a, NInf | NInf, Fin a =>
      if Reqb a 0 then NaN else inf_signed (Rltb a 0)
  | PInf, PInf | NInf, NInf => PInf
  | PInf, NInf | NInf, PInf => NInf
  end.

(** True division.  A zero divisor is the positive zero (the package
    only divides by integers and by logarithms). *)
Definition fl_div (x y : npfloat) : npfloat :=
  match x, y with
  | NaN, _ | _, NaN => NaN
  | Fin a, Fin b =>
      if Reqb b 0
      then (if Reqb a 0 then NaN else inf_signed (Rltb 0 a))
      else Fin (a / b)
  | Fin _, PInf | Fin _, NInf => Fin 0
  | PInf, Fin b => inf_signed (Rleb 0 b)
  | NInf, Fin b => inf_signed (Rltb b 0)
  | PInf, PInf | PInf, NInf | NInf, PInf | NInf, NInf => NaN
  end.

(** [np.log]: the natural logarithm; a warning, never an exception. *)
Definition np_log (x : npfloat) : npfloat :=
  match x with
  | Fin a => if Rltb 0 a then Fin (ln a)
             else if Reqb a 0 then NInf else NaN
  | PInf => PInf
  | NInf => NaN
  | NaN => NaN
  end.

(** [np.sqrt] *)
Definition np_sqrt (x : npfloat) : npfloat :=
  match x with
  | Fin a => if Rleb 0 a then Fin (sqrt a) else NaN
  | PInf => PInf
  | NInf => NaN
  | NaN => NaN
  end.

(** [math.log2]: raises on a non-positive argument. *)
Definition math_log2 (x : npfloat) : result npfloat :=
  match x with
  | Fin a => if Rltb 0 a then Ok (Fin (ln a / ln 2))
             else Raise (ValueError "math domain error")
  | PInf => Ok PInf
  | NInf => Raise (ValueError "math domain error")
  | NaN => Ok NaN
  end.

(** [x < y]: false as soon as one side is [nan]. *)
Definition fl_ltb (x y : npfloat) : bool :=
  match x, y with
  | NaN, _ | _, NaN => false
  | Fin a, Fin b => Rltb a b
  | NInf, Fin _ | NInf, PInf | Fin _, PInf => true
  | _, _ => false
  end.

(** The built-in [sum] and [np.sum] over floats, from the integer [0]. *)
Definition fl_sum (l : list npfloat) : npfloat :=
  fold_left fl_add l (Fin 0).

(** The sum of an array of finite numbers. *)
Definition Rsum (l : list R) : R := fold_left Rplus l 0.

(** An integer as a float. *)
Definition of_Z (z : Z) : npfloat := Fin (IZR z).

(** [np.zeros(n)]: a negative dimension raises. *)
Definition zeros (n : Z) : result (list R) :=
  if (n <? 0)%Z then Raise (ValueError "negative dimensions are not allowed")
  else Ok (repeat 0 (Z.to_nat n)).

(** [np.mean(x)] of a non-empty array. *)
Definition mean (x : list R) : R := Rsum x / IZR (len x).

(** [np.std(x, ddof)] (and [x.std()], whose [ddof] is [0]): the
    square root of the sum of [abs(x - x.mean())**2] over
    [max (N - ddof) 0]; [nan] on an empty array.  The mean and the
    sums are taken over the reals, where NumPy rounds each operation:
    the two agree where nothing is rounded (a constant sequence of
    integers or of binary fractions has the deviation 0 in both), and
    on other constant sequences NumPy may return a tiny positive
    number where this one is 0. *)
Definition std (ddof : Z) (x : list R) : npfloat :=
  match x with
  | [] => NaN
  | _ =>
      let mu := mean x in
      let sq := map (fun v => Rabs (v - mu) * Rabs (v - mu)) x in
      np_sqrt (fl_div (Fin (Rsum sq)) (of_Z (Z.max (len x - ddof) 0)))
  end.

End Np.

Export Np.

(* ===================================================================== *)
(** * models.py *)
(* ===================================================================== *)

Module Models.

Inductive AlgorithmType : Type :=
| SHANNON
| APPROXIMATE
| SAMPLE
| PERMUTATION
| MULTISCALE.

(** [a.value] *)
Definition AlgorithmType_value (a : AlgorithmType) : string :=
  match a with
  | SHANNON => "shannon_entropy"
  | APPROXIMATE => "approximate_entropy"
  | SAMPLE => "sample_entropy"
  | PERMUTATION => "permutation_entropy"
  | MULTISCALE => "multiscale_entropy"
  end.

(** The member's qualified name, as an f-string prints it. *)
Definition AlgorithmType_str (a : AlgorithmType) : string :=
  match a with
  | SHANNON => "AlgorithmType.SHANNON"
  | APPROXIMATE => "AlgorithmType.APPROXIMATE"
  | SAMPLE => "AlgorithmType.SAMPLE"
  | PERMUTATION => "AlgorithmType.PERMUTATION"
  | MULTISCALE => "AlgorithmType.MULTISCALE"
  end.

Definition AlgorithmType_eqb (a b : AlgorithmType) : bool :=
  match a, b with
  | SHANNON, SHANNON | APPROXIMATE, APPROXIMATE | SAMPLE, SAMPLE
  | PERMUTATION, PERMUTATION | MULTISCALE, MULTISCALE => true
  | _, _ => false
  end.

Inductive EncodingModel : Type :=
| ORDINAL
| ONE_HOT
| FREQUENCY
| BINARY.

Definition EncodingModel_value (e : EncodingModel) : string :=
  match e with
  | ORDINAL => "ordinal"
  | ONE_HOT => "one_hot"
  | FREQUENCY => "frequency"
  | BINARY => "binary"
  end.

Definition EncodingModel_str (e : EncodingModel) : string :=
  match e with
  | ORDINAL => "EncodingModel.ORDINAL"
  | ONE_HOT => "EncodingModel.ONE_HOT"
  | FREQUENCY => "EncodingModel.FREQUENCY"
  | BINARY => "EncodingModel.BINARY"
  end.

Definition EncodingModel_eqb (a b : EncodingModel) : bool :=
  match a, b with
  | ORDINAL, ORDINAL | ONE_HOT, ONE_HOT | FREQUENCY, FREQUENCY
  | BINARY, BINARY => true
  | _, _ => false
  end.

Record EntropyResult : Type := mkEntropyResult {
  encoding : string;
  algorithm : string;
  entropy : npfloat
}.

End Models.

Export Models.

(* ===================================================================== *)
(** * chaos_encoder.py *)
(* ===================================================================== *)

Module ChaosEncoder.

(** [_ordinal_encode] *)
Definition _ordinal_encode (t : text) : list R :=
  map (fun c => IZR (ord c)) t.

(** [set(text)]: the distinct characters (the order a set iterates in
    does not matter below, the list is sorted at once). *)
Definition set_of (t : text) : list char := nodup N.eq_dec t.

(** [{c: i for i, c in enumerate(unique_chars)}] *)
Definition index_step (d : dict char Z) (ic : Z * char) : dict char Z :=
  dict_set N.eqb d (snd ic) (fst ic).

Definition index_dict (unique_chars : list char) : dict char Z :=
  fold_left index_step (enumerate unique_chars) [].

(** [d[k]] on a dict keyed by characters. *)
Definition dict_getitem {V} (d : dict char V) (k : char) : result V :=
  match dict_get N.eqb d k with
  | Some v => Ok v
  | None => Raise (KeyError k)
  end.

(** [encoded[i, j] = v] on a two-dimensional array. *)
Definition setitem2 (a : list (list R)) (i j : Z) (v : R)
  : result (list (list R)) :=
  row <- getitem a i ;;
  row' <- setitem row j v ;;
  setitem a i row'.

(** [_one_hot_encode] *)
Definition _one_hot_encode (t : text) : result (list R) :=
  let unique_chars := sorted N.leb (set_of t) in
  let char_to_idx := index_dict unique_chars in
  let encoded := repeat (repeat 0%R (length unique_chars)) (length t) in
  encoded <- foldM (fun enc ic =>
                      j <- dict_getitem char_to_idx (snd ic) ;;
                      setitem2 enc (fst ic) j 1%R)
                   (enumerate t) encoded ;;
  Ok (concat encoded).

(** [_frequency_encode]: the division is by [len(text)], which is not
    zero as soon as there is a character to divide for. *)
Definition count_chars (t : text) : dict char Z :=
  fold_left (fun d c =>
               dict_set N.eqb d c
                 (match dict_get N.eqb d c with
                  | Some n => n
                  | None => 0
                  end + 1)%Z)
            t [].

Definition _frequency_encode (t : text) : result (list R) :=
  let char_freq := count_chars t in
  let total_chars := len t in
  mapM (fun c =>
          n <- dict_getitem char_freq c ;;
          Ok (IZR n / IZR total_chars)%R)
       t.

(** [format(n, "b")] for a positive [n]: its binary digits, the most
    significant first. *)
Fixpoint bin_pos (p : positive) : text :=
  match p with
  | xH => [49%N]
  | xO q => bin_pos q ++ [48%N]
  | xI q => bin_pos q ++ [49%N]
  end.

(** Zero padding on the left up to [w] characters; a longer string is
    left as it is. *)
Definition zfill (w : nat) (s : text) : text :=
  repeat 48%N (w - length s) ++ s.

(** [format(n, "08b")]: the sign, when there is one, counts in the
    width. *)
Definition format_08b (n : Z) : text :=
  match n with
  | Z0 => zfill 8 [48%N]
  | Zpos p => zfill 8 (bin_pos p)
  | Zneg p => 45%N :: zfill 7 (bin_pos p)
  end.

(** [int(b)] for a one-character string [b]. *)
Definition int_of_char (b : char) : result Z :=
  if ((48 <=? b) && (b <=? 57))%N then Ok (Z.of_N b - 48)%Z
  else Raise (ValueError "invalid literal for int() with base 10").

(** The list [binary_list] that [_binary_encode] builds. *)
Definition binary_list (t : text) : result (list Z) :=
  foldM (fun acc c =>
           let binary := format_08b (ord c) in
           bits <- mapM int_of_char binary ;;
           Ok (acc ++ bits))
        t [].

(** [_binary_encode] *)
Definition _binary_encode (t : text) : result (list R) :=
  l <- binary_list t ;;
  Ok (map IZR l).

(** [encode]: the dispatch table holds the four members of the
    enumeration, so the unsupported-model branch is never taken. *)
Definition encode (t : text) (model : EncodingModel) : result (list R) :=
  match model with
  | ORDINAL => Ok (_ordinal_encode t)
  | ONE_HOT => _one_hot_encode t
  | FREQUENCY => _frequency_encode t
  | BINARY => _binary_encode t
  end.

(** ** Reference notions for the encoders' properties *)

(** The number of distinct characters of a text. *)
Definition distinct_count (t : text) : nat := length (nodup N.eq_dec t).

(** The rank of [c] among the distinct characters of [t]: how many of
    them are smaller. *)
Definition rank (t : text) (c : char) : nat :=
  length (filter (fun d => (d <? c)%N) (nodup N.eq_dec t)).

(** The [i]-th block of width [k] of a flat sequence. *)
Definition block {A} (k i : nat) (l : list A) : list A :=
  firstn k (skipn (i * k) l).

(** The [w] low bits of [n], the most significant first. *)
Definition msb_bits (w : nat) (n : N) : list Z :=
  map (fun i => Z.b2z (N.testbit n (N.of_nat i))) (rev (seq 0 w)).

(** The value of a list of binary digits, the most significant
    first. *)
Definition bits_value (l : list Z) : Z :=
  fold_left (fun acc b => 2 * acc + b)%Z l 0%Z.

(** The bit length of [n]: [0] for [0], [floor(log2 n) + 1]
    otherwise. *)
Definition bit_length (n : N) : nat := N.size_nat n.

(** The row of width [k] that holds a single [1], at position [j]. *)
Definition one_hot_row (k j : nat) : list R :=
  map (fun i => if (i =? j)%nat then 1%R else 0%R) (seq 0 k).

(** The width of the block of a character: eight, or its bit length
    when that is larger. *)
Definition block_width (c : char) : nat := Nat.max 8 (bit_length c).

End ChaosEncoder.

(* ===================================================================== *)
(** * algorithms.py *)
(* ===================================================================== *)

Module Algorithms.

Local Open Scope Z_scope.

(** [np.unique(data, return_counts=True)]: the distinct values in
    increasing order, each with its number of occurrences. *)
Fixpoint unique_insert (x : R) (u : list (R * Z)) : list (R * Z) :=
  match u with
  | [] => [(x, 1)]
  | (y, c) :: t =>
      if Reqb x y then (y, c + 1) :: t
      else if Rltb x y then (x, 1) :: (y, c) :: t
      else (y, c) :: unique_insert x t
  end.

Definition np_unique (data : list R) : list (R * Z) :=
  fold_right unique_insert [] data.

(** [shannon_entropy]: [counts / len(data)] has an element only when
    [data] has one, so the divisor is not zero. *)
Definition shannon_entropy (data : list R) (base : R) : result npfloat :=
  let counts := map snd (np_unique data) in
  let probabilities := map (fun c => (IZR c / IZR (len data))%R) counts in
  if Reqb base 2 then
    terms <- mapM (fun p => l <- math_log2 (Fin p) ;;
                            Ok (fl_mul (Fin p) l))
                  probabilities ;;
    Ok (fl_neg (fl_sum terms))
  else
    Ok (fl_neg (fl_sum
          (map (fun p => fl_div (fl_mul (Fin p) (np_log (Fin p)))
                                (np_log (Fin base)))
               probabilities))).

(** [a - b] on one-dimensional arrays, with NumPy's broadcasting of a
    one-element operand. *)
Definition np_sub (a b : list R) : result (list R) :=
  if (length a =? length b)%nat
  then Ok (map (fun p => (fst p - snd p)%R) (combine a b))
  else match a, b with
       | [x], _ => Ok (map (fun y => (x - y)%R) b)
       | _, [y] => Ok (map (fun x => (x - y)%R) a)
       | _, _ => Raise (ValueError "operands could not be broadcast together")
       end.

(** The built-in [max] of a sequence of numbers. *)
Definition py_max (l : list R) : result R :=
  match l with
  | [] => Raise (ValueError "max() arg is an empty sequence")
  | x :: t => Ok (fold_left (fun acc y => if Rltb acc y then y else acc) t x)
  end.

(** [max(abs(template - window)) < r] *)
Definition within (template window : list R) (r : npfloat) : result bool :=
  d <- np_sub template window ;;
  m <- py_max (map Rabs d) ;;
  Ok (fl_ltb (Fin m) r).

(** [_phi], the inner function of [approximate_entropy]. *)
Definition _phi (time_series : list R) (r : npfloat) (m_val : Z)
  : result npfloat :=
  let N := len time_series in
  let n := N - m_val + 1 in
  count <- zeros n ;;
  count <- foldM (fun count i =>
             let template := slice time_series i (i + m_val) in
             foldM (fun count j =>
                      hit <- within template
                               (slice time_series j (j + m_val)) r ;;
                      if hit : bool
                      then (c <- getitem count i ;;
                            setitem count i (c + 1)%R)
                      else Ok count)
                   (range n) count)
           (range n) count ;;
  Ok (fl_div
        (fl_sum (map (fun c => np_log (fl_div (Fin c) (of_Z n))) count))
        (of_Z n)).

(** [approximate_entropy] *)
Definition approximate_entropy (time_series : list R) (m : Z) (r : npfloat)
  : result npfloat :=
  a <- _phi time_series r m ;;
  b <- _phi time_series r (m + 1) ;;
  Ok (fl_abs (fl_sub a b)).

(** [np.array(vectors)] for a list of one-dimensional arrays: the rows
    must have one length. *)
Definition np_array2 (vectors : list (list R)) : result (list (list R)) :=
  match vectors with
  | [] => Ok []
  | v :: t =>
      if forallb (fun w => (length w =? length v)%nat) t then Ok vectors
      else Raise (ValueError "inhomogeneous shape")
  end.

(** [create_vectors], the inner function of [sample_entropy]. *)
Definition create_vectors (time_series : list R) (dim : Z)
  : result (list (list R)) :=
  let N := len time_series in
  np_array2 (map (fun i => slice time_series i (i + dim))
                 (range (N - dim + 1))).

(** [np.max(row)] along the last axis: an empty row raises. *)
Definition np_max (row : list R) : result R :=
  match row with
  | [] => Raise (ValueError "zero-size array to reduction operation maximum which has no identity")
  | x :: t => Ok (fold_left (fun acc y => if Rltb acc y then y else acc) t x)
  end.

(** [np.sum] of a boolean mask. *)
Definition np_sum_bool (mask : list bool) : Z :=
  fold_left Z.add (map Z.b2z mask) 0.

(** One turn of either loop of [sample_entropy]:
    [np.sum((distances < r) & (np.arange(len(distances)) != i))] with
    [distances = np.max(np.abs(x[i] - x), axis=1)]. *)
Definition matches_of (x : list (list R)) (r : npfloat) (i : Z) : result Z :=
  xi <- getitem x i ;;
  distances <- mapM (fun row =>
                       np_max (map (fun p => Rabs (fst p - snd p))
                                   (combine xi row)))
                    x ;;
  Ok (np_sum_bool
        (map (fun jd => fl_ltb (Fin (snd jd)) r && negb (fst jd =? i))
             (enumerate distances))).

(** [sample_entropy] *)
Definition sample_entropy (time_series : list R) (m : Z) (r : npfloat)
  : result npfloat :=
  let N := len time_series in
  xm <- create_vectors time_series m ;;
  xm1 <- create_vectors time_series (m + 1) ;;
  B <- foldM (fun B i => c <- matches_of xm r i ;; Ok (B + c))
             (range (N - m)) 0 ;;
  A <- foldM (fun A i => c <- matches_of xm1 r i ;; Ok (A + c))
             (range (N - m - 1)) 0 ;;
  Ok (if (B >? 0) && (A >? 0)
      then fl_neg (np_log (fl_div (of_Z A) (of_Z B)))
      else PInf).

(** [np.argsort(pattern)]: the positions in increasing order of their
    values.  Equal values are left in the order of their positions, as
    a stable sort does; NumPy's default sort may order them otherwise
    (the same way on every window with the same values); what is
    proved of [permutation_entropy] does not depend on that order. *)
Definition argsort (pattern : list R) : list Z :=
  map fst (sorted (fun a b => Rleb (snd a) (snd b)) (enumerate pattern)).

(** Equality of the tuples that key [permutation_counts]. *)
Definition key_eqb (a b : list Z) : bool :=
  if list_eq_dec Z.eq_dec a b then true else false.

(** [permutation_entropy] *)
Definition permutation_entropy (time_series : list R) (order delay : Z)
  : result npfloat :=
  let n := len time_series in
  permutation_counts <-
    foldM (fun counts i =>
             pattern <- slice_step time_series i (i + delay * order) delay ;;
             let pattern_key := argsort pattern in
             match dict_get key_eqb counts pattern_key with
             | Some c => Ok (dict_set key_eqb counts pattern_key (c + 1))
             | None => Ok (dict_set key_eqb counts pattern_key 1)
             end)
          (range (n - delay * (order - 1))) [] ;;
  let total := fold_left Z.add (dict_values permutation_counts) 0 in
  let probabilities :=
    map (fun count => (IZR count / IZR total)%R)
        (dict_values permutation_counts) in
  terms <- mapM (fun p => l <- math_log2 (Fin p) ;;
                          Ok (fl_mul (Fin p) l))
                probabilities ;;
  Ok (fl_neg (fl_sum terms)).

(** [_coarse_grain]: [int(N / scale)] truncates towards zero; the
    blocks the loop averages are never empty. *)
Definition _coarse_grain (time_series : list R) (scale : Z)
  : result (list R) :=
  let N := len time_series in
  if scale =? 0 then Raise (ZeroDivisionError "division by zero")
  else
    let k := Z.quot N scale in
    result_ <- zeros k ;;
    foldM (fun res i =>
             setitem res i
               (mean (slice time_series (i * scale) ((i + 1) * scale))))
          (range k) result_.

(** [multiscale_entropy] *)
Definition multiscale_entropy (time_series : list R) (scale_range m : Z)
    (r : npfloat) : result (list npfloat) :=
  let r := fl_mul r (std 1 time_series) in
  mse <- (if scale_range <? 0
          then Raise (ValueError "negative dimensions are not allowed")
          else Ok (repeat (Fin 0) (Z.to_nat scale_range))) ;;
  foldM (fun mse scale =>
           coarse_grained <- _coarse_grain time_series scale ;;
           v <- sample_entropy coarse_grained m r ;;
           setitem mse (scale - 1) v)
        (map (fun k => k + 1) (range scale_range)) mse.

(** ** Reference notions for the algorithms' properties *)

Local Open Scope nat_scope.

(** The [i]-th contiguous window of length [k]. *)
Definition window (ts : list R) (k i : nat) : list R :=
  firstn k (skipn i ts).

(** The number of contiguous windows of length [k] of a sequence of
    length [N]: [N - k + 1], none when [k > N]. *)
Definition window_count (N k : nat) : nat := N + 1 - k.

(** The Chebyshev distance of two windows of one length: the largest
    absolute difference of two corresponding coordinates. *)
Definition chebyshev (a b : list R) : R :=
  fold_right Rmax 0%R (map (fun p => Rabs (fst p - snd p)) (combine a b)).

(** How many of the first [cols] windows of length [k] lie at distance
    [< r] from the [i]-th one, itself included. *)
Definition near_count (ts : list R) (k : nat) (r : R) (cols i : nat) : nat :=
  length (filter (fun j => Rltb (chebyshev (window ts k i) (window ts k j)) r)
                 (seq 0 cols)).

(** The pairs [(i, j)], [i <> j], [i < rows], [j < cols], of windows of
    length [k] at distance [< r]. *)
Definition pair_count (ts : list R) (k : nat) (r : R) (rows cols : nat) : nat :=
  length (filter (fun ij => negb (fst ij =? snd ij)
                            && Rltb (chebyshev (window ts k (fst ij))
                                               (window ts k (snd ij))) r)
                 (list_prod (seq 0 rows) (seq 0 cols))).

(** The two counts of [sample_entropy] for windows of length [k] and
    [k + 1]: the first window of a pair is any but the last one, the
    second window is any. *)
Definition B_count (ts : list R) (k : nat) (r : R) : nat :=
  pair_count ts k r (length ts - k) (window_count (length ts) k).

Definition A_count (ts : list R) (k : nat) (r : R) : nat :=
  pair_count ts (S k) r (length ts - S k) (window_count (length ts) (S k)).

(** The pairs of distinct windows of length [k] at distance [< r],
    both windows ranging over all of them. *)
Definition all_pairs (ts : list R) (k : nat) (r : R) : nat :=
  pair_count ts k r (window_count (length ts) k) (window_count (length ts) k).

(** [phi(k) = (1/n) * sum_i log (count_i / n)] with [n = N - k + 1],
    in extended arithmetic: a count of zero gives [-inf]. *)
Definition phi_ext (ts : list R) (r : R) (k : nat) : npfloat :=
  let n := window_count (length ts) k in
  fl_div
    (fl_sum (map (fun i => np_log (fl_div (Fin (INR (near_count ts k r n i)))
                                          (Fin (INR n))))
                 (seq 0 n)))
    (Fin (INR n)).

(** The same over the reals, meaningful when every count is positive. *)
Definition phi_real (ts : list R) (r : R) (k : nat) : R :=
  let n := window_count (length ts) k in
  (Rsum (map (fun i => ln (INR (near_count ts k r n i) / INR n)) (seq 0 n))
   / INR n)%R.

(** The number of distinct values of a sequence. *)
Definition distinct_values (data : list R) : nat :=
  length (nodup Req_dec_T data).

(** How often [x] occurs in [data]. *)
Definition occurrences (data : list R) (x : R) : nat :=
  count_occ Req_dec_T data x.

End Algorithms.

(* ===================================================================== *)
(** * order.py *)
(* ===================================================================== *)

Module Order.

Export Algorithms.

(** What a call does besides returning: the encodings and entropy
    computations it starts, in order. *)
Inductive event : Type :=
| Encode (model : EncodingModel)
| Compute (encoding : string) (algorithm : AlgorithmType).

(** A computation of the orchestrator: the events it went through and
    its outcome. *)
Definition traced (A : Type) : Type := (list event * result A)%type.

Definition ret {A} (a : A) : traced A := ([], Ok a).
Definition raise {A} (e : exn) : traced A := ([], Raise e).
Definition emit (ev : event) : traced unit := ([ev], Ok tt).
Definition lift {A} (r : result A) : traced A := ([], r).

Definition tbind {A B} (m : traced A) (f : A -> traced B) : traced B :=
  match m with
  | (tr, Ok a) => let (tr', r) := f a in (tr ++ tr', r)
  | (tr, Raise e) => (tr, Raise e)
  end.

(** [try: m except Exception as e: h e] *)
Definition ttry {A} (m : traced A) (h : exn -> traced A) : traced A :=
  match m with
  | (tr, Ok a) => (tr, Ok a)
  | (tr, Raise e) => let (tr', r) := h e in (tr ++ tr', r)
  end.

Fixpoint tfoldM {A S} (body : S -> A -> traced S) (l : list A) (s : S)
  : traced S :=
  match l with
  | [] => ret s
  | x :: t => tbind (body s x) (fun s' => tfoldM body t s')
  end.

Notation "x <~ m ;; k" := (tbind m (fun x => k))
  (at level 61, m at next level, right associativity) : py_scope.

(** [repr] of a list, from the [repr] of its items. *)
Definition repr_list (items : list string) : string :=
  ("[" ++ String.concat ", " items ++ "]")%string.

Definition AlgorithmType_repr (a : AlgorithmType) : string :=
  ("<" ++ AlgorithmType_str a ++ ": '" ++ AlgorithmType_value a ++ "'>")%string.

Definition EncodingModel_repr (e : EncodingModel) : string :=
  ("<" ++ EncodingModel_str e ++ ": '" ++ EncodingModel_value e ++ "'>")%string.

(** An f-string prints a member of [EncodingModel] by its qualified
    name, and so does Python 3.12 for a member of [AlgorithmType]
    (earlier versions print its value). *)
Definition EncodingModel_format := EncodingModel_str.
Definition AlgorithmType_format := AlgorithmType_str.

(** The object: [_valid_algorithms] is a set, held here as its members
    in the order the set iterates in, which Python leaves open. *)
Record Order : Type := mkOrder {
  _valid_algorithms : list AlgorithmType
}.

(** What [__init__] builds: the set of the four algorithms, in some
    order. *)
Definition initialized (self : Order) : Prop :=
  Permutation (_valid_algorithms self)
              [SHANNON; APPROXIMATE; SAMPLE; PERMUTATION].

(** One such object: the set iterating in the order of the source. *)
Definition an_order : Order :=
  mkOrder [SHANNON; APPROXIMATE; SAMPLE; PERMUTATION].

(** [_get_algorithm_function]: [algorithm_map.get(algorithm)]. *)
Definition _get_algorithm_function (algorithm : AlgorithmType)
  : option (list R -> result npfloat) :=
  match algorithm with
  | SHANNON => Some (fun x => shannon_entropy x 2)
  | APPROXIMATE =>
      Some (fun x => approximate_entropy x 2 (fl_mul (Fin (2 / 10)) (std 0 x)))
  | SAMPLE =>
      Some (fun x => sample_entropy x 2 (fl_mul (Fin (2 / 10)) (std 0 x)))
  | PERMUTATION => Some (fun x => permutation_entropy x 3 1)
  | MULTISCALE => None
  end.

(** [_calculate_entropy] *)
Definition _calculate_entropy (data : list R) (encoding : string)
    (algorithm : AlgorithmType) : traced EntropyResult :=
  match _get_algorithm_function algorithm with
  | None =>
      raise (ValueError ("Unsupported algorithm type: "
                         ++ AlgorithmType_format algorithm))
  | Some algo_func =>
      ttry (_ <~ emit (Compute encoding algorithm) ;;
            entropy <~ lift (algo_func data) ;;
            if negb (isfinite entropy)
            then raise (ValueError "Calculated entropy is not finite")
            else ret (mkEntropyResult encoding
                                      (AlgorithmType_value algorithm)
                                      entropy))
           (fun e =>
              raise (ValueError ("Error calculating entropy with "
                                 ++ AlgorithmType_format algorithm
                                 ++ ": " ++ exn_str e)))
  end.

(** The [data] argument of [get_stats]: a string, or some other
    object with its truth value. *)
Inductive pyarg : Type :=
| Str (t : text)
| NotStr (truthy : bool).

(** What [get_stats] returns: the list of records, or the document built
    from them when [json_response] is set. *)
Inductive response : Type :=
| Results (results : list EntropyResult)
| Json (results : list (string * string * npfloat)).

(** [set(l)]: the members of [l], each once. *)
Definition dedup {A} (eqb : A -> A -> bool) (l : list A) : list A :=
  fold_right (fun x s => if existsb (eqb x) s then s else x :: s) [] l.

(** [len(set(l)) != len(l)] *)
Definition has_duplicates {A} (eqb : A -> A -> bool) (l : list A) : bool :=
  negb (length (dedup eqb l) =? length l)%nat.

(** [isinstance(e, EncodingModel)] on a list typed as the annotation
    says. *)
Definition isinstance_EncodingModel (e : EncodingModel) : bool := true.

(** [get_stats] *)
Definition get_stats (self : Order) (data : pyarg)
    (encodings : option (list EncodingModel))
    (algorithms : option (list AlgorithmType))
    (json_response : bool) : traced response :=
  match data with
  | NotStr _ | Str [] =>
      raise (ValueError "Input data must be a non-empty string")
  | Str t =>
      encodings <~
        match encodings with
        | None => ret [FREQUENCY]
        | Some encodings =>
            if has_duplicates EncodingModel_eqb encodings
            then raise (ValueError "Duplicate encoding models detected")
            else
              match filter (fun e => negb (isinstance_EncodingModel e))
                           encodings with
              | [] => ret encodings
              | invalid_encodings =>
                  raise (ValueError
                           ("Invalid encoding models: "
                            ++ repr_list (map EncodingModel_repr
                                              invalid_encodings)))
              end
        end ;;
      algorithms <~
        match algorithms with
        | None => ret (_valid_algorithms self)
        | Some algorithms =>
            if has_duplicates AlgorithmType_eqb algorithms
            then raise (ValueError "Duplicate algorithms detected")
            else
              match filter (fun a => negb (existsb (AlgorithmType_eqb a)
                                             (_valid_algorithms self)))
                           algorithms with
              | [] => ret algorithms
              | invalid_algos =>
                  raise (ValueError
                           ("Unsupported algorithm types: "
                            ++ repr_list (map AlgorithmType_repr
                                              invalid_algos)))
              end
        end ;;
      results <~
        tfoldM (fun results encoding_model =>
                  ttry (_ <~ emit (Encode encoding_model) ;;
                        encoded_data <~
                          lift (ChaosEncoder.encode t encoding_model) ;;
                        if (len encoded_data =? 0)%Z
                        then raise (ValueError
                                      ("Encoding failed for model "
                                       ++ EncodingModel_format encoding_model))
                        else
                          tfoldM (fun results algorithm =>
                                    result_ <~ _calculate_entropy encoded_data
                                                (EncodingModel_value encoding_model)
                                                algorithm ;;
                                    ret (results ++ [result_]))
                                 algorithms results)
                       (fun e =>
                          raise (ValueError
                                   ("Error processing encoding "
                                    ++ EncodingModel_format encoding_model
                                    ++ ": " ++ exn_str e))))
               encodings [] ;;
      match results with
      | [] => raise (ValueError "No entropy results were calculated")
      | _ =>
          ret (if json_response
               then Json (map (fun r => (encoding r, algorithm r, entropy r))
                              results)
               else Results results)
      end
  end.

(** ** Reference notions for the orchestrator's properties *)

(** The entropy values a response carries. *)
Definition entropies (resp : response) : list npfloat :=
  match resp with
  | Results rs => map entropy rs
  | Json rs => map snd rs
  end.

(** The number of results of a response. *)
Definition result_count (resp : response) : nat := length (entropies resp).

(** The message of the failure on a value that is not finite, as
    [get_stats] raises it for the pair [(e, a)]. *)
Definition not_finite_message (e : EncodingModel) (a : AlgorithmType)
  : string :=
  ("Error processing encoding " ++ EncodingModel_format e
   ++ ": Error calculating entropy with " ++ AlgorithmType_format a
   ++ ": Calculated entropy is not finite")%string.

(** The message [_calculate_entropy] raises for the algorithm [a] on a
    value that is not finite. *)
Definition not_finite_inner (a : AlgorithmType) : string :=
  ("Error calculating entropy with " ++ AlgorithmType_format a
   ++ ": Calculated entropy is not finite")%string.

(** The two loops of [get_stats], as it runs them: over the algorithms
    for one encoded text, and over the encodings. *)
Definition algorithms_loop (encoded_data : list R)
    (encoding_model : EncodingModel) (algorithms : list AlgorithmType)
    (results : list EntropyResult) : traced (list EntropyResult) :=
  tfoldM (fun results algorithm =>
            result_ <~ _calculate_entropy encoded_data
                        (EncodingModel_value encoding_model)
                        algorithm ;;
            ret (results ++ [result_]))
         algorithms results.

Definition encoding_turn (t : text) (algorithms : list AlgorithmType)
    (results : list EntropyResult) (encoding_model : EncodingModel)
  : traced (list EntropyResult) :=
  ttry (_ <~ emit (Encode encoding_model) ;;
        encoded_data <~ lift (ChaosEncoder.encode t encoding_model) ;;
        if (len encoded_data =? 0)%Z
        then raise (ValueError
                      ("Encoding failed for model "
                       ++ EncodingModel_format encoding_model))
        else algorithms_loop encoded_data encoding_model algorithms results)
       (fun e =>
          raise (ValueError
                   ("Error processing encoding "
                    ++ EncodingModel_format encoding_model
                    ++ ": " ++ exn_str e))).

(** The code raises [ValueError] throughout; the kinds of failure of
    the validation are told apart by their messages. *)
Definition InvalidInputError : exn :=
  ValueError "Input data must be a non-empty string".

Definition DuplicateSelectionError (e : exn) : Prop :=
  e = ValueError "Duplicate encoding models detected"
  \/ e = ValueError "Duplicate algorithms detected".

Definition UnsupportedAlgorithmError (e : exn) : Prop :=
  exists invalid_algos : list AlgorithmType,
    invalid_algos <> []
    /\ e = ValueError ("Unsupported algorithm types: "
                       ++ repr_list (map AlgorithmType_repr invalid_algos)).

(** The algorithms the orchestrator accepts. *)
Definition validated : list AlgorithmType :=
  [SHANNON; APPROXIMATE; SAMPLE; PERMUTATION].

(** An [encodings] argument that passes its validation: left out, or a
    list without repetition. *)
Definition encodings_pass (encodings : option (list EncodingModel)) : Prop :=
  match encodings with
  | None => True
  | Some es => NoDup es
  end.

(** The sample standard deviation: divisor [N - 1]. *)
Definition sample_std (x : list R) : npfloat := std 1 x.

End Order.


(* ===================================================================== *)
(** * Further reference notions *)
(* ===================================================================== *)

Module Reference.

Export Order.

(** The first [n] consecutive chunks of width [k] of a list. *)
Fixpoint chunks {A} (n k : nat) (l : list A) : list (list A) :=
  match n with
  | O => []
  | S n' => firstn k l :: chunks n' k (skipn k l)
  end.

(** Reading a list of binary digits back, eight by eight. *)
Definition decode_bytes (bits : list Z) : list Z :=
  map ChaosEncoder.bits_value (chunks (length bits / 8) 8 bits).

(** How often the character [c] occurs in the text [t]. *)
Definition char_count (t : text) (c : char) : nat := count_occ N.eq_dec t c.

(** The value a dictionary of counters holds for a key: zero when the
    key is missing. *)
Definition counter_value (d : dict char Z) (c : char) : Z :=
  match dict_get N.eqb d c with
  | Some n => n
  | None => 0%Z
  end.

(** The records of a response, whatever its shape. *)
Definition records (resp : response) : list (string * string * npfloat) :=
  match resp with
  | Results rs => map (fun r => (encoding r, algorithm r, entropy r)) rs
  | Json rs => rs
  end.

(** The pair (encoding, algorithm) is computed on the text [t] with the
    finite value [v]. *)
Definition computes (t : text) (e : EncodingModel) (a : AlgorithmType)
    (v : npfloat) : Prop :=
  exists x f,
    ChaosEncoder.encode t e = Ok x
    /\ _get_algorithm_function a = Some f
    /\ f x = Ok v
    /\ isfinite v = true.

(** The record of a pair: the values of the two enumeration members
    and the entropy. *)
Definition record_of (t : text) (ea : EncodingModel * AlgorithmType)
    (r : string * string * npfloat) : Prop :=
  fst (fst r) = EncodingModel_value (fst ea)
  /\ snd (fst r) = AlgorithmType_value (snd ea)
  /\ computes t (fst ea) (snd ea) (snd r).

(** The average of the [i]-th block of [scale] samples. *)
Definition block_mean (ts : list R) (scale i : nat) : R :=
  mean (window ts scale (i * scale)).

(** A float that is not negative: positive infinity or a real that is
    at least zero. *)
Definition nonnegative (x : npfloat) : Prop :=
  match x with
  | Fin v => (0 <= v)%R
  | PInf => True
  | NInf | NaN => False
  end.

(** The relative frequency of the value [x] in [data]. *)
Definition frequency (data : list R) (x : R) : R :=
  (INR (occurrences data x) / INR (length data))%R.

(** The entropy, in the given base, of a list of probabilities. *)
Definition entropy_of (base : R) (ps : list R) : R :=
  (- Rsum (map (fun p => p * ln p / ln base) ps))%R.

(** The number of windows [permutation_entropy] reads: the turns of
    its loop. *)
Definition permutation_windows (ts : list R) (order delay : Z) : nat :=
  Z.to_nat (len ts - delay * (order - 1)).

(** The coarse-grained sequence at a scale: the averages of the
    consecutive whole blocks of [scale] samples. *)
Definition coarse (ts : list R) (scale : nat) : list R :=
  map (block_mean ts scale) (seq 0 (length ts / scale)).

(** The sample entropy from the two counts. *)
Definition sampen (ts : list R) (k : nat) (r : R) : npfloat :=
  if (0 <? B_count ts k r)%nat && (0 <? A_count ts k r)%nat
  then Fin (- ln (INR (A_count ts k r) / INR (B_count ts k r)))
  else PInf.

(** The sample standard deviation of a sequence of at least two
    elements: divisor [N - 1]. *)
Definition sample_deviation (ts : list R) : R :=
  sqrt (Rsum (map (fun v => (v - mean ts) * (v - mean ts))%R ts)
        / INR (length ts - 1))%R.

(** The encodings and the algorithms a call of [get_stats] works
    with: the lists it is given, or the defaults. *)
Definition selected_encodings (encodings : option (list EncodingModel))
  : list EncodingModel :=
  match encodings with
  | None => [FREQUENCY]
  | Some es => es
  end.

Definition selected_algorithms (self : Order)
    (algorithms : option (list AlgorithmType)) : list AlgorithmType :=
  match algorithms with
  | None => _valid_algorithms self
  | Some algs => algs
  end.

(** The selections the validation of [get_stats] lets through: a list
    that is given has no repetition, and a given algorithm is one of
    the object's valid ones. *)
Definition accepts (self : Order)
    (encodings : option (list EncodingModel))
    (algorithms : option (list AlgorithmType)) : Prop :=
  encodings_pass encodings
  /\ match algorithms with
     | None => True
     | Some algs =>
         NoDup algs /\ Forall (fun a => In a (_valid_algorithms self)) algs
     end.

(** The end of [get_stats], after the loops: the response built from
    the results, or the failure when there is none. *)
Definition respond (json_response : bool) (results : list EntropyResult)
  : traced response :=
  match results with
  | [] => raise (ValueError "No entropy results were calculated")
  | _ =>
      ret (if json_response
           then Json (map (fun r => (encoding r, algorithm r, entropy r))
                          results)
           else Results results)
  end.

(** The events of a run that goes through every selected pair: each
    encoding, followed by its computations. *)
Definition full_trace (encs : list EncodingModel)
    (algs : list AlgorithmType) : list event :=
  flat_map (fun e => Encode e
                     :: map (Compute (EncodingModel_value e)) algs) encs.

(** The record of a result. *)
Definition record (r : EntropyResult) : string * string * npfloat :=
  (encoding r, algorithm r, entropy r).

(** A sequence all of whose elements are equal. *)
Definition constant (x : list R) : Prop :=
  forall a b, In a x -> In b x -> a = b.

(** A constant sequence whose value is a binary fraction and whose
    running sums stay within the 53 bits of a float: NumPy computes
    the mean of such a sequence without rounding, so that its standard
    deviation is the float 0, as it is over the reals. *)
Definition exact_constant (x : list R) : Prop :=
  exists (z : Z) (j : nat),
    (forall v, In v x -> v = (IZR z / 2 ^ j)%R)
    /\ (Z.of_nat (length x) * Z.abs z <= 2 ^ 53)%Z
    /\ (j <= 1000)%nat.

(** The encoded sequences on which an algorithm of the orchestrator
    (window length 2, tolerance a fifth of the standard deviation) has
    no finite value, whatever the rounding of the tolerance: a
    sequence too short for the windows, or a constant one whose
    standard deviation is 0 without rounding. *)
Definition degenerate (x : list R) (a : AlgorithmType) : Prop :=
  match a with
  | APPROXIMATE => exact_constant x \/ (length x <= 2)%nat
  | SAMPLE => exact_constant x \/ (length x <= 3)%nat
  | _ => False
  end.

(** The population standard deviation of a sequence: divisor [N]. *)
Definition population_deviation (x : list R) : R :=
  sqrt (Rsum (map (fun v => (v - mean x) * (v - mean x))%R x)
        / INR (length x))%R.

End Reference.


(* ===================================================================== *)
(** * Properties of the built-ins *)
(* ===================================================================== *)

Unset Implicit Arguments.

Module PyFacts.

Lemma mapM_app {A B} (f : A -> result B) (l1 l2 : list A) (r1 r2 : list B) :
  mapM f l1 = Ok r1 -> mapM f l2 = Ok r2 -> mapM f (l1 ++ l2) = Ok (r1 ++ r2).
Proof.
  revert r1. induction l1 as [|x l1 IH]; simpl; intros r1 H1 H2.
  - inversion H1; subst. exact H2.
  - destruct (f x) as [y|e]; [|discriminate].
    destruct (mapM f l1) as [ys|e]; [|discriminate].
    inversion H1; subst. rewrite (IH ys eq_refl H2). reflexivity.
Qed.

Lemma mapM_ok_map {A B} (f : A -> result B) (g : A -> B) (l : list A) :
  (forall x, In x l -> f x = Ok (g x)) -> mapM f l = Ok (map g l).
Proof.
  induction l as [|x l IH]; simpl; intros H; [reflexivity|].
  rewrite (H x (or_introl eq_refl)), IH; auto.
Qed.

Lemma range_length (n : Z) : length (range n) = Z.to_nat n.
Proof. unfold range. now rewrite length_map, length_seq. Qed.

Lemma range_of_nat (n : nat) : range (Z.of_nat n) = map Z.of_nat (seq 0 n).
Proof. unfold range. now rewrite Nat2Z.id. Qed.

Lemma filter_none {A} (f : A -> bool) (l : list A) :
  (forall x, In x l -> f x = false) -> filter f l = [].
Proof.
  induction l as [|x l IH]; simpl; intros H; [reflexivity|].
  rewrite (H x (or_introl eq_refl)). apply IH. auto.
Qed.

Lemma foldM_cons {A S} (body : S -> A -> result S) (x : A) (t : list A)
    (s s' : S) :
  body s x = Ok s' -> foldM body (x :: t) s = foldM body t s'.
Proof. intros H. simpl. now rewrite H. Qed.

Lemma getitem_nat {A} (l : list A) (n : nat) (x : A) :
  nth_error l n = Some x -> getitem l (Z.of_nat n) = Ok x.
Proof.
  intros H. unfold getitem.
  destruct (Z.ltb_spec (Z.of_nat n) 0) as [|_]; [lia|].
  destruct (Z.ltb_spec (Z.of_nat n) 0) as [|_]; [lia|].
  now rewrite Nat2Z.id, H.
Qed.

Lemma setitem_nat {A} (l l' : list A) (n : nat) (v : A) :
  set_nth l n v = Some l' -> setitem l (Z.of_nat n) v = Ok l'.
Proof.
  intros H. unfold setitem.
  destruct (Z.ltb_spec (Z.of_nat n) 0) as [|_]; [lia|].
  destruct (Z.ltb_spec (Z.of_nat n) 0) as [|_]; [lia|].
  now rewrite Nat2Z.id, H.
Qed.

Lemma set_nth_middle {A} (l1 l2 : list A) (x v : A) :
  set_nth (l1 ++ x :: l2) (length l1) v = Some (l1 ++ v :: l2).
Proof.
  induction l1 as [|y l1 IH]; simpl; [reflexivity|]. now rewrite IH.
Qed.

Lemma nth_error_middle {A} (l1 l2 : list A) (x : A) :
  nth_error (l1 ++ x :: l2) (length l1) = Some x.
Proof. induction l1; simpl; auto. Qed.

End PyFacts.

(* ===================================================================== *)
(** * Properties of the encoders *)
(* ===================================================================== *)

Module BinaryFacts.

Import ChaosEncoder PyFacts.

(** ** Binary digits *)

Lemma msb_bits_S_low (w : nat) (n : N) :
  msb_bits (S w) n = msb_bits w (N.div2 n) ++ [Z.b2z (N.testbit n 0)].
Proof.
  unfold msb_bits.
  change (seq 0 (S w)) with (0%nat :: seq 1 w).
  rewrite <- seq_shift. simpl rev. rewrite map_app. simpl. f_equal.
  rewrite <- map_rev, map_map. apply map_ext. intros i.
  now rewrite Nat2N.inj_succ, N.testbit_div2.
Qed.

Lemma msb_bits_S_high (w : nat) (n : N) :
  msb_bits (S w) n = Z.b2z (N.testbit n (N.of_nat w)) :: msb_bits w n.
Proof.
  unfold msb_bits. rewrite seq_S, rev_app_distr. reflexivity.
Qed.

Lemma msb_bits_length (w : nat) (n : N) : length (msb_bits w n) = w.
Proof. unfold msb_bits. now rewrite length_map, length_rev, length_seq. Qed.

Lemma msb_bits_binary (w : nat) (n : N) :
  Forall (fun b => b = 0 \/ b = 1)%Z (msb_bits w n).
Proof.
  unfold msb_bits. apply Forall_forall. intros b Hb.
  apply in_map_iff in Hb. destruct Hb as [i [<- _]].
  destruct (N.testbit n (N.of_nat i)); simpl; auto.
Qed.

Lemma testbit_above_size (p : positive) :
  forall i, (Pos.size_nat p <= i)%nat -> N.testbit (Npos p) (N.of_nat i) = false.
Proof.
  induction p as [q IH|q IH|]; intros i Hi; simpl in Hi;
    (destruct i as [|i]; [lia|]);
    rewrite Nat2N.inj_succ, <- N.testbit_div2; simpl N.div2.
  - apply IH. lia.
  - apply IH. lia.
  - destruct i; reflexivity.
Qed.

Lemma msb_bits_pad (k w : nat) (p : positive) :
  (Pos.size_nat p <= w)%nat ->
  msb_bits (k + w) (Npos p) = repeat 0%Z k ++ msb_bits w (Npos p).
Proof.
  intros Hw. induction k as [|k IH]; [reflexivity|].
  simpl plus. rewrite msb_bits_S_high, IH.
  rewrite testbit_above_size by lia. reflexivity.
Qed.

Lemma msb_bits_zero (w : nat) : msb_bits w 0 = repeat 0%Z w.
Proof.
  induction w as [|w IH]; [reflexivity|].
  rewrite msb_bits_S_high, IH. reflexivity.
Qed.

(** The digits [format] prints, read back by [int]. *)
Lemma bin_pos_digits (p : positive) :
  mapM int_of_char (bin_pos p) = Ok (msb_bits (Pos.size_nat p) (Npos p)).
Proof.
  induction p as [q IH|q IH|]; simpl bin_pos; simpl Pos.size_nat.
  - rewrite msb_bits_S_low. apply mapM_app; [exact IH|reflexivity].
  - rewrite msb_bits_S_low. apply mapM_app; [exact IH|reflexivity].
  - reflexivity.
Qed.

Lemma bin_pos_length (p : positive) : length (bin_pos p) = Pos.size_nat p.
Proof.
  induction p as [q IH|q IH|]; simpl; rewrite ?length_app, ?IH; simpl; lia.
Qed.

Lemma zeros_digits (k : nat) :
  mapM int_of_char (repeat 48%N k) = Ok (repeat 0%Z k).
Proof.
  induction k as [|k IH]; simpl; [reflexivity|].
  simpl in IH. rewrite IH. reflexivity.
Qed.

Lemma format_08b_digits (c : char) :
  mapM int_of_char (format_08b (ord c)) = Ok (msb_bits (block_width c) c).
Proof.
  unfold block_width, bit_length, ord. destruct c as [|p]; [reflexivity|].
  simpl Z.of_N. unfold format_08b, zfill. rewrite bin_pos_length.
  simpl N.size_nat.
  replace (Nat.max 8 (Pos.size_nat p))
    with ((8 - Pos.size_nat p) + Pos.size_nat p)%nat by lia.
  rewrite msb_bits_pad by lia.
  apply mapM_app; [apply zeros_digits|apply bin_pos_digits].
Qed.

(** [binary_list] concatenates the blocks of the characters. *)
Lemma binary_list_blocks (t : text) :
  binary_list t = Ok (flat_map (fun c => msb_bits (block_width c) c) t).
Proof.
  unfold binary_list.
  assert (H : forall acc,
             foldM (fun acc c =>
                      bits <- mapM int_of_char (format_08b (ord c)) ;;
                      Ok (acc ++ bits)) t acc
             = Ok (acc ++ flat_map (fun c => msb_bits (block_width c) c) t)).
  { induction t as [|c t IH]; intros acc; simpl.
    - now rewrite app_nil_r.
    - rewrite format_08b_digits. simpl. rewrite IH, app_assoc. reflexivity. }
  apply (H []).
Qed.

Lemma size_nat_bound (p : positive) :
  forall w, (Pos.size_nat p <= w)%nat -> (Zpos p < 2 ^ Z.of_nat w)%Z.
Proof.
  induction p as [q IH|q IH|]; intros w Hw; simpl in Hw;
    (destruct w as [|w]; [lia|]);
    rewrite Nat2Z.inj_succ, Z.pow_succ_r by lia.
  - specialize (IH w ltac:(lia)). lia.
  - specialize (IH w ltac:(lia)). lia.
  - assert (0 < 2 ^ Z.of_nat w)%Z by (apply Z.pow_pos_nonneg; lia). lia.
Qed.

Lemma size_nat_low (p : positive) :
  forall w, (w < Pos.size_nat p)%nat -> (2 ^ Z.of_nat w <= Zpos p)%Z.
Proof.
  induction p as [q IH|q IH|]; intros w Hlt; simpl in Hlt;
    (destruct w as [|w]; [simpl; lia|]);
    rewrite Nat2Z.inj_succ, Z.pow_succ_r by lia.
  - specialize (IH w ltac:(lia)). lia.
  - specialize (IH w ltac:(lia)). lia.
  - lia.
Qed.

Lemma bits_value_snoc (l : list Z) (b : Z) :
  bits_value (l ++ [b]) = (2 * bits_value l + b)%Z.
Proof. unfold bits_value. now rewrite fold_left_app. Qed.

Lemma bits_value_min_width (p : positive) :
  bits_value (msb_bits (Pos.size_nat p) (Npos p)) = Zpos p.
Proof.
  induction p as [q IH|q IH|]; simpl Pos.size_nat;
    rewrite ?msb_bits_S_low, ?bits_value_snoc; simpl N.div2;
    rewrite ?IH; simpl; try reflexivity.
Qed.

Lemma head_min_width (p : positive) :
  hd 0%Z (msb_bits (Pos.size_nat p) (Npos p)) = 1%Z.
Proof.
  induction p as [q IH|q IH|]; simpl Pos.size_nat;
    rewrite ?msb_bits_S_low; simpl N.div2; try reflexivity.
  - destruct (msb_bits (Pos.size_nat q) (N.pos q)) eqn:E; [|exact IH].
    apply (f_equal (@length Z)) in E. rewrite msb_bits_length in E.
    destruct q; simpl in E; discriminate.
  - destruct (msb_bits (Pos.size_nat q) (N.pos q)) eqn:E; [|exact IH].
    apply (f_equal (@length Z)) in E. rewrite msb_bits_length in E.
    destruct q; simpl in E; discriminate.
Qed.

Lemma IZR_binary (l : list Z) :
  Forall (fun b => b = 0 \/ b = 1)%Z l ->
  Forall (fun v => v = 0 \/ v = 1)%R (map IZR l).
Proof.
  intros H. apply Forall_forall. intros v Hv.
  apply in_map_iff in Hv. destruct Hv as [b [<- Hb]].
  rewrite Forall_forall in H. destruct (H b Hb) as [-> | ->]; auto.
Qed.

End BinaryFacts.

Module RankFacts.
Import ChaosEncoder PyFacts.

(** ** Sorting and ranks *)

Lemma insert_sorted_perm (x : N) (l : list N) :
  Permutation (insert_sorted N.leb x l) (x :: l).
Proof.
  induction l as [|y l IH]; simpl; [reflexivity|].
  destruct (N.leb x y); [reflexivity|].
  rewrite IH. apply perm_swap.
Qed.

Lemma sorted_perm (l : list N) : Permutation (sorted N.leb l) l.
Proof.
  induction l as [|x l IH]; simpl; [reflexivity|].
  unfold sorted in IH. rewrite insert_sorted_perm. now constructor.
Qed.

Lemma insert_sorted_strict (x : N) (l : list N) :
  StronglySorted N.lt l -> ~ In x l ->
  StronglySorted N.lt (insert_sorted N.leb x l).
Proof.
  induction l as [|y l IH]; simpl; intros Hs Hx.
  - repeat constructor.
  - inversion Hs as [|? ? Hs' Hall]; subst.
    destruct (N.leb x y) eqn:E.
    + apply N.leb_le in E.
      assert (x <> y) by (intros ->; apply Hx; now left).
      assert (x < y)%N by lia.
      constructor; [exact Hs|].
      constructor; [assumption|].
      eapply Forall_impl; [|exact Hall]. intros; simpl in *; lia.
    + apply N.leb_gt in E.
      constructor; [apply IH; tauto|].
      apply Forall_forall. intros z Hz.
      apply (Permutation_in _ (insert_sorted_perm x l)) in Hz.
      destruct Hz as [<-|Hz]; [assumption|].
      rewrite Forall_forall in Hall. now apply Hall.
Qed.

Lemma sorted_strict (l : list N) :
  NoDup l -> StronglySorted N.lt (sorted N.leb l).
Proof.
  induction 1 as [|x l Hx Hnd IH]; simpl; [constructor|].
  apply insert_sorted_strict; [exact IH|].
  intros Hin. apply Hx. exact (Permutation_in _ (sorted_perm l) Hin).
Qed.

Lemma filter_length_perm {A} (f : A -> bool) (l l' : list A) :
  Permutation l l' -> length (filter f l) = length (filter f l').
Proof.
  induction 1; simpl; try congruence.
  - destruct (f x); simpl; congruence.
  - destruct (f x), (f y); simpl; reflexivity.
Qed.

(** In a strictly increasing list the position of an element is the
    number of elements below it. *)
Lemma strict_position (u : list N) :
  StronglySorted N.lt u ->
  forall i c, nth_error u i = Some c ->
              length (filter (fun d => (d <? c)%N) u) = i.
Proof.
  induction 1 as [|x u Hs IH Hall]; intros i c Hi.
  - destruct i; discriminate.
  - rewrite Forall_forall in Hall. destruct i as [|i]; simpl in Hi.
    + inversion Hi; subst c. simpl. rewrite N.ltb_irrefl.
      rewrite filter_none; [reflexivity|].
      intros d Hd. apply N.ltb_ge. specialize (Hall d Hd). lia.
    + simpl. assert (Hc : In c u) by (eapply nth_error_In; eassumption).
      rewrite (proj2 (N.ltb_lt x c) (Hall c Hc)). simpl. f_equal. now apply IH.
Qed.

Lemma unique_chars_rank (t : text) (i : nat) (c : char) :
  nth_error (sorted N.leb (set_of t)) i = Some c -> rank t c = i.
Proof.
  intros Hi. unfold rank.
  rewrite <- (filter_length_perm _ _ _ (sorted_perm (set_of t))).
  apply strict_position; [|exact Hi].
  apply sorted_strict, NoDup_nodup.
Qed.

Lemma unique_chars_length (t : text) :
  length (sorted N.leb (set_of t)) = distinct_count t.
Proof. apply Permutation_length, sorted_perm. Qed.

Lemma unique_chars_position (t : text) (c : char) :
  In c t -> exists i, nth_error (sorted N.leb (set_of t)) i = Some c.
Proof.
  intros Hc. apply In_nth_error.
  apply (Permutation_in _ (Permutation_sym (sorted_perm (set_of t)))).
  now apply nodup_In.
Qed.

(** ** The dictionary of positions *)

Lemma dict_get_set {V} (d : dict char V) (k k' : char) (v : V) :
  dict_get N.eqb (dict_set N.eqb d k v) k'
  = if N.eqb k' k then Some v else dict_get N.eqb d k'.
Proof.
  induction d as [|[k0 v0] d IH]; simpl.
  - reflexivity.
  - destruct (N.eqb k k0) eqn:E; simpl.
    + apply N.eqb_eq in E; subst k0.
      destruct (N.eqb k' k); reflexivity.
    + rewrite IH. destruct (N.eqb k' k0) eqn:E0; [|reflexivity].
      apply N.eqb_eq in E0; subst k0.
      destruct (N.eqb k' k) eqn:E1; [|reflexivity].
      apply N.eqb_eq in E1; subst. rewrite N.eqb_refl in E. discriminate.
Qed.

Lemma index_fold_other (u : list char) (c : char) :
  ~ In c u ->
  forall (idx : list Z) (d : dict char Z),
    dict_get N.eqb (fold_left index_step (combine idx u) d) c
    = dict_get N.eqb d c.
Proof.
  induction u as [|x u IH]; intros Hc idx d.
  - destruct idx; reflexivity.
  - destruct idx as [|i idx]; [reflexivity|]. simpl.
    rewrite IH by (simpl in Hc; tauto).
    unfold index_step; simpl. rewrite dict_get_set.
    destruct (N.eqb c x) eqn:E; [|reflexivity].
    apply N.eqb_eq in E. subst. simpl in Hc. tauto.
Qed.

Lemma index_fold_position (u : list char) :
  NoDup u ->
  forall (n i : nat) (c : char) (d : dict char Z),
    nth_error u i = Some c ->
    dict_get N.eqb
      (fold_left index_step (combine (map Z.of_nat (seq n (length u))) u) d) c
    = Some (Z.of_nat (n + i)).
Proof.
  induction 1 as [|x u Hx Hnd IH]; intros n i c d Hi.
  - destruct i; discriminate.
  - simpl. destruct i as [|i]; simpl in Hi.
    + inversion Hi; subst c. rewrite index_fold_other by assumption.
      unfold index_step; simpl. rewrite dict_get_set, N.eqb_refl.
      now rewrite Nat.add_0_r.
    + rewrite (IH (S n) i c _ Hi). f_equal. lia.
Qed.

Lemma index_dict_position (u : list char) (i : nat) (c : char) :
  NoDup u -> nth_error u i = Some c ->
  dict_getitem (index_dict u) c = Ok (Z.of_nat i).
Proof.
  intros Hnd Hi. unfold dict_getitem, index_dict, enumerate.
  unfold len. rewrite range_of_nat.
  now rewrite (index_fold_position u Hnd 0 i c [] Hi).
Qed.

End RankFacts.

Module OneHotFacts.
Import ChaosEncoder PyFacts BinaryFacts RankFacts.

(** ** One-hot rows *)

Lemma row_zeros (k n m : nat) :
  (m < n)%nat ->
  map (fun i => if (i =? m)%nat then 1%R else 0%R) (seq n k) = repeat 0%R k.
Proof.
  revert n. induction k as [|k IH]; intros n Hm; simpl; [reflexivity|].
  destruct (Nat.eqb_spec n m); [lia|]. f_equal. apply IH. lia.
Qed.

Lemma set_nth_row (k : nat) :
  forall n j, (j < k)%nat ->
    set_nth (repeat 0%R k) j 1%R
    = Some (map (fun i => if (i =? n + j)%nat then 1%R else 0%R) (seq n k)).
Proof.
  induction k as [|k IH]; intros n j Hj; [lia|].
  destruct j as [|j]; simpl.
  - rewrite Nat.add_0_r, Nat.eqb_refl, row_zeros by lia. reflexivity.
  - rewrite (IH (S n) j) by lia.
    destruct (Nat.eqb_spec n (n + S j)); [lia|].
    replace (S n + j)%nat with (n + S j)%nat by lia. reflexivity.
Qed.

Lemma one_hot_row_length (k j : nat) : length (one_hot_row k j) = k.
Proof. unfold one_hot_row. now rewrite length_map, length_seq. Qed.

Lemma one_hot_row_nth (k j i : nat) :
  (i < k)%nat ->
  nth i (one_hot_row k j) 0%R = if (i =? j)%nat then 1%R else 0%R.
Proof.
  intros Hi. unfold one_hot_row.
  set (f := fun i => if (i =? j)%nat then 1%R else 0%R).
  rewrite (nth_indep _ 0%R (f 0%nat)) by now rewrite length_map, length_seq.
  rewrite (map_nth f), seq_nth by assumption. reflexivity.
Qed.

Lemma one_hot_row_binary (k j : nat) :
  Forall (fun v => v = 0 \/ v = 1)%R (one_hot_row k j).
Proof.
  apply Forall_forall. intros v Hv. unfold one_hot_row in Hv.
  apply in_map_iff in Hv. destruct Hv as [i [<- _]].
  destruct (i =? j)%nat; auto.
Qed.

Lemma one_hot_row_single (k j : nat) :
  (j < k)%nat -> count_occ Req_dec_T (one_hot_row k j) 1%R = 1%nat.
Proof.
  unfold one_hot_row.
  assert (H0 : forall w n, (j < n)%nat ->
            count_occ Req_dec_T
              (map (fun i => if (i =? j)%nat then 1%R else 0%R) (seq n w)) 1%R
            = 0%nat).
  { induction w as [|w IH]; intros n Hn; simpl; [reflexivity|].
    destruct (Nat.eqb_spec n j); [lia|].
    destruct (Req_dec_T 0 1) as [E|_]; [lra|]. apply IH. lia. }
  assert (H1 : forall w n, (n <= j < n + w)%nat ->
            count_occ Req_dec_T
              (map (fun i => if (i =? j)%nat then 1%R else 0%R) (seq n w)) 1%R
            = 1%nat).
  { induction w as [|w IH]; intros n Hn; simpl; [lia|].
    destruct (Nat.eqb_spec n j) as [->|Hne].
    - destruct (Req_dec_T 1 1) as [_|E]; [|congruence].
      f_equal. apply H0. lia.
    - destruct (Req_dec_T 0 1) as [E|_]; [lra|]. apply IH. lia. }
  intros Hj. apply H1. lia.
Qed.

(** ** The loop of [_one_hot_encode] *)

Lemma setitem2_row (done rows : list (list R)) (row row' : list R)
    (j : nat) (v : R) :
  set_nth row j v = Some row' ->
  setitem2 (done ++ row :: rows) (Z.of_nat (length done)) (Z.of_nat j) v
  = Ok (done ++ row' :: rows).
Proof.
  intros H. unfold setitem2.
  rewrite (getitem_nat _ _ _ (nth_error_middle done rows row)). simpl.
  rewrite (setitem_nat _ _ _ _ H). simpl.
  apply setitem_nat, set_nth_middle.
Qed.

Lemma one_hot_loop (d : dict char Z) (k : nat) (rk : char -> nat)
    (rest : list char) :
  (forall c, In c rest ->
             dict_getitem d c = Ok (Z.of_nat (rk c)) /\ (rk c < k)%nat) ->
  forall done : list (list R),
    foldM (fun enc ic =>
             j <- dict_getitem d (snd ic) ;;
             setitem2 enc (fst ic) j 1%R)
          (combine (map Z.of_nat (seq (length done) (length rest))) rest)
          (done ++ repeat (repeat 0%R k) (length rest))
    = Ok (done ++ map (fun c => one_hot_row k (rk c)) rest).
Proof.
  induction rest as [|c rest IH]; intros Hd done; simpl.
  - reflexivity.
  - destruct (Hd c (or_introl eq_refl)) as [Hget Hlt].
    rewrite Hget. simpl.
    rewrite (setitem2_row done _ _ _ _ _ (set_nth_row k 0 (rk c) Hlt)).
    change (0 + rk c)%nat with (rk c). fold (one_hot_row k (rk c)).
    specialize (IH (fun c' H => Hd c' (or_intror H)) (done ++ [one_hot_row k (rk c)])).
    rewrite length_app, Nat.add_1_r, <- app_assoc in IH. simpl in IH.
    rewrite IH, <- app_assoc. reflexivity.
Qed.

(** [_one_hot_encode] returns the rows of the characters, one after the
    other. *)
Lemma one_hot_encode_rows (t : text) :
  _one_hot_encode t
  = Ok (concat (map (fun c => one_hot_row (distinct_count t) (rank t c)) t)).
Proof.
  assert (Hd : forall c, In c t ->
            dict_getitem (index_dict (sorted N.leb (set_of t))) c
            = Ok (Z.of_nat (rank t c)) /\ (rank t c < distinct_count t)%nat).
  { intros c Hc. destruct (unique_chars_position t c Hc) as [i Hi].
    rewrite (unique_chars_rank t i c Hi).
    split.
    - apply index_dict_position; [|exact Hi].
      apply (Permutation_NoDup (Permutation_sym (sorted_perm (set_of t)))).
      apply NoDup_nodup.
    - rewrite <- unique_chars_length. apply nth_error_Some. congruence. }
  pose proof (one_hot_loop _ _ _ t Hd []) as H. simpl in H.
  unfold _one_hot_encode, enumerate, len. rewrite range_of_nat.
  rewrite unique_chars_length, H. reflexivity.
Qed.

End OneHotFacts.

Module Encodings.
Import ChaosEncoder PyFacts BinaryFacts RankFacts OneHotFacts.

(** ** Flattening *)

Lemma concat_rows_length {A} (k : nat) (rows : list (list A)) :
  Forall (fun r => length r = k) rows ->
  length (concat rows) = (length rows * k)%nat.
Proof.
  induction 1 as [|r rows Hr _ IH]; simpl; [reflexivity|].
  rewrite length_app, IH, Hr. reflexivity.
Qed.

Lemma block_concat {A} (k : nat) (rows : list (list A)) :
  Forall (fun r => length r = k) rows ->
  forall i row, nth_error rows i = Some row -> block k i (concat rows) = row.
Proof.
  unfold block.
  induction 1 as [|r rows Hr _ IH]; intros i row Hi.
  - destruct i; discriminate.
  - destruct i as [|i]; simpl in Hi |- *.
    + inversion Hi; subst r.
      rewrite firstn_app, Hr, Nat.sub_diag, <- Hr, firstn_all. simpl.
      apply app_nil_r.
    + rewrite skipn_app, Hr.
      rewrite (skipn_all2 r) by lia. simpl.
      replace (k + i * k - k)%nat with (i * k)%nat by lia.
      now apply IH.
Qed.

(** C8.  For every non-empty text of length [L] with [k] distinct
    characters, the OneHot encoding succeeds with a sequence of length
    exactly [L * k] whose elements are all 0 or 1; the block of width
    [k] of each position holds exactly one 1, at the rank of that
    position's character among the sorted distinct characters. *)
Theorem one_hot_encode_blocks (t : text) :
  t <> [] ->
  exists out : list R,
    _one_hot_encode t = Ok out
    /\ length out = (length t * distinct_count t)%nat
    /\ Forall (fun v => v = 0 \/ v = 1)%R out
    /\ forall i c, nth_error t i = Some c ->
         (rank t c < distinct_count t)%nat
         /\ count_occ Req_dec_T (block (distinct_count t) i out) 1%R = 1%nat
         /\ forall j, (j < distinct_count t)%nat ->
              nth j (block (distinct_count t) i out) 0%R
              = if (j =? rank t c)%nat then 1%R else 0%R.
Proof.
  intros _.
  set (k := distinct_count t).
  set (rows := map (fun c => one_hot_row k (rank t c)) t).
  assert (Hrows : Forall (fun r => length r = k) rows).
  { apply Forall_forall. intros r Hr. apply in_map_iff in Hr.
    destruct Hr as [c [<- _]]. apply one_hot_row_length. }
  assert (Hrank : forall c, In c t -> (rank t c < k)%nat).
  { intros c Hc. destruct (unique_chars_position t c Hc) as [i Hi].
    rewrite (unique_chars_rank t i c Hi). unfold k.
    rewrite <- unique_chars_length. apply nth_error_Some. congruence. }
  exists (concat rows). split; [apply one_hot_encode_rows|].
  split.
  { rewrite (concat_rows_length k rows Hrows). unfold rows.
    now rewrite length_map. }
  split.
  { apply Forall_concat, Forall_forall. intros r Hr. apply in_map_iff in Hr.
    destruct Hr as [c [<- _]]. apply one_hot_row_binary. }
  intros i c Hi.
  assert (Hc : In c t) by (eapply nth_error_In; eassumption).
  assert (Hrow : nth_error rows i = Some (one_hot_row k (rank t c))).
  { unfold rows. now rewrite nth_error_map, Hi. }
  rewrite (block_concat k rows Hrows i _ Hrow).
  split; [now apply Hrank|].
  split; [apply one_hot_row_single; now apply Hrank|].
  intros j Hj. now apply one_hot_row_nth.
Qed.

Lemma one_hot_encode_blocks_witness :
  exists out : list R,
    _one_hot_encode [98; 97; 98]%N = Ok out
    /\ length out = 6%nat
    /\ Forall (fun v => v = 0 \/ v = 1)%R out
    /\ forall i c, nth_error [98; 97; 98]%N i = Some c ->
         (rank [98; 97; 98]%N c < 2)%nat
         /\ count_occ Req_dec_T (block 2 i out) 1%R = 1%nat
         /\ forall j, (j < 2)%nat ->
              nth j (block 2 i out) 0%R
              = if (j =? rank [98; 97; 98]%N c)%nat then 1%R else 0%R.
Proof.
  apply (one_hot_encode_blocks [98; 97; 98]%N). discriminate.
Defined.

(** C9.  For every single character with code point below 128, the
    Binary encoding succeeds with exactly 8 elements, each 0 or 1: the
    8-bit zero-padded binary digits of the code point, the most
    significant first (element [i] is bit [7 - i]). *)
Theorem binary_encode_ascii (c : char) :
  (c < 128)%N ->
  exists bits : list Z,
    _binary_encode [c] = Ok (map IZR bits)
    /\ length (map IZR bits) = 8%nat
    /\ Forall (fun v => v = 0 \/ v = 1)%R (map IZR bits)
    /\ bits = msb_bits 8 c
    /\ (forall i, (i < 8)%nat ->
          nth i bits 0%Z = Z.b2z (N.testbit c (N.of_nat (7 - i))))
    /\ bits_value bits = Z.of_N c.
Proof.
  intros Hc.
  assert (Hw : block_width c = 8%nat).
  { unfold block_width, bit_length. apply Nat.max_l.
    destruct c as [|p]; [simpl; lia|]. simpl N.size_nat.
    destruct (le_lt_dec (Pos.size_nat p) 8) as [|Hgt]; [assumption|].
    pose proof (size_nat_low p 8%nat Hgt) as Hlow. simpl in Hlow. lia. }
  exists (msb_bits 8 c).
  split.
  { unfold _binary_encode. rewrite binary_list_blocks. simpl.
    rewrite Hw, app_nil_r. reflexivity. }
  split; [now rewrite length_map, msb_bits_length|].
  split; [apply IZR_binary, msb_bits_binary|].
  split; [reflexivity|].
  split.
  - intros i Hi.
    do 8 (destruct i as [|i]; [reflexivity|]). lia.
  - assert (Hn : exists n, (n < 128)%nat /\ c = N.of_nat n).
    { exists (N.to_nat c). split; [lia|now rewrite N2Nat.id]. }
    destruct Hn as [n [Hn ->]].
    assert (Hall : forallb (fun n => Z.eqb (bits_value (msb_bits 8 (N.of_nat n)))
                                           (Z.of_N (N.of_nat n)))
                           (seq 0 128) = true) by (vm_compute; reflexivity).
    rewrite forallb_forall in Hall.
    apply Z.eqb_eq, Hall, in_seq. lia.
Qed.

(** C10.  For every character with code point at least 256, the Binary
    encoding emits the binary digits of the whole code point at their
    minimum width: as many elements as the code point has bits, more
    than 8, the first one a 1, and together worth the code point, so
    nothing is cut down to the low 8 bits.  Inside a text the block of
    such a character has that width, between the blocks of its
    neighbours. *)
Theorem binary_encode_wide (c : char) (before after : text) :
  (256 <= c)%N ->
  exists bits : list Z,
    _binary_encode [c] = Ok (map IZR bits)
    /\ bits = msb_bits (bit_length c) c
    /\ length (map IZR bits) = bit_length c
    /\ (8 < bit_length c)%nat
    /\ hd 0%Z bits = 1%Z
    /\ bits_value bits = Z.of_N c
    /\ bits <> msb_bits 8 c
    /\ exists l1 l2 : list Z,
         _binary_encode before = Ok (map IZR l1)
         /\ _binary_encode after = Ok (map IZR l2)
         /\ _binary_encode (before ++ c :: after)
            = Ok (map IZR (l1 ++ bits ++ l2)).
Proof.
  intros Hc. destruct c as [|p]; [lia|].
  assert (Hsize : (8 < Pos.size_nat p)%nat).
  { destruct (le_lt_dec (Pos.size_nat p) 8) as [Hle|]; [|assumption].
    pose proof (size_nat_bound p 8%nat Hle) as Hb. simpl in Hb. lia. }
  assert (Hw : block_width (Npos p) = Pos.size_nat p).
  { unfold block_width, bit_length. simpl N.size_nat. lia. }
  exists (msb_bits (Pos.size_nat p) (Npos p)).
  unfold bit_length. simpl N.size_nat.
  split.
  { unfold _binary_encode. rewrite binary_list_blocks. simpl.
    rewrite Hw, app_nil_r. reflexivity. }
  split; [reflexivity|].
  split; [now rewrite length_map, msb_bits_length|].
  split; [assumption|].
  split; [apply head_min_width|].
  split; [apply bits_value_min_width|].
  split.
  { intros E. apply (f_equal (@length Z)) in E.
    rewrite !msb_bits_length in E. lia. }
  exists (flat_map (fun c => msb_bits (block_width c) c) before),
         (flat_map (fun c => msb_bits (block_width c) c) after).
  unfold _binary_encode. rewrite !binary_list_blocks. simpl.
  repeat split.
  rewrite flat_map_app. simpl. rewrite Hw. reflexivity.
Qed.

Lemma binary_encode_wide_witness :
  exists bits : list Z,
    _binary_encode [8364%N] = Ok (map IZR bits)
    /\ bits = msb_bits (bit_length 8364) 8364
    /\ length (map IZR bits) = bit_length 8364
    /\ (8 < bit_length 8364)%nat
    /\ hd 0%Z bits = 1%Z
    /\ bits_value bits = Z.of_N 8364
    /\ bits <> msb_bits 8 8364
    /\ exists l1 l2 : list Z,
         _binary_encode [97%N] = Ok (map IZR l1)
         /\ _binary_encode [256%N] = Ok (map IZR l2)
         /\ _binary_encode ([97%N] ++ 8364%N :: [256%N])
            = Ok (map IZR (l1 ++ bits ++ l2)).
Proof.
  apply (binary_encode_wide 8364%N [97%N] [256%N]). vm_compute. discriminate.
Defined.

Lemma binary_encode_ascii_witness :
  exists bits : list Z,
    _binary_encode [97%N] = Ok (map IZR bits)
    /\ length (map IZR bits) = 8%nat
    /\ Forall (fun v => v = 0 \/ v = 1)%R (map IZR bits)
    /\ bits = msb_bits 8 97
    /\ (forall i, (i < 8)%nat ->
          nth i bits 0%Z = Z.b2z (N.testbit 97 (N.of_nat (7 - i))))
    /\ bits_value bits = Z.of_N 97.
Proof.
  apply (binary_encode_ascii 97%N). reflexivity.
Defined.

(** The blocks of ["a"], of the euro sign and of U+0100. *)
Example binary_list_mixed :
  binary_list [97; 8364; 256]%N
  = Ok ([0; 1; 1; 0; 0; 0; 0; 1]
        ++ [1; 0; 0; 0; 0; 0; 1; 0; 1; 0; 1; 1; 0; 0]
        ++ [1; 0; 0; 0; 0; 0; 0; 0; 0])%Z.
Proof. reflexivity. Qed.

End Encodings.

(* ===================================================================== *)
(** * Properties of the orchestrator: validation *)
(* ===================================================================== *)

Module DuplicateFacts.

Import Order.

Lemma AlgorithmType_eqb_eq (a b : AlgorithmType) :
  AlgorithmType_eqb a b = true <-> a = b.
Proof. destruct a, b; simpl; split; congruence. Qed.

Lemma EncodingModel_eqb_eq (a b : EncodingModel) :
  EncodingModel_eqb a b = true <-> a = b.
Proof. destruct a, b; simpl; split; congruence. Qed.

Section Duplicates.
Context {A : Type} (eqb : A -> A -> bool).
Hypothesis eqb_eq : forall a b, eqb a b = true <-> a = b.

Lemma existsb_eqb_In (x : A) (s : list A) :
  existsb (eqb x) s = true <-> In x s.
Proof.
  rewrite existsb_exists. split.
  - intros [y [Hy E]]. apply eqb_eq in E. now subst.
  - intros H. exists x. split; [assumption|]. now apply eqb_eq.
Qed.

Lemma dedup_In (l : list A) : forall x, In x (dedup eqb l) <-> In x l.
Proof.
  induction l as [|y l IH]; intros x; simpl; [tauto|].
  destruct (existsb (eqb y) (dedup eqb l)) eqn:E; simpl.
  - apply (proj1 (existsb_eqb_In _ _)) in E. apply (proj1 (IH y)) in E.
    rewrite IH. split; [tauto|].
    intros [<-|H]; assumption.
  - rewrite IH. tauto.
Qed.

Lemma dedup_length (l : list A) : (length (dedup eqb l) <= length l)%nat.
Proof.
  induction l as [|y l IH]; simpl; [lia|].
  destruct (existsb (eqb y) (dedup eqb l)); simpl; lia.
Qed.

Lemma has_duplicates_NoDup (l : list A) :
  has_duplicates eqb l = false <-> NoDup l.
Proof.
  unfold has_duplicates.
  rewrite negb_false_iff, Nat.eqb_eq.
  induction l as [|y l IH]; simpl.
  - split; [constructor|reflexivity].
  - pose proof (dedup_length l) as Hle.
    destruct (existsb (eqb y) (dedup eqb l)) eqn:E; simpl.
    + split; [lia|]. intros Hnd. inversion Hnd; subst.
      apply (proj1 (existsb_eqb_In _ _)) in E.
      apply (proj1 (dedup_In l y)) in E. contradiction.
    + split.
      * intros H. injection H as H. constructor; [|now apply IH].
        intros Hin. apply (proj2 (dedup_In l y)) in Hin.
        apply (proj2 (existsb_eqb_In _ _)) in Hin. congruence.
      * intros Hnd. inversion Hnd; subst. f_equal. now apply IH.
Qed.

Lemma has_duplicates_true (l : list A) :
  has_duplicates eqb l = true <-> ~ NoDup l.
Proof.
  rewrite <- has_duplicates_NoDup.
  destruct (has_duplicates eqb l); split; congruence.
Qed.
End Duplicates.

Lemma valid_member (self : Order) (a : AlgorithmType) :
  initialized self ->
  existsb (AlgorithmType_eqb a) (_valid_algorithms self)
  = negb (AlgorithmType_eqb a MULTISCALE).
Proof.
  intros Hinit.
  destruct (existsb (AlgorithmType_eqb a) (_valid_algorithms self)) eqn:E.
  - apply (existsb_eqb_In _ AlgorithmType_eqb_eq) in E.
    apply (Permutation_in _ Hinit) in E.
    simpl in E. destruct E as [<-|[<-|[<-|[<-|[]]]]]; reflexivity.
  - destruct a; try reflexivity; exfalso;
      match type of E with
      | existsb (AlgorithmType_eqb ?x) _ = false =>
          assert (Hin : In x (_valid_algorithms self))
            by (apply (Permutation_in _ (Permutation_sym Hinit)); simpl; auto);
          apply (existsb_eqb_In _ AlgorithmType_eqb_eq) in Hin; congruence
      end.
Qed.

End DuplicateFacts.

Module Validation.

Import Order PyFacts DuplicateFacts.

Lemma filter_single (algs : list AlgorithmType) :
  NoDup algs -> In MULTISCALE algs ->
  filter (fun a => AlgorithmType_eqb a MULTISCALE) algs = [MULTISCALE].
Proof.
  induction 1 as [|a algs Ha Hnd IH]; intros Hin; [destruct Hin|].
  simpl. destruct (AlgorithmType_eqb a MULTISCALE) eqn:E.
  - apply AlgorithmType_eqb_eq in E. subst a. f_equal.
    apply filter_none. intros b Hb.
    destruct (AlgorithmType_eqb b MULTISCALE) eqn:Eb; [|reflexivity].
    apply AlgorithmType_eqb_eq in Eb. subst b. contradiction.
  - destruct Hin as [->|Hin]; [discriminate E|]. now apply IH.
Qed.

Lemma filter_none_enc (l : list EncodingModel) :
  filter (fun e => negb (isinstance_EncodingModel e)) l = [].
Proof. induction l; simpl; auto. Qed.

Lemma invalid_algos (self : Order) (algs : list AlgorithmType) :
  initialized self ->
  filter (fun a => negb (existsb (AlgorithmType_eqb a) (_valid_algorithms self)))
         algs
  = filter (fun a => AlgorithmType_eqb a MULTISCALE) algs.
Proof.
  intros Hinit. apply filter_ext. intros a.
  rewrite (valid_member self a Hinit). apply negb_involutive.
Qed.

Lemma outside_validated (a : AlgorithmType) :
  ~ In a validated -> a = MULTISCALE.
Proof. destruct a; simpl; intros H; try reflexivity; exfalso; tauto. Qed.

Lemma encodings_validation (encodings : option (list EncodingModel)) :
  encodings_pass encodings ->
  exists es,
    match encodings with
    | None => ret [FREQUENCY]
    | Some encodings =>
        if has_duplicates EncodingModel_eqb encodings
        then raise (ValueError "Duplicate encoding models detected")
        else
          match filter (fun e => negb (isinstance_EncodingModel e))
                       encodings with
          | [] => ret encodings
          | invalid_encodings =>
              raise (ValueError
                       ("Invalid encoding models: "
                        ++ repr_list (map EncodingModel_repr
                                          invalid_encodings)))
          end
    end = ([], Ok es)
    /\ es = match encodings with None => [FREQUENCY] | Some l => l end.
Proof.
  destruct encodings as [es|]; simpl; intros H.
  - exists es.
    rewrite (proj2 (has_duplicates_NoDup _ EncodingModel_eqb_eq es) H).
    rewrite filter_none_enc. split; reflexivity.
  - exists [FREQUENCY]. split; reflexivity.
Qed.

(** C6.  All validation failures of [get_stats] come with an empty
    trace, that is before any encoding or entropy computation.  A
    [data] that is not a string, or is the empty string, fails as an
    invalid input.  With a proper text, a provided algorithms list
    with duplicates fails as a duplicate selection; and, the encodings
    passing too, one without duplicates that holds an element outside
    Shannon, Approximate, Sample and Permutation fails as an
    unsupported algorithm, which names Multiscale.  So a list that
    holds Multiscale never gets through: the call fails in the
    validation whatever the other arguments. *)
Theorem get_stats_validation (self : Order) (data : pyarg)
    (encodings : option (list EncodingModel))
    (algorithms : option (list AlgorithmType)) (json_response : bool) :
  initialized self ->
  ((forall t, data = Str t -> t = []) ->
     get_stats self data encodings algorithms json_response
     = ([], Raise InvalidInputError))
  /\ (forall t algs,
        data = Str t -> t <> [] ->
        algorithms = Some algs -> ~ NoDup algs ->
        exists e,
          DuplicateSelectionError e
          /\ get_stats self data encodings algorithms json_response
             = ([], Raise e))
  /\ (forall t algs,
        data = Str t -> t <> [] -> encodings_pass encodings ->
        algorithms = Some algs -> NoDup algs ->
        (exists a, In a algs /\ ~ In a validated) ->
        UnsupportedAlgorithmError
          (ValueError "Unsupported algorithm types: [<AlgorithmType.MULTISCALE: 'multiscale_entropy'>]")
        /\ get_stats self data encodings algorithms json_response
           = ([], Raise (ValueError
                           "Unsupported algorithm types: [<AlgorithmType.MULTISCALE: 'multiscale_entropy'>]")))
  /\ (forall algs,
        algorithms = Some algs -> In MULTISCALE algs ->
        exists e,
          (e = InvalidInputError \/ DuplicateSelectionError e
           \/ UnsupportedAlgorithmError e)
          /\ get_stats self data encodings algorithms json_response
             = ([], Raise e)).
Proof.
  intros Hinit.
  assert (Hkind : UnsupportedAlgorithmError
            (ValueError "Unsupported algorithm types: [<AlgorithmType.MULTISCALE: 'multiscale_entropy'>]")).
  { exists [MULTISCALE]. split; [discriminate|reflexivity]. }
  assert (Hdup_enc : forall t es, t <> [] ->
            has_duplicates EncodingModel_eqb es = true ->
            get_stats self (Str t) (Some es) algorithms json_response
            = ([], Raise (ValueError "Duplicate encoding models detected"))).
  { intros t es Ht Hes. destruct t as [|c t]; [congruence|].
    unfold get_stats. rewrite Hes. reflexivity. }
  assert (Hdup : forall t algs, t <> [] -> encodings_pass encodings ->
            ~ NoDup algs ->
            get_stats self (Str t) encodings (Some algs) json_response
            = ([], Raise (ValueError "Duplicate algorithms detected"))).
  { intros t algs Ht Henc Hnd. destruct t as [|c t]; [congruence|].
    unfold get_stats.
    destruct (encodings_validation encodings Henc) as [es [-> _]].
    rewrite (proj2 (has_duplicates_true _ AlgorithmType_eqb_eq algs) Hnd).
    reflexivity. }
  assert (Huns : forall t algs, t <> [] -> encodings_pass encodings ->
            NoDup algs -> In MULTISCALE algs ->
            get_stats self (Str t) encodings (Some algs) json_response
            = ([], Raise (ValueError
                 "Unsupported algorithm types: [<AlgorithmType.MULTISCALE: 'multiscale_entropy'>]"))).
  { intros t algs Ht Henc Hnd Hin. destruct t as [|c t]; [congruence|].
    unfold get_stats.
    destruct (encodings_validation encodings Henc) as [es [-> _]].
    rewrite (proj2 (has_duplicates_NoDup _ AlgorithmType_eqb_eq algs) Hnd).
    rewrite (invalid_algos self algs Hinit), (filter_single algs Hnd Hin).
    reflexivity. }
  assert (Hencs : encodings_pass encodings
                  \/ exists es, encodings = Some es
                                /\ has_duplicates EncodingModel_eqb es = true).
  { destruct encodings as [es|]; [|left; exact I].
    destruct (has_duplicates EncodingModel_eqb es) eqn:Ees.
    - right. exists es. auto.
    - left. apply (has_duplicates_NoDup _ EncodingModel_eqb_eq), Ees. }
  split; [|split; [|split]].
  - intros Hempty. destruct data as [t|b]; [|reflexivity].
    rewrite (Hempty t eq_refl). reflexivity.
  - intros t algs -> Ht -> Hnd.
    destruct Hencs as [Henc|[es [-> Hes]]].
    + eexists. split; [right; reflexivity|]. now apply Hdup.
    + eexists. split; [left; reflexivity|]. now apply Hdup_enc.
  - intros t algs -> Ht Henc -> Hnd [a [Ha Hout]].
    apply outside_validated in Hout. subst a.
    split; [exact Hkind|]. now apply Huns.
  - intros algs -> Hin.
    destruct data as [[|c t]|b];
      try (exists InvalidInputError; split; [now left|reflexivity]).
    assert (Ht : c :: t <> []) by discriminate.
    destruct Hencs as [Henc|[es [-> Hes]]].
    + destruct (has_duplicates AlgorithmType_eqb algs) eqn:Eal.
      * eexists. split; [right; left; right; reflexivity|].
        apply Hdup; try assumption.
        now apply (has_duplicates_true _ AlgorithmType_eqb_eq).
      * eexists. split; [right; right; exact Hkind|].
        apply Huns; try assumption.
        now apply (has_duplicates_NoDup _ AlgorithmType_eqb_eq).
    + eexists. split; [right; left; left; reflexivity|]. now apply Hdup_enc.
Qed.

Lemma get_stats_validation_witness :
  get_stats an_order (Str [97; 97; 97; 97]%N) None
            (Some [SHANNON; MULTISCALE]) false
  = ([], Raise (ValueError
                  "Unsupported algorithm types: [<AlgorithmType.MULTISCALE: 'multiscale_entropy'>]")).
Proof.
  refine (proj2 (proj1 (proj2 (proj2
            (get_stats_validation an_order (Str [97; 97; 97; 97]%N) None
               (Some [SHANNON; MULTISCALE]) false _)))
            [97; 97; 97; 97]%N [SHANNON; MULTISCALE] eq_refl _ I eq_refl _ _)).
  - apply Permutation_refl.
  - discriminate.
  - repeat constructor; simpl; intuition discriminate.
  - exists MULTISCALE. simpl. intuition discriminate.
Defined.

(** Two Multiscale entries are refused as a duplicate selection. *)
Example get_stats_duplicate_multiscale :
  get_stats an_order (Str [97]%N) None (Some [MULTISCALE; MULTISCALE]) false
  = ([], Raise (ValueError "Duplicate algorithms detected")).
Proof. reflexivity. Qed.

End Validation.

(* ===================================================================== *)
(** * Properties of the orchestrator: the computation *)
(* ===================================================================== *)

Module Computation.

Import Order.

Lemma tbind_inv {A B} (m : traced A) (f : A -> traced B)
    (tr : list event) (res : result B) :
  tbind m f = (tr, res) ->
  (exists e, m = (tr, Raise e) /\ res = Raise e)
  \/ (exists tr1 a tr2, m = (tr1, Ok a) /\ f a = (tr2, res)
                        /\ tr = tr1 ++ tr2).
Proof.
  destruct m as [tr1 [a|e]]; simpl.
  - destruct (f a) as [tr2 r] eqn:E. intros H. inversion H; subst.
    right. exists tr1, a, tr2. auto.
  - intros H. inversion H; subst. left. exists e. auto.
Qed.

(** The outcomes of [_calculate_entropy]. *)
Lemma calculate_entropy_cases (x : list R) (enc : string) (a : AlgorithmType) :
  (_get_algorithm_function a = None
   /\ exists msg, _calculate_entropy x enc a = ([], Raise (ValueError msg)))
  \/ (exists f, _get_algorithm_function a = Some f
      /\ ((exists v, f x = Ok v /\ isfinite v = true
                     /\ _calculate_entropy x enc a
                        = ([Compute enc a],
                           Ok (mkEntropyResult enc (AlgorithmType_value a) v)))
          \/ (exists v, f x = Ok v /\ isfinite v = false
                        /\ _calculate_entropy x enc a
                           = ([Compute enc a],
                              Raise (ValueError (not_finite_inner a))))
          \/ (exists e, f x = Raise e
                        /\ _calculate_entropy x enc a
                           = ([Compute enc a],
                              Raise (ValueError
                                       ("Error calculating entropy with "
                                        ++ AlgorithmType_format a
                                        ++ ": " ++ exn_str e)))))).
Proof.
  unfold _calculate_entropy.
  destruct (_get_algorithm_function a) as [f|] eqn:Ef.
  - right. exists f. split; [reflexivity|].
    destruct (f x) as [v|e] eqn:Efx; simpl.
    + destruct (isfinite v) eqn:Ev; simpl.
      * left. exists v. auto.
      * right. left. exists v. auto.
    + right. right. exists e. auto.
  - left. split; [reflexivity|]. eexists. reflexivity.
Qed.

Lemma EncodingModel_value_inj (e e' : EncodingModel) :
  EncodingModel_value e = EncodingModel_value e' -> e = e'.
Proof. destruct e, e'; simpl; intros H; try reflexivity; discriminate. Qed.

(** The loop over the algorithms: the results it adds are finite, and
    a computed value that is not finite is the failure. *)
Lemma algorithms_loop_post (x : list R) (e : EncodingModel)
    (algs : list AlgorithmType) :
  forall results tr res,
    algorithms_loop x e algs results = (tr, res) ->
    (forall rs, res = Ok rs ->
       exists new, rs = results ++ new
                   /\ Forall (fun r => isfinite (entropy r) = true) new)
    /\ (forall enc' a, In (Compute enc' a) tr ->
          enc' = EncodingModel_value e
          /\ forall f v,
               _get_algorithm_function a = Some f -> f x = Ok v ->
               isfinite v = false ->
               res = Raise (ValueError (not_finite_inner a))).
Proof.
  induction algs as [|a0 algs IH]; intros results tr res H.
  - unfold algorithms_loop in H. simpl in H. inversion H; subst.
    split.
    + intros rs Hrs. inversion Hrs; subst. exists []. rewrite app_nil_r. auto.
    + intros enc' a [].
  - unfold algorithms_loop in H. simpl in H.
    apply tbind_inv in H.
    destruct H as [[ex [Hm ->]] | [tr1 [rs1 [tr2 [Hm [Hk ->]]]]]].
    + (* the first algorithm fails *)
      apply tbind_inv in Hm.
      destruct Hm as [[ex' [Hc Hex]] | [tr1 [r1 [tr2 [_ [Hret _]]]]]];
        [|discriminate Hret].
      inversion Hex; subst ex'. clear Hex.
      split; [intros rs Hrs; discriminate|].
      intros enc' a Hin.
      destruct (calculate_entropy_cases x (EncodingModel_value e) a0)
        as [[_ [msg Hcase]] | [f0 [Hf0 [[v [Hv [Hfin Hcase]]]
                                       | [[v [Hv [Hfin Hcase]]]
                                         | [e0 [He0 Hcase]]]]]]];
        rewrite Hcase in Hc; inversion Hc; subst; simpl in Hin;
        try contradiction;
        (destruct Hin as [Hin|[]]; inversion Hin; subst enc' a;
         split; [reflexivity|]; intros f' v' Hf Hfv Hnf;
         rewrite Hf0 in Hf; inversion Hf; subst f'; congruence).
    + (* the first algorithm succeeds *)
      apply tbind_inv in Hm.
      destruct Hm as [[ex' [_ Hex]] | [tr0 [r0 [tr0' [Hc [Hret ->]]]]]];
        [discriminate Hex|].
      inversion Hret; subst tr0' rs1. clear Hret.
      fold (algorithms_loop x e algs (results ++ [r0])) in Hk.
      destruct (IH _ _ _ Hk) as [IHa IHb].
      destruct (calculate_entropy_cases x (EncodingModel_value e) a0)
        as [[_ [msg Hcase]] | [f0 [Hf0 [[v [Hv [Hfin Hcase]]]
                                       | [[v [Hv [Hfin Hcase]]]
                                         | [e0 [He0 Hcase]]]]]]];
        rewrite Hcase in Hc; inversion Hc; subst.
      split.
      * intros rs Hrs. destruct (IHa rs Hrs) as [new [-> Hnew]].
        exists (mkEntropyResult (EncodingModel_value e)
                                (AlgorithmType_value a0) v :: new).
        rewrite <- app_assoc. split; [reflexivity|].
        constructor; assumption.
      * intros enc' a Hin. rewrite app_nil_r in Hin. simpl in Hin.
        destruct Hin as [Hin|Hin]; [|now apply IHb].
        inversion Hin; subst enc' a. split; [reflexivity|].
        intros f v' Hf Hfv Hnf. rewrite Hf0 in Hf. inversion Hf; subst f.
        congruence.
Qed.

(** One turn of the loop over the encodings. *)
Lemma encoding_turn_post (t : text) (algs : list AlgorithmType)
    (results : list EntropyResult) (e : EncodingModel)
    (tr : list event) (res : result (list EntropyResult)) :
  encoding_turn t algs results e = (tr, res) ->
  (forall rs, res = Ok rs ->
     exists new, rs = results ++ new
                 /\ Forall (fun r => isfinite (entropy r) = true) new)
  /\ (forall enc' a, In (Compute enc' a) tr ->
        enc' = EncodingModel_value e
        /\ forall f x v,
             ChaosEncoder.encode t e = Ok x ->
             _get_algorithm_function a = Some f -> f x = Ok v ->
             isfinite v = false ->
             res = Raise (ValueError (not_finite_message e a))).
Proof.
  unfold encoding_turn. simpl.
  destruct (ChaosEncoder.encode t e) as [x|ex] eqn:Eenc; simpl.
  - destruct (len x =? 0)%Z; simpl.
    + intros H. inversion H; subst. split; [intros rs Hrs; discriminate|].
      intros enc' a [Hin|[]]. discriminate Hin.
    + destruct (algorithms_loop x e algs results) as [tr' res'] eqn:Eloop.
      destruct (algorithms_loop_post x e algs results tr' res' Eloop)
        as [Ha Hb].
      destruct res' as [rs|ex]; simpl; intros H; inversion H; subst.
      * split; [intros rs' Hrs; inversion Hrs; subst; now apply Ha|].
        intros enc' a [Hin|Hin]; [discriminate Hin|].
        destruct (Hb enc' a Hin) as [-> Hb'].
        split; [reflexivity|].
        intros f x' v Hx Hf Hv Hnf. inversion Hx; subst x'.
        discriminate (Hb' f v Hf Hv Hnf).
      * split; [intros rs' Hrs; discriminate|].
        intros enc' a [Hin|Hin]; [discriminate Hin|].
        rewrite app_nil_r in Hin.
        destruct (Hb enc' a Hin) as [-> Hb'].
        split; [reflexivity|].
        intros f x' v Hx Hf Hv Hnf. inversion Hx; subst x'.
        specialize (Hb' f v Hf Hv Hnf). inversion Hb'; subst ex.
        reflexivity.
  - intros H. inversion H; subst. split; [intros rs Hrs; discriminate|].
    intros enc' a [Hin|[]]. discriminate Hin.
Qed.

(** The loop over the encodings. *)
Lemma encodings_loop_post (t : text) (algs : list AlgorithmType)
    (encs : list EncodingModel) :
  forall results tr res,
    tfoldM (encoding_turn t algs) encs results = (tr, res) ->
    (forall rs, res = Ok rs ->
       exists new, rs = results ++ new
                   /\ Forall (fun r => isfinite (entropy r) = true) new)
    /\ (forall e a, In (Compute (EncodingModel_value e) a) tr ->
          forall f x v,
            ChaosEncoder.encode t e = Ok x ->
            _get_algorithm_function a = Some f -> f x = Ok v ->
            isfinite v = false ->
            res = Raise (ValueError (not_finite_message e a))).
Proof.
  induction encs as [|e0 encs IH]; intros results tr res H; simpl in H.
  - inversion H; subst. split.
    + intros rs Hrs. inversion Hrs; subst. exists []. rewrite app_nil_r. auto.
    + intros e a [].
  - apply tbind_inv in H.
    destruct H as [[ex [Hm ->]] | [tr1 [rs1 [tr2 [Hm [Hk ->]]]]]];
      destruct (encoding_turn_post t algs results e0 _ _ Hm) as [Ha Hb].
    + split; [intros rs Hrs; discriminate|].
      intros e a Hin f x v Hx Hf Hv Hnf.
      destruct (Hb _ a Hin) as [Heq Hb'].
      apply EncodingModel_value_inj in Heq. subst e0.
      exact (Hb' f x v Hx Hf Hv Hnf).
    + destruct (IH _ _ _ Hk) as [IHa IHb].
      destruct (Ha rs1 eq_refl) as [new1 [-> Hnew1]].
      split.
      * intros rs Hrs. destruct (IHa rs Hrs) as [new [-> Hnew]].
        exists (new1 ++ new). rewrite app_assoc. split; [reflexivity|].
        now apply Forall_app.
      * intros e a Hin f x v Hx Hf Hv Hnf.
        apply in_app_or in Hin. destruct Hin as [Hin|Hin].
        -- destruct (Hb _ a Hin) as [Heq Hb'].
           apply EncodingModel_value_inj in Heq. subst e0.
           discriminate (Hb' f x v Hx Hf Hv Hnf).
        -- exact (IHb e a Hin f x v Hx Hf Hv Hnf).
Qed.

(** C4.  Whatever [get_stats] is called with: a response it returns
    holds finite entropy values only; and when a pair (encoding,
    algorithm) it computed has a value that is NaN or infinite, the
    call fails, with the error that names that encoding and that
    algorithm and says that the entropy is not finite. *)
Theorem get_stats_finite (self : Order) (data : pyarg)
    (encodings : option (list EncodingModel))
    (algorithms : option (list AlgorithmType)) (json_response : bool)
    (tr : list event) (res : result response) :
  get_stats self data encodings algorithms json_response = (tr, res) ->
  (forall resp, res = Ok resp ->
     Forall (fun v => isfinite v = true) (entropies resp))
  /\ (forall t e a f x v,
        data = Str t ->
        In (Compute (EncodingModel_value e) a) tr ->
        ChaosEncoder.encode t e = Ok x ->
        _get_algorithm_function a = Some f -> f x = Ok v ->
        isfinite v = false ->
        res = Raise (ValueError (not_finite_message e a))).
Proof.
  intros H.
  destruct data as [[|c t]|b];
    try (simpl in H; inversion H; subst;
         split; [intros resp Hr; discriminate | intros ? ? ? ? ? ? _ []]).
  unfold get_stats in H.
  apply tbind_inv in H.
  destruct H as [[ex [Hm ->]] | [tr1 [encs [tr2 [Hm [H ->]]]]]].
  { (* the encodings are refused *)
    assert (tr = []).
    { destruct encodings as [es|]; [|discriminate Hm].
      destruct (has_duplicates EncodingModel_eqb es);
        [inversion Hm; reflexivity|].
      destruct (filter _ es); inversion Hm; reflexivity. }
    subst tr. split; [intros resp Hr; discriminate | intros ? ? ? ? ? ? _ []]. }
  assert (tr1 = []).
  { destruct encodings as [es|]; [|inversion Hm; reflexivity].
    destruct (has_duplicates EncodingModel_eqb es);
      [inversion Hm; reflexivity|].
    destruct (filter _ es); inversion Hm; reflexivity. }
  subst tr1. simpl.
  apply tbind_inv in H.
  destruct H as [[ex [Hm2 ->]] | [tr1 [algs [tr3 [Hm2 [H ->]]]]]].
  { assert (tr2 = []).
    { destruct algorithms as [al|]; [|discriminate Hm2].
      destruct (has_duplicates AlgorithmType_eqb al);
        [inversion Hm2; reflexivity|].
      destruct (filter _ al); inversion Hm2; reflexivity. }
    subst tr2. split; [intros resp Hr; discriminate | intros ? ? ? ? ? ? _ []]. }
  assert (tr1 = []).
  { destruct algorithms as [al|]; [|inversion Hm2; reflexivity].
    destruct (has_duplicates AlgorithmType_eqb al);
      [inversion Hm2; reflexivity|].
    destruct (filter _ al); inversion Hm2; reflexivity. }
  subst tr1. simpl.
  apply tbind_inv in H.
  destruct H as [[ex [Hloop ->]] | [tr1 [rs [tr4 [Hloop [H ->]]]]]];
    change (tfoldM (encoding_turn (c :: t) algs) encs [] = (tr3, Raise ex))
      in Hloop
    || change (tfoldM (encoding_turn (c :: t) algs) encs [] = (tr1, Ok rs))
      in Hloop;
    destruct (encodings_loop_post (c :: t) algs encs [] _ _ Hloop)
      as [Ha Hb].
  - split; [intros resp Hr; discriminate|].
    intros t' e a f x v Ht Hin Hx Hf Hv Hnf. inversion Ht; subst t'.
    pose proof (Hb e a Hin f x v Hx Hf Hv Hnf) as E.
    inversion E; subst ex. reflexivity.
  - destruct (Ha rs eq_refl) as [new [-> Hnew]]. simpl in Hnew.
    split.
    + intros resp Hr. subst res.
      assert (Hresp : resp
                      = if json_response
                        then Json (map (fun r => (encoding r, algorithm r,
                                                  entropy r)) new)
                        else Results new).
      { destruct new; [inversion H|]. simpl in H. inversion H. reflexivity. }
      subst resp. clear H.
      destruct json_response; simpl; [rewrite map_map; simpl|];
        apply (proj2 (Forall_map _ _ _)); exact Hnew.
    + intros t' e a f x v Ht Hin Hx Hf Hv Hnf. inversion Ht; subst t'.
      apply in_app_or in Hin. destruct Hin as [Hin|Hin].
      * discriminate (Hb e a Hin f x v Hx Hf Hv Hnf).
      * destruct new; inversion H; subst; destruct Hin.
Qed.

End Computation.

(* ===================================================================== *)
(** * Properties of the algorithms: windows and distances *)
(* ===================================================================== *)

Module WindowFacts.

Import Algorithms PyFacts.
Local Open Scope R_scope.

Lemma Rltb_true (x y : R) : x < y -> Rltb x y = true.
Proof. intros H. unfold Rltb. destruct (Rlt_dec x y); [reflexivity|contradiction]. Qed.

Lemma Rltb_false (x y : R) : ~ x < y -> Rltb x y = false.
Proof. intros H. unfold Rltb. destruct (Rlt_dec x y); [contradiction|reflexivity]. Qed.

Lemma Reqb_true (x y : R) : x = y -> Reqb x y = true.
Proof. intros H. unfold Reqb. destruct (Req_dec_T x y); [reflexivity|contradiction]. Qed.

Lemma Reqb_false (x y : R) : x <> y -> Reqb x y = false.
Proof. intros H. unfold Reqb. destruct (Req_dec_T x y); [contradiction|reflexivity]. Qed.

Lemma Rleb_true (x y : R) : x <= y -> Rleb x y = true.
Proof. intros H. unfold Rleb. destruct (Rle_dec x y); [reflexivity|contradiction]. Qed.

Lemma Rleb_false (x y : R) : ~ x <= y -> Rleb x y = false.
Proof. intros H. unfold Rleb. destruct (Rle_dec x y); [contradiction|reflexivity]. Qed.

(** A slice inside the sequence is a window. *)
Lemma slice_window (ts : list R) (k i : nat) :
  (i + k <= length ts)%nat ->
  slice ts (Z.of_nat i) (Z.of_nat i + Z.of_nat k) = window ts k i.
Proof.
  intros H. unfold slice, window, clamp, len.
  destruct (Z.ltb_spec (Z.of_nat i) 0) as [|_]; [lia|].
  destruct (Z.ltb_spec (Z.of_nat i + Z.of_nat k) 0) as [|_]; [lia|].
  rewrite !Z.min_l by lia.
  replace (Z.of_nat i + Z.of_nat k - Z.of_nat i)%Z with (Z.of_nat k) by lia.
  now rewrite !Nat2Z.id.
Qed.

Lemma window_length (ts : list R) (k i : nat) :
  (i + k <= length ts)%nat -> length (window ts k i) = k.
Proof.
  intros H. unfold window. rewrite length_firstn, length_skipn. lia.
Qed.

Lemma window_range (ts : list R) (k : nat) :
  range (len ts - Z.of_nat k + 1)
  = map Z.of_nat (seq 0 (window_count (length ts) k)).
Proof.
  unfold range, window_count, len. f_equal. f_equal. lia.
Qed.

(** The largest of a non-empty list of absolute values, as the code
    folds it, is the right fold of [Rmax] from zero. *)
Lemma running_max (t : list R) :
  Forall (fun y => 0 <= y) t ->
  forall acc, 0 <= acc ->
    fold_left (fun acc y => if Rltb acc y then y else acc) t acc
    = Rmax acc (fold_right Rmax 0 t).
Proof.
  induction 1 as [|y t Hy Ht IH]; intros acc Hacc; simpl.
  - now rewrite Rmax_left.
  - rewrite IH.
    + unfold Rltb. destruct (Rlt_dec acc y) as [Hlt|Hge].
      * rewrite (Rmax_right acc) by
          (apply Rle_trans with y; [lra|apply Rmax_l]).
        reflexivity.
      * rewrite Rmax_assoc, (Rmax_left acc y) by lra. reflexivity.
    + unfold Rltb. destruct (Rlt_dec acc y); assumption.
Qed.

Lemma abs_diffs_nonneg (a b : list R) :
  Forall (fun y => 0 <= y) (map (fun p => Rabs (fst p - snd p)) (combine a b)).
Proof.
  apply Forall_forall. intros y Hy. apply in_map_iff in Hy.
  destruct Hy as [p [<- _]]. apply Rabs_pos.
Qed.

Lemma np_max_chebyshev (a b : list R) :
  a <> [] -> length a = length b ->
  np_max (map (fun p => Rabs (fst p - snd p)) (combine a b))
  = Ok (chebyshev a b).
Proof.
  intros Ha Hlen. unfold chebyshev.
  destruct a as [|x a]; [congruence|].
  destruct b as [|y b]; [discriminate|]. simpl.
  rewrite running_max; [reflexivity|apply abs_diffs_nonneg|apply Rabs_pos].
Qed.

Lemma within_chebyshev (a b : list R) (r : npfloat) :
  a <> [] -> length a = length b ->
  within a b r = Ok (fl_ltb (Fin (chebyshev a b)) r).
Proof.
  intros Ha Hlen. unfold within, np_sub, chebyshev.
  rewrite (proj2 (Nat.eqb_eq _ _) Hlen).
  destruct a as [|x a]; [congruence|].
  destruct b as [|y b]; [discriminate|]. simpl.
  rewrite map_map. simpl.
  rewrite running_max; [reflexivity|apply abs_diffs_nonneg|apply Rabs_pos].
Qed.

Lemma window_nonempty (ts : list R) (k i : nat) :
  (1 <= k)%nat -> (i + k <= length ts)%nat -> window ts k i <> [].
Proof.
  intros Hk H E. apply (f_equal (@length R)) in E.
  rewrite window_length in E by assumption. simpl in E. lia.
Qed.

Lemma chebyshev_nonneg (a b : list R) : 0 <= chebyshev a b.
Proof.
  unfold chebyshev.
  induction (map (fun p => Rabs (fst p - snd p)) (combine a b)) as [|y l IH];
    simpl; [lra|].
  apply Rle_trans with (fold_right Rmax 0 l); [assumption|apply Rmax_r].
Qed.

End WindowFacts.

(* ===================================================================== *)
(** * Properties of the algorithms: sample entropy *)
(* ===================================================================== *)

Module SampleFacts.

Import Algorithms PyFacts WindowFacts.
Local Open Scope R_scope.

Lemma np_array2_ok (k : nat) (vectors : list (list R)) :
  Forall (fun v => length v = k) vectors -> np_array2 vectors = Ok vectors.
Proof.
  intros H. destruct vectors as [|v t]; [reflexivity|]. simpl.
  inversion H as [|? ? Hv Ht]; subst.
  rewrite (proj2 (forallb_forall _ _)); [reflexivity|].
  intros w Hw. rewrite Forall_forall in Ht.
  apply Nat.eqb_eq. now apply Ht.
Qed.

Lemma create_vectors_windows (ts : list R) (k : nat) :
  create_vectors ts (Z.of_nat k)
  = Ok (map (window ts k) (seq 0 (window_count (length ts) k))).
Proof.
  unfold create_vectors. rewrite window_range, map_map.
  rewrite (map_ext_in _ (window ts k)).
  - apply (np_array2_ok k). apply Forall_forall. intros v Hv.
    apply in_map_iff in Hv. destruct Hv as [i [<- Hi]].
    apply in_seq in Hi. unfold window_count in Hi.
    apply window_length. lia.
  - intros i Hi. apply in_seq in Hi. unfold window_count in Hi.
    apply slice_window. lia.
Qed.

Lemma combine_map_seq {A B} (f : nat -> A) (g : nat -> B) (l : list nat) :
  combine (map f l) (map g l) = map (fun i => (f i, g i)) l.
Proof. induction l as [|i l IH]; simpl; [reflexivity|]. now rewrite IH. Qed.

Lemma np_sum_bool_filter {A} (b : A -> bool) (l : list A) :
  np_sum_bool (map b l) = Z.of_nat (length (filter b l)).
Proof.
  unfold np_sum_bool.
  assert (H : forall acc,
             fold_left Z.add (map Z.b2z (map b l)) acc
             = (acc + Z.of_nat (length (filter b l)))%Z).
  { induction l as [|x l IH]; intros acc; simpl; [lia|].
    rewrite IH. destruct (b x); simpl length; simpl Z.b2z; lia. }
  apply H.
Qed.

(** One turn of a loop of [sample_entropy]: the windows other than the
    [i]-th at distance [< r] from it. *)
Lemma matches_of_windows (ts : list R) (k cols i : nat) (r : R) :
  (1 <= k)%nat -> (cols <= window_count (length ts) k)%nat -> (i < cols)%nat ->
  matches_of (map (window ts k) (seq 0 cols)) (Fin r) (Z.of_nat i)
  = Ok (Z.of_nat
          (length (filter (fun j => negb (i =? j)%nat
                                    && Rltb (chebyshev (window ts k i)
                                                       (window ts k j)) r)
                          (seq 0 cols)))).
Proof.
  intros Hk Hcols Hi. unfold matches_of, window_count in *.
  rewrite (getitem_nat _ i (window ts k i)).
  2:{ rewrite nth_error_map, nth_error_seq.
      destruct (Nat.ltb_spec i cols); [reflexivity|lia]. }
  simpl.
  rewrite (mapM_ok_map _ (chebyshev (window ts k i))).
  2:{ intros row Hrow. apply in_map_iff in Hrow.
      destruct Hrow as [j [<- Hj]]. apply in_seq in Hj.
      apply np_max_chebyshev.
      - apply window_nonempty; lia.
      - rewrite !window_length by lia. reflexivity. }
  simpl. unfold enumerate, len.
  rewrite !length_map, length_seq, range_of_nat, map_map.
  rewrite combine_map_seq, map_map. simpl.
  rewrite np_sum_bool_filter. do 3 f_equal.
  apply filter_ext. intros j.
  rewrite andb_comm. f_equal. f_equal.
  destruct (Nat.eqb_spec i j) as [->|Hne].
  - apply Z.eqb_refl.
  - apply Z.eqb_neq. lia.
Qed.

Lemma list_prod_filter_length {A B} (p : A * B -> bool) (l : list A)
    (l' : list B) :
  length (filter p (list_prod l l'))
  = list_sum (map (fun i => length (filter (fun j => p (i, j)) l')) l).
Proof.
  induction l as [|x l IH]; simpl; [reflexivity|].
  rewrite filter_app, length_app, IH. f_equal.
  clear IH. induction l' as [|y l' IH']; simpl; [reflexivity|].
  destruct (p (x, y)); simpl; now rewrite IH'.
Qed.

Lemma pair_count_sum (ts : list R) (k : nat) (r : R) (rows cols : nat) :
  pair_count ts k r rows cols
  = list_sum (map (fun i =>
                     length (filter (fun j => negb (i =? j)%nat
                                              && Rltb (chebyshev (window ts k i)
                                                                 (window ts k j)) r)
                                    (seq 0 cols)))
                  (seq 0 rows)).
Proof. unfold pair_count. apply list_prod_filter_length. Qed.

(** A whole loop of [sample_entropy]. *)
Lemma matches_loop (x : list (list R)) (r : npfloat) (f : nat -> nat)
    (l : list nat) :
  (forall i, In i l -> matches_of x r (Z.of_nat i) = Ok (Z.of_nat (f i))) ->
  forall acc,
    foldM (fun B i => c <- matches_of x r i ;; Ok (B + c)%Z)
          (map Z.of_nat l) acc
    = Ok (acc + Z.of_nat (list_sum (map f l)))%Z.
Proof.
  induction l as [|i l IH]; intros H acc; simpl.
  - f_equal. lia.
  - rewrite (H i (or_introl eq_refl)). simpl.
    rewrite IH by (intros j Hj; apply H; now right).
    f_equal. lia.
Qed.

Lemma pairs_loop (ts : list R) (k rows : nat) (r : R) :
  (1 <= k)%nat -> (rows <= window_count (length ts) k)%nat ->
  foldM (fun B i =>
           c <- matches_of (map (window ts k)
                                (seq 0 (window_count (length ts) k)))
                           (Fin r) i ;;
           Ok (B + c)%Z)
        (range (Z.of_nat rows)) 0%Z
  = Ok (Z.of_nat (pair_count ts k r rows (window_count (length ts) k))).
Proof.
  intros Hk Hrows. rewrite range_of_nat, pair_count_sum.
  rewrite (matches_loop _ _
             (fun i => length (filter (fun j => negb (i =? j)%nat
                                        && Rltb (chebyshev (window ts k i)
                                                           (window ts k j)) r)
                                      (seq 0 (window_count (length ts) k))))).
  - reflexivity.
  - intros i Hi. apply in_seq in Hi.
    apply matches_of_windows; [assumption|lia|lia].
Qed.

Lemma range_to_nat (z : Z) : range z = range (Z.of_nat (Z.to_nat z)).
Proof. unfold range. now rewrite Nat2Z.id. Qed.

Lemma of_Z_nat (n : nat) : of_Z (Z.of_nat n) = Fin (INR n).
Proof. unfold of_Z. now rewrite <- INR_IZR_INZ. Qed.

(** [sample_entropy] in terms of its two counts. *)
Lemma sample_entropy_value (ts : list R) (k : nat) (r : R) :
  (1 <= k)%nat ->
  sample_entropy ts (Z.of_nat k) (Fin r)
  = Ok (if (0 <? B_count ts k r)%nat && (0 <? A_count ts k r)%nat
        then Fin (- ln (INR (A_count ts k r) / INR (B_count ts k r)))
        else PInf).
Proof.
  intros Hk. unfold sample_entropy, B_count, A_count.
  rewrite create_vectors_windows. simpl bind.
  replace (Z.of_nat k + 1)%Z with (Z.of_nat (S k)) by lia.
  rewrite create_vectors_windows. simpl bind.
  rewrite (range_to_nat (len ts - Z.of_nat k)).
  replace (Z.to_nat (len ts - Z.of_nat k)) with (length ts - k)%nat
    by (unfold len; lia).
  rewrite pairs_loop by (unfold window_count; lia). simpl bind.
  rewrite (range_to_nat (len ts - Z.of_nat k - 1)).
  replace (Z.to_nat (len ts - Z.of_nat k - 1)) with (length ts - S k)%nat
    by (unfold len; lia).
  rewrite pairs_loop by (unfold window_count; lia). simpl bind.
  set (B := pair_count ts k r (length ts - k) (window_count (length ts) k)).
  set (A := pair_count ts (S k) r (length ts - S k)
                       (window_count (length ts) (S k))).
  f_equal.
  replace (Z.of_nat B >? 0)%Z with (0 <? B)%nat
    by (rewrite Z.gtb_ltb; destruct (Nat.ltb_spec 0 B), (Z.ltb_spec 0 (Z.of_nat B));
        try reflexivity; lia).
  replace (Z.of_nat A >? 0)%Z with (0 <? A)%nat
    by (rewrite Z.gtb_ltb; destruct (Nat.ltb_spec 0 A), (Z.ltb_spec 0 (Z.of_nat A));
        try reflexivity; lia).
  destruct (Nat.ltb_spec 0 B) as [HB|HB]; [|reflexivity].
  destruct (Nat.ltb_spec 0 A) as [HA|HA]; [|reflexivity].
  simpl andb. cbv iota. rewrite <- !INR_IZR_INZ.
  assert (0 < INR B) by (apply lt_0_INR; lia).
  assert (0 < INR A) by (apply lt_0_INR; lia).
  rewrite Reqb_false by lra.
  unfold np_log. rewrite Rltb_true by (apply Rdiv_lt_0_compat; assumption).
  reflexivity.
Qed.

End SampleFacts.

Module SampleEntropy.

Import Algorithms PyFacts WindowFacts SampleFacts.
Local Open Scope R_scope.

Lemma chebyshev_same (a : list R) : chebyshev a a = 0.
Proof.
  unfold chebyshev. induction a as [|x a IH]; simpl; [reflexivity|].
  rewrite IH, Rminus_diag, Rabs_R0. apply Rmax_left. lra.
Qed.

Lemma chebyshev_head (x y : R) (a b : list R) :
  Rabs (x - y) <= chebyshev (x :: a) (y :: b).
Proof. unfold chebyshev. simpl. apply Rmax_l. Qed.

(** The counts on four equal samples, for windows of length 2 and 3. *)
Lemma flat_B_count : B_count [0; 0; 0; 0] 2 (1 / 2) = 4%nat.
Proof.
  unfold B_count, pair_count.
  cbn [seq list_prod map app filter fst snd Nat.eqb negb andb window firstn
       skipn length window_count Nat.sub Nat.add].
  rewrite !chebyshev_same, !Rltb_true by lra. reflexivity.
Qed.

Lemma flat_A_count : A_count [0; 0; 0; 0] 2 (1 / 2) = 1%nat.
Proof.
  unfold A_count, pair_count.
  cbn [seq list_prod map app filter fst snd Nat.eqb negb andb window firstn
       skipn length window_count Nat.sub Nat.add].
  rewrite !chebyshev_same, !Rltb_true by lra. reflexivity.
Qed.

Lemma flat_all_pairs_2 : all_pairs [0; 0; 0; 0] 2 (1 / 2) = 6%nat.
Proof.
  unfold all_pairs, pair_count.
  cbn [seq list_prod map app filter fst snd Nat.eqb negb andb window firstn
       skipn length window_count Nat.sub Nat.add].
  rewrite !chebyshev_same, !Rltb_true by lra. reflexivity.
Qed.

Lemma flat_all_pairs_3 : all_pairs [0; 0; 0; 0] 3 (1 / 2) = 2%nat.
Proof.
  unfold all_pairs, pair_count.
  cbn [seq list_prod map app filter fst snd Nat.eqb negb andb window firstn
       skipn length window_count Nat.sub Nat.add].
  rewrite !chebyshev_same, !Rltb_true by lra. reflexivity.
Qed.

(** C3, as amended.  For every sequence, embedding dimension [m >= 1]
    and tolerance [r], [sample_entropy] returns [-ln (A / B)] where [B]
    counts the pairs [(i, j)], [i <> j], of windows of length [m] at
    Chebyshev distance [< r] with [i] any window but the last and [j]
    any window, and [A] counts the same for length [m + 1]; when [A] or
    [B] is zero it returns positive infinity, and it never raises. *)
Theorem sample_entropy_counts (ts : list R) (m : Z) (r : R) :
  (1 <= m)%Z ->
  sample_entropy ts m (Fin r)
  = Ok (if (0 <? B_count ts (Z.to_nat m) r)%nat
           && (0 <? A_count ts (Z.to_nat m) r)%nat
        then Fin (- ln (INR (A_count ts (Z.to_nat m) r)
                        / INR (B_count ts (Z.to_nat m) r)))
        else PInf)
  /\ (B_count ts (Z.to_nat m) r = 0%nat \/ A_count ts (Z.to_nat m) r = 0%nat ->
      sample_entropy ts m (Fin r) = Ok PInf).
Proof.
  intros Hm.
  assert (E : sample_entropy ts m (Fin r)
              = sample_entropy ts (Z.of_nat (Z.to_nat m)) (Fin r))
    by (rewrite Z2Nat.id by lia; reflexivity).
  rewrite E, sample_entropy_value by lia.
  split; [reflexivity|].
  intros [H0|H0]; rewrite H0; simpl; [reflexivity|].
  now rewrite andb_false_r.
Qed.

Lemma sample_entropy_counts_witness :
  sample_entropy [0; 0; 0; 0] 2 (Fin (1 / 2)) = Ok (Fin (- ln (INR 1 / INR 4))).
Proof.
  rewrite (proj1 (sample_entropy_counts [0; 0; 0; 0] 2 (1 / 2)
                    ltac:(discriminate))).
  change (Z.to_nat 2) with 2%nat.
  rewrite flat_B_count, flat_A_count. reflexivity.
Defined.

(** C3, as stated, fails: with both windows of a pair ranging over all
    the windows, four equal samples give [ln 3], and the code returns
    [ln 4]. *)
Lemma sample_entropy_all_pairs_differs :
  sample_entropy [0; 0; 0; 0] 2 (Fin (1 / 2))
  <> Ok (Fin (- ln (INR (all_pairs [0; 0; 0; 0] 3 (1 / 2))
                   / INR (all_pairs [0; 0; 0; 0] 2 (1 / 2))))).
Proof.
  pose proof (sample_entropy_value [0; 0; 0; 0] 2 (1 / 2) ltac:(lia)) as Hv.
  change (Z.of_nat 2) with 2%Z in Hv. rewrite Hv. clear Hv.
  rewrite flat_B_count, flat_A_count, flat_all_pairs_2, flat_all_pairs_3.
  simpl. intros E. inversion E as [E'].
  apply Ropp_eq_reg, ln_inv in E'; lra.
Qed.

(** A strictly increasing sequence whose steps exceed the tolerance:
    no two windows match, and the result is positive infinity. *)
Example sample_entropy_no_match :
  sample_entropy [1; 2; 3; 4] 2 (Fin (1 / 2)) = Ok PInf.
Proof.
  apply (proj2 (sample_entropy_counts [1; 2; 3; 4] 2 (1 / 2)
                  ltac:(discriminate))).
  left. change (Z.to_nat 2) with 2%nat.
  unfold B_count, pair_count.
  cbn [seq list_prod map app filter fst snd Nat.eqb negb andb window firstn
       skipn length window_count Nat.sub Nat.add].
  repeat match goal with
         | |- context [Rltb (chebyshev (?x :: ?a) (?y :: ?b)) ?r] =>
             rewrite (Rltb_false (chebyshev (x :: a) (y :: b)) r)
               by (pose proof (chebyshev_head x y a b) as Hh;
                   unfold Rabs in Hh;
                   destruct (Rcase_abs (x - y)) in Hh; lra)
         end.
  reflexivity.
Qed.

End SampleEntropy.

(* ===================================================================== *)
(** * Properties of the algorithms: approximate entropy *)
(* ===================================================================== *)

Module ApproximateEntropy.

Import Algorithms PyFacts WindowFacts SampleFacts.
Local Open Scope R_scope.

(** The inner loop of [_phi]: it adds to [count[i]] the number of
    windows of [js] at distance [< r] from the [i]-th. *)
Lemma phi_inner_loop (ts : list R) (k i : nat) (r : R)
    (pre post : list R) :
  (1 <= k)%nat -> (i + k <= length ts)%nat -> length pre = i ->
  forall js, (forall j, In j js -> (j + k <= length ts)%nat) ->
  forall c,
    foldM (fun count j =>
             hit <- within (window ts k i)
                      (slice ts j (j + Z.of_nat k)) (Fin r) ;;
             if hit : bool
             then (c <- getitem count (Z.of_nat i) ;;
                   setitem count (Z.of_nat i) (c + 1))
             else Ok count)
          (map Z.of_nat js) (pre ++ c :: post)
    = Ok (pre ++ (c + INR (length
                             (filter (fun j => Rltb (chebyshev (window ts k i)
                                                               (window ts k j)) r)
                                     js)))
              :: post).
Proof.
  intros Hk Hi Hpre js. induction js as [|j js IH]; intros Hjs c.
  - simpl. now rewrite Rplus_0_r.
  - simpl map. simpl foldM.
    rewrite slice_window by (apply Hjs; now left).
    rewrite within_chebyshev.
    2:{ apply window_nonempty; lia. }
    2:{ rewrite !window_length; [reflexivity| |assumption].
        apply Hjs. now left. }
    simpl bind. simpl fl_ltb. simpl filter.
    destruct (Rltb (chebyshev (window ts k i) (window ts k j)) r).
    + subst i.
      rewrite (getitem_nat _ _ _ (nth_error_middle pre post c)). simpl bind.
      rewrite (setitem_nat _ _ _ _ (set_nth_middle pre post c (c + 1))).
      rewrite IH by (intros j' Hj'; apply Hjs; now right).
      simpl length. rewrite S_INR. do 3 f_equal. lra.
    + apply IH. intros j' Hj'. apply Hjs. now right.
Qed.

(** The outer loop of [_phi]. *)
Lemma phi_outer_loop (ts : list R) (k : nat) (r : R) :
  (1 <= k)%nat ->
  forall m done,
    (length done + m = window_count (length ts) k)%nat ->
    foldM (fun count i =>
             let template := slice ts i (i + Z.of_nat k) in
             foldM (fun count j =>
                      hit <- within template
                               (slice ts j (j + Z.of_nat k)) (Fin r) ;;
                      if hit : bool
                      then (c <- getitem count i ;;
                            setitem count i (c + 1))
                      else Ok count)
                   (range (len ts - Z.of_nat k + 1)) count)
          (map Z.of_nat (seq (length done) m)) (done ++ repeat 0 m)
    = Ok (done ++ map (fun i => INR (near_count ts k r
                                       (window_count (length ts) k) i))
                      (seq (length done) m)).
Proof.
  intros Hk. induction m as [|m IH]; intros done Hlen.
  - reflexivity.
  - simpl seq. simpl map. simpl repeat.
    unfold window_count in Hlen.
    erewrite foldM_cons.
    2:{ cbv beta zeta.
        rewrite slice_window by lia.
        rewrite window_range.
        rewrite (phi_inner_loop ts k (length done) r done (repeat 0 m) Hk
                   ltac:(lia) eq_refl).
        2:{ intros j Hj. apply in_seq in Hj. unfold window_count in Hj. lia. }
        fold (near_count ts k r (window_count (length ts) k) (length done)).
        rewrite Rplus_0_l. reflexivity. }
    specialize (IH (done ++ [INR (near_count ts k r
                                    (window_count (length ts) k)
                                    (length done))])).
    rewrite length_app, Nat.add_1_r, <- app_assoc in IH. simpl app in IH.
    rewrite IH by (unfold window_count; lia).
    now rewrite <- app_assoc.
Qed.

(** [_phi] computes [phi_ext]. *)
Lemma phi_value (ts : list R) (k : nat) (r : R) :
  (1 <= k)%nat -> (k <= length ts + 1)%nat ->
  _phi ts (Fin r) (Z.of_nat k) = Ok (phi_ext ts r k).
Proof.
  intros Hk Hle.
  assert (E : of_Z (len ts - Z.of_nat k + 1)
              = Fin (INR (window_count (length ts) k))).
  { unfold of_Z, window_count, len. f_equal.
    rewrite INR_IZR_INZ. f_equal. lia. }
  unfold _phi, zeros. rewrite E.
  destruct (Z.ltb_spec (len ts - Z.of_nat k + 1) 0) as [Hneg|_];
    [unfold len in Hneg; lia|].
  cbn [bind].
  replace (Z.to_nat (len ts - Z.of_nat k + 1))
    with (window_count (length ts) k)
    by (unfold window_count, len; lia).
  rewrite (window_range ts k) at 1.
  pose proof (phi_outer_loop ts k r Hk (window_count (length ts) k) []
                eq_refl) as Hloop.
  simpl in Hloop. rewrite Hloop. cbn [bind].
  unfold phi_ext. now rewrite map_map.
Qed.

Lemma fl_sum_finite (l : list R) : fl_sum (map Fin l) = Fin (Rsum l).
Proof.
  unfold fl_sum, Rsum. generalize 0.
  induction l as [|x l IH]; intros a; simpl; [reflexivity|]. apply IH.
Qed.

(** With a positive tolerance every window is near itself. *)
Lemma near_count_self (ts : list R) (k n i : nat) (r : R) :
  0 < r -> (i < n)%nat -> (1 <= near_count ts k r n i)%nat.
Proof.
  intros Hr Hi. unfold near_count.
  assert (Hin : In i (filter (fun j => Rltb (chebyshev (window ts k i)
                                                       (window ts k j)) r)
                             (seq 0 n))).
  { apply filter_In. split; [apply in_seq; lia|].
    apply Rltb_true.
    assert (E : chebyshev (window ts k i) (window ts k i) = 0).
    { unfold chebyshev.
      induction (window ts k i) as [|x a IH]; simpl; [reflexivity|].
      rewrite IH, Rminus_diag, Rabs_R0. apply Rmax_left. lra. }
    rewrite E. exact Hr. }
  destruct (filter _ (seq 0 n)); [destruct Hin|simpl; lia].
Qed.

(** With a positive tolerance [phi_ext] is the real [phi_real]. *)
Lemma phi_ext_real (ts : list R) (k : nat) (r : R) :
  0 < r -> (1 <= window_count (length ts) k)%nat ->
  phi_ext ts r k = Fin (phi_real ts r k).
Proof.
  intros Hr Hn. unfold phi_ext, phi_real.
  set (n := window_count (length ts) k) in *.
  assert (Hpos : 0 < INR n) by (apply lt_0_INR; lia).
  rewrite (map_ext_in _ (fun i => Fin (ln (INR (near_count ts k r n i) / INR n)))).
  - rewrite <- (map_map (fun i => ln (INR (near_count ts k r n i) / INR n)) Fin).
    rewrite fl_sum_finite. unfold fl_div.
    rewrite Reqb_false by lra. reflexivity.
  - intros i Hi. apply in_seq in Hi.
    pose proof (near_count_self ts k n i r Hr ltac:(lia)) as Hc.
    assert (0 < INR (near_count ts k r n i)) by (apply lt_0_INR; lia).
    unfold fl_div. rewrite Reqb_false by lra.
    unfold np_log. rewrite Rltb_true by (apply Rdiv_lt_0_compat; assumption).
    reflexivity.
Qed.

(** C5.  For every sequence of length [N >= m + 2] ([m >= 1], the
    length of a window) and tolerance [r], [approximate_entropy] works
    on the [N - m + 1] contiguous windows of length [m], counts for
    each the windows at Chebyshev distance [< r] from it (itself
    included), takes [phi(m) = (1/(N-m+1)) * sum_i log(count_i/(N-m+1))]
    and returns [|phi(m) - phi(m+1)|]: in the extended arithmetic of
    the floats for every [r], and as that real number as soon as [r]
    is positive (every count is then at least 1). *)
Theorem approximate_entropy_formula (ts : list R) (m : Z) (r : R) :
  (1 <= m)%Z -> (m + 2 <= len ts)%Z ->
  window_count (length ts) (Z.to_nat m) = (length ts - Z.to_nat m + 1)%nat
  /\ approximate_entropy ts m (Fin r)
     = Ok (fl_abs (fl_sub (phi_ext ts r (Z.to_nat m))
                          (phi_ext ts r (S (Z.to_nat m)))))
  /\ (0 < r ->
      (forall i, (i < window_count (length ts) (Z.to_nat m))%nat ->
         (1 <= near_count ts (Z.to_nat m) r
                 (window_count (length ts) (Z.to_nat m)) i)%nat)
      /\ approximate_entropy ts m (Fin r)
         = Ok (Fin (Rabs (phi_real ts r (Z.to_nat m)
                          - phi_real ts r (S (Z.to_nat m)))))).
Proof.
  intros Hm HN. unfold len in HN.
  set (k := Z.to_nat m).
  assert (Hk : (1 <= k)%nat) by (unfold k; lia).
  assert (HkN : (k + 2 <= length ts)%nat) by (unfold k; lia).
  assert (Hval : approximate_entropy ts m (Fin r)
                 = Ok (fl_abs (fl_sub (phi_ext ts r k) (phi_ext ts r (S k))))).
  { unfold approximate_entropy.
    replace m with (Z.of_nat k) by (unfold k; lia).
    rewrite phi_value by lia. cbn [bind].
    replace (Z.of_nat k + 1)%Z with (Z.of_nat (S k)) by lia.
    rewrite phi_value by lia. reflexivity. }
  split; [unfold window_count; lia|].
  split; [exact Hval|].
  intros Hr. split.
  - intros i Hi. now apply near_count_self.
  - rewrite Hval.
    rewrite !phi_ext_real by (try assumption; unfold window_count; lia).
    reflexivity.
Qed.

Lemma approximate_entropy_formula_witness :
  approximate_entropy [0; 0; 0; 0] 2 (Fin (1 / 2))
  = Ok (Fin (Rabs (phi_real [0; 0; 0; 0] (1 / 2) 2
                   - phi_real [0; 0; 0; 0] (1 / 2) 3))).
Proof.
  refine (proj2 (proj2 (proj2
            (approximate_entropy_formula [0; 0; 0; 0] 2 (1 / 2) _ _)) _)).
  - discriminate.
  - discriminate.
  - lra.
Defined.

End ApproximateEntropy.

(* ===================================================================== *)
(** * Properties of the algorithms: Shannon entropy *)
(* ===================================================================== *)

Module ShannonEntropy.

Import Algorithms PyFacts WindowFacts ApproximateEntropy.
Local Open Scope R_scope.

(** ** [np.unique] *)

Lemma unique_insert_keys (x : R) (u : list (R * Z)) (v : R) :
  In v (map fst (unique_insert x u)) <-> v = x \/ In v (map fst u).
Proof.
  induction u as [|[y c] u IH]; simpl.
  - intuition.
  - unfold Reqb, Rltb.
    destruct (Req_dec_T x y) as [->|Hne]; simpl; [intuition|].
    destruct (Rlt_dec x y); simpl; [intuition|].
    rewrite IH. intuition.
Qed.

Lemma unique_insert_sorted (x : R) (u : list (R * Z)) :
  StronglySorted Rlt (map fst u) ->
  StronglySorted Rlt (map fst (unique_insert x u)).
Proof.
  induction u as [|[y c] u IH]; simpl; intros Hs.
  - repeat constructor.
  - inversion Hs as [|? ? Hs' Hall]; subst.
    unfold Reqb, Rltb.
    destruct (Req_dec_T x y) as [->|Hne]; simpl; [now constructor|].
    destruct (Rlt_dec x y) as [Hlt|Hge]; simpl.
    + constructor; [now constructor|].
      constructor; [assumption|].
      eapply Forall_impl; [|exact Hall]. intros a Ha. simpl in Ha. lra.
    + constructor; [now apply IH|].
      apply Forall_forall. intros v Hv.
      apply unique_insert_keys in Hv. destruct Hv as [->|Hv]; [lra|].
      rewrite Forall_forall in Hall. now apply Hall.
Qed.

Lemma unique_insert_entries (x : R) (u : list (R * Z)) (v : R) (c : Z) :
  StronglySorted Rlt (map fst u) ->
  In (v, c) (unique_insert x u) ->
  (v = x /\ ((~ In x (map fst u) /\ c = 1%Z)
             \/ exists c0, In (x, c0) u /\ c = (c0 + 1)%Z))
  \/ (v <> x /\ In (v, c) u).
Proof.
  induction u as [|[y c'] u IH]; simpl; intros Hs Hin.
  - destruct Hin as [Hin|[]]. inversion Hin; subst. left. tauto.
  - inversion Hs as [|? ? Hs' Hall]; subst.
    rewrite Forall_forall in Hall.
    assert (Hfresh : forall a, In (v, a) u -> v <> y).
    { intros a Ha E. subst.
      assert (y < y); [|lra].
      apply Hall. apply in_map_iff. exists (y, a). auto. }
    unfold Reqb, Rltb in Hin.
    destruct (Req_dec_T x y) as [->|Hne]; simpl in Hin.
    + destruct Hin as [Hin|Hin].
      * inversion Hin; subst. left. split; [reflexivity|].
        right. exists c'. auto.
      * right. split; [now apply (Hfresh c)|auto].
    + destruct (Rlt_dec x y) as [Hlt|Hge]; simpl in Hin.
      * destruct Hin as [Hin|[Hin|Hin]].
        -- inversion Hin; subst. left. split; [reflexivity|].
           left. split; [|reflexivity].
           intros [E|Hx]; [lra|]. specialize (Hall _ Hx). lra.
        -- inversion Hin; subst. right. split; [congruence|auto].
        -- right. split; [|auto]. intros ->.
           assert (y < x); [|lra].
           apply Hall. apply in_map_iff. exists (x, c). auto.
      * destruct Hin as [Hin|Hin].
        -- inversion Hin; subst. right. split; [congruence|auto].
        -- destruct (IH Hs' Hin) as [[-> Hc]|[Hv Hc]].
           ++ left. split; [reflexivity|].
              destruct Hc as [[Hnot ->]|[c0 [Hc0 ->]]].
              ** left. split; [|reflexivity]. intros [E|Hx]; [congruence|tauto].
              ** right. exists c0. auto.
           ++ right. auto.
Qed.

Lemma np_unique_sorted (data : list R) :
  StronglySorted Rlt (map fst (np_unique data)).
Proof.
  induction data as [|x data IH]; simpl; [constructor|].
  now apply unique_insert_sorted.
Qed.

Lemma np_unique_keys (data : list R) (v : R) :
  In v (map fst (np_unique data)) <-> In v data.
Proof.
  induction data as [|x data IH]; simpl; [tauto|].
  rewrite unique_insert_keys, IH. intuition.
Qed.

(** The counts of [np.unique] are the numbers of occurrences. *)
Lemma np_unique_counts (data : list R) (v : R) (c : Z) :
  In (v, c) (np_unique data) -> c = Z.of_nat (occurrences data v).
Proof.
  revert v c. induction data as [|x data IH]; intros v c Hin; [destruct Hin|].
  simpl in Hin.
  apply unique_insert_entries in Hin; [|apply np_unique_sorted].
  unfold occurrences in *. simpl count_occ.
  destruct Hin as [[-> [[Hnot ->]|[c0 [Hc0 ->]]]]|[Hne Hin]].
  - destruct (Req_dec_T x x) as [_|E]; [|congruence].
    rewrite np_unique_keys in Hnot.
    apply (count_occ_not_In Req_dec_T) in Hnot. rewrite Hnot. reflexivity.
  - destruct (Req_dec_T x x) as [_|E]; [|congruence].
    rewrite (IH _ _ Hc0). lia.
  - destruct (Req_dec_T x v) as [E|_]; [congruence|]. now apply IH.
Qed.

Lemma unique_insert_total (x : R) (u : list (R * Z)) :
  fold_right Z.add 0%Z (map snd (unique_insert x u))
  = (fold_right Z.add 0%Z (map snd u) + 1)%Z.
Proof.
  induction u as [|[y c] u IH]; [reflexivity|].
  cbn [unique_insert].
  destruct (Reqb x y); cbn [map fold_right snd]; [lia|].
  destruct (Rltb x y); cbn [map fold_right snd]; [lia|].
  cbn [map fold_right snd] in IH. rewrite IH. lia.
Qed.

Lemma np_unique_total (data : list R) :
  fold_right Z.add 0%Z (map snd (np_unique data)) = Z.of_nat (length data).
Proof.
  induction data as [|x data IH]; [reflexivity|].
  simpl np_unique. rewrite unique_insert_total, IH. simpl length. lia.
Qed.

Lemma np_unique_length (data : list R) :
  length (np_unique data) = distinct_values data.
Proof.
  unfold distinct_values. rewrite <- (length_map fst).
  apply Permutation_length, NoDup_Permutation.
  - pose proof (np_unique_sorted data) as Hs.
    induction Hs as [|a l Hs IH Hall]; constructor; [|assumption].
    intros Hin. rewrite Forall_forall in Hall. specialize (Hall a Hin). lra.
  - apply NoDup_nodup.
  - intros v. rewrite np_unique_keys, nodup_In. tauto.
Qed.

(** ** The entropy of a uniform sample *)

Lemma all_equal_repeat {A} (a : A) (l : list A) :
  (forall c, In c l -> c = a) -> l = repeat a (length l).
Proof.
  induction l as [|c l IH]; simpl; intros H; [reflexivity|].
  rewrite (H c (or_introl eq_refl)) at 1. f_equal. apply IH. auto.
Qed.

Lemma total_repeat (a : Z) (k : nat) :
  fold_right Z.add 0%Z (repeat a k) = (Z.of_nat k * a)%Z.
Proof. induction k as [|k IH]; simpl repeat; simpl fold_right; lia. Qed.

Lemma Rsum_repeat (a : R) (k : nat) : Rsum (repeat a k) = INR k * a.
Proof.
  unfold Rsum.
  assert (H : forall acc, fold_left Rplus (repeat a k) acc = acc + INR k * a).
  { induction k as [|k IH]; intros acc.
    - simpl. lra.
    - simpl repeat. simpl fold_left. rewrite IH, S_INR. lra. }
  rewrite H. lra.
Qed.

Lemma fl_sum_repeat (a : R) (k : nat) :
  fl_sum (repeat (Fin a) k) = Fin (INR k * a).
Proof. now rewrite <- map_repeat, fl_sum_finite, Rsum_repeat. Qed.

(** The probabilities of a uniform sample are all [1 / k]. *)
Lemma uniform_probabilities (data : list R) :
  data <> [] ->
  (forall x y, In x data -> In y data ->
               occurrences data x = occurrences data y) ->
  map (fun c => IZR c / IZR (len data)) (map snd (np_unique data))
  = repeat (1 / INR (distinct_values data)) (distinct_values data)
  /\ (1 <= distinct_values data)%nat.
Proof.
  intros Hne Hunif.
  destruct data as [|x0 data0] eqn:Edata; [congruence|]. rewrite <- Edata in *.
  assert (Hx0 : In x0 data) by (rewrite Edata; now left).
  set (c0 := occurrences data x0).
  assert (Hc0 : (1 <= c0)%nat).
  { unfold c0, occurrences. apply (count_occ_In Req_dec_T) in Hx0. lia. }
  assert (Hsnd : map snd (np_unique data)
                 = repeat (Z.of_nat c0) (distinct_values data)).
  { rewrite <- np_unique_length, <- (length_map snd).
    apply all_equal_repeat. intros c Hc.
    apply in_map_iff in Hc. destruct Hc as [[v c'] [<- Hin]]. simpl.
    rewrite (np_unique_counts data v c' Hin). f_equal.
    apply Hunif; [|assumption].
    apply np_unique_keys, in_map_iff. exists (v, c'). auto. }
  pose proof (np_unique_total data) as Htot.
  rewrite Hsnd, total_repeat in Htot.
  assert (Hk : (1 <= distinct_values data)%nat).
  { destruct (distinct_values data); [|lia].
    rewrite Edata in Htot. simpl in Htot. lia. }
  split; [|exact Hk].
  rewrite Hsnd, map_repeat. f_equal.
  unfold len. rewrite <- Htot, mult_IZR, <- !INR_IZR_INZ.
  assert (0 < INR c0) by (apply lt_0_INR; lia).
  assert (0 < INR (distinct_values data)) by (apply lt_0_INR; lia).
  field. split; lra.
Qed.

Lemma ln_base_nonzero (base : R) : 0 < base -> base <> 1 -> ln base <> 0.
Proof.
  intros Hpos Hne E. apply Hne. apply ln_inv; [assumption|lra|].
  now rewrite ln_1.
Qed.

(** Shannon entropy of a sample spread evenly over its distinct
    values. *)
Lemma shannon_uniform_value (data : list R) (base : R) :
  data <> [] -> 0 < base -> base <> 1 ->
  (forall x y, In x data -> In y data ->
               occurrences data x = occurrences data y) ->
  shannon_entropy data base
  = Ok (Fin (ln (INR (distinct_values data)) / ln base)).
Proof.
  intros Hne Hpos Hb1 Hunif. unfold shannon_entropy.
  destruct (uniform_probabilities data Hne Hunif) as [-> Hk].
  set (k := distinct_values data) in *.
  assert (HkR : 0 < INR k) by (apply lt_0_INR; lia).
  assert (Hp : 0 < 1 / INR k) by (apply Rdiv_lt_0_compat; lra).
  assert (Hln : ln (1 / INR k) = - ln (INR k)).
  { unfold Rdiv. rewrite Rmult_1_l. now apply ln_Rinv. }
  pose proof (ln_base_nonzero base Hpos Hb1) as Hlb.
  unfold Reqb at 1. destruct (Req_dec_T base 2) as [->|Hb2].
  - rewrite (mapM_ok_map _ (fun p => Fin (p * (ln p / ln 2)))).
    + cbn [bind]. rewrite map_repeat, fl_sum_repeat. simpl fl_neg.
      do 2 f_equal. rewrite Hln. field. split; lra.
    + intros p Hp'. apply repeat_spec in Hp'. subst p.
      unfold math_log2. rewrite Rltb_true by assumption. reflexivity.
  - rewrite (map_ext_in _ (fun p => Fin (p * ln p / ln base))).
    + rewrite map_repeat, fl_sum_repeat. simpl fl_neg.
      do 2 f_equal. rewrite Hln. field. split; lra.
    + intros p Hp'. apply repeat_spec in Hp'. subst p.
      unfold np_log. rewrite !Rltb_true by assumption.
      unfold fl_mul, fl_div. rewrite Reqb_false by assumption. reflexivity.
Qed.

(** Shannon entropy of a constant sample. *)
Lemma shannon_constant_value (data : list R) (base : R) :
  data <> [] -> 0 < base -> base <> 1 ->
  (forall x y, In x data -> In y data -> x = y) ->
  shannon_entropy data base = Ok (Fin 0).
Proof.
  intros Hne Hpos Hb1 Hconst.
  rewrite shannon_uniform_value; try assumption.
  - assert (Hk : distinct_values data = 1%nat).
    { unfold distinct_values.
      destruct data as [|x0 data0] eqn:Edata; [congruence|].
      rewrite <- Edata in *.
      assert (Hall : forall v, In v (nodup Req_dec_T data) -> v = x0).
      { intros v Hv. apply nodup_In in Hv. apply Hconst; [assumption|].
        rewrite Edata. now left. }
      pose proof (NoDup_nodup Req_dec_T data) as Hnd.
      assert (Hx0 : In x0 (nodup Req_dec_T data))
        by (apply nodup_In; rewrite Edata; now left).
      destruct (nodup Req_dec_T data) as [|a [|b l]];
        [destruct Hx0|reflexivity|].
      exfalso. inversion Hnd as [|? ? Hnot _]; subst. apply Hnot.
      rewrite (Hall a), (Hall b); simpl; auto. }
    rewrite Hk. simpl INR. rewrite ln_1. do 2 f_equal.
    unfold Rdiv. apply Rmult_0_l.
  - intros x y Hx Hy. now rewrite (Hconst x y Hx Hy).
Qed.

(** C7.  For every non-empty sequence and every base that is positive
    and not 1, [shannon_entropy] returns 0 on a constant sequence and
    [log_base k] on a sequence spread evenly over [k] distinct values;
    with base 2, four elements that are all distinct give 2. *)
Theorem shannon_entropy_uniform (data : list R) (base : R) :
  data <> [] -> 0 < base -> base <> 1 ->
  ((forall x y, In x data -> In y data -> x = y) ->
     shannon_entropy data base = Ok (Fin 0))
  /\ ((forall x y, In x data -> In y data ->
                   occurrences data x = occurrences data y) ->
        shannon_entropy data base
        = Ok (Fin (ln (INR (distinct_values data)) / ln base)))
  /\ (length data = 4%nat -> NoDup data ->
      distinct_values data = 4%nat
      /\ shannon_entropy data 2 = Ok (Fin 2)).
Proof.
  intros Hne Hpos Hb1. split; [|split].
  - intros Hconst. now apply shannon_constant_value.
  - intros Hunif. now apply shannon_uniform_value.
  - intros Hlen Hnd.
    assert (Hk : distinct_values data = 4%nat).
    { unfold distinct_values. rewrite nodup_fixed_point; assumption. }
    split; [exact Hk|].
    rewrite shannon_uniform_value; try assumption; try lra.
    + rewrite Hk. do 2 f_equal.
      replace (INR 4) with (2 * 2) by (simpl; lra).
      rewrite ln_mult by lra.
      assert (ln 2 <> 0) by (apply ln_base_nonzero; lra).
      field. assumption.
    + intros x y Hx Hy. unfold occurrences.
      rewrite NoDup_count_occ' in Hnd.
      now rewrite (Hnd x Hx), (Hnd y Hy).
Qed.

Lemma shannon_entropy_uniform_witness :
  shannon_entropy [97; 98; 99; 100] 2 = Ok (Fin 2).
Proof.
  refine (proj2 (proj2 (proj2
            (shannon_entropy_uniform [97; 98; 99; 100] 2 _ _ _)) eq_refl _)).
  - discriminate.
  - lra.
  - lra.
  - repeat constructor; simpl; intros H;
      repeat (destruct H as [H|H]; [apply eq_IZR in H; discriminate|]);
      exact H.
Defined.

End ShannonEntropy.

(* ===================================================================== *)
(** * A run of the orchestrator on a constant text *)
(* ===================================================================== *)

Module ConstantText.

Import Order PyFacts WindowFacts SampleFacts ApproximateEntropy ShannonEntropy
       Computation.
Local Open Scope R_scope.

(** ** The algorithms under a tolerance that is not positive *)

Lemma pair_count_nonpositive (ts : list R) (k rows cols : nat) (r : R) :
  r <= 0 -> pair_count ts k r rows cols = 0%nat.
Proof.
  intros Hr. unfold pair_count.
  rewrite (filter_none _ _); [reflexivity|].
  intros [i j] _. simpl.
  rewrite Rltb_false; [apply andb_false_r|].
  pose proof (chebyshev_nonneg (window ts k i) (window ts k j)). lra.
Qed.

Lemma sample_entropy_nonpositive (ts : list R) (k : nat) (r : R) :
  (1 <= k)%nat -> r <= 0 ->
  sample_entropy ts (Z.of_nat k) (Fin r) = Ok PInf.
Proof.
  intros Hk Hr. rewrite sample_entropy_value by assumption.
  unfold B_count. now rewrite pair_count_nonpositive.
Qed.

Lemma near_count_nonpositive (ts : list R) (k n i : nat) (r : R) :
  r <= 0 -> near_count ts k r n i = 0%nat.
Proof.
  intros Hr. unfold near_count.
  rewrite (filter_none _ _); [reflexivity|].
  intros j _. apply Rltb_false.
  pose proof (chebyshev_nonneg (window ts k i) (window ts k j)). lra.
Qed.

Lemma fl_sum_minus_infinity {A} (l : list A) :
  l <> [] -> fl_sum (map (fun _ => NInf) l) = NInf.
Proof.
  intros Hl. destruct l as [|x l]; [congruence|].
  unfold fl_sum. simpl. clear. induction l; simpl; auto.
Qed.

Lemma phi_ext_nonpositive (ts : list R) (k : nat) (r : R) :
  r <= 0 -> (1 <= window_count (length ts) k)%nat -> phi_ext ts r k = NInf.
Proof.
  intros Hr Hn. unfold phi_ext.
  set (n := window_count (length ts) k) in *.
  assert (HnR : 0 < INR n) by (apply lt_0_INR; lia).
  rewrite (map_ext _ (fun _ => NInf)).
  - rewrite fl_sum_minus_infinity.
    + simpl. rewrite Rltb_false by lra. reflexivity.
    + destruct n; [lia|discriminate].
  - intros i. rewrite near_count_nonpositive by assumption. simpl INR.
    unfold fl_div. rewrite Reqb_false by lra.
    unfold np_log. rewrite Rltb_false by (unfold Rdiv; rewrite Rmult_0_l; lra).
    rewrite Reqb_true by (unfold Rdiv; apply Rmult_0_l). reflexivity.
Qed.

Lemma approximate_entropy_nonpositive (ts : list R) (k : nat) (r : R) :
  (1 <= k)%nat -> (k + 2 <= length ts)%nat -> r <= 0 ->
  approximate_entropy ts (Z.of_nat k) (Fin r) = Ok NaN.
Proof.
  intros Hk HN Hr. unfold approximate_entropy.
  rewrite phi_value by lia. cbn [bind].
  replace (Z.of_nat k + 1)%Z with (Z.of_nat (S k)) by lia.
  rewrite phi_value by lia. cbn [bind].
  rewrite !phi_ext_nonpositive by (try assumption; unfold window_count; lia).
  reflexivity.
Qed.

(** ** The standard deviation of a constant sequence *)

Lemma std_constant (ddof : Z) (v : R) (n : nat) :
  (ddof < Z.of_nat (S n))%Z -> std ddof (repeat v (S n)) = Fin 0.
Proof.
  intros Hd. unfold std. change (repeat v (S n)) with (v :: repeat v n) at 1.
  cbv iota. fold (repeat v (S n)).
  assert (Hmean : mean (repeat v (S n)) = v).
  { unfold mean, len. rewrite Rsum_repeat, repeat_length, <- INR_IZR_INZ.
    assert (0 < INR (S n)) by (apply lt_0_INR; lia). field. lra. }
  rewrite Hmean, map_repeat, Rsum_repeat.
  rewrite Rminus_diag, Rabs_R0, !Rmult_0_r.
  unfold len. rewrite repeat_length.
  rewrite Z.max_l by lia. unfold of_Z, fl_div.
  rewrite Reqb_false by (apply not_0_IZR; lia).
  unfold np_sqrt, Rdiv. rewrite Rmult_0_l, Rleb_true by lra.
  now rewrite sqrt_0.
Qed.

(** ** The four algorithms on the encoding of ["aaaa"] *)

Lemma encode_aaaa :
  ChaosEncoder.encode (text_of_string "aaaa") FREQUENCY = Ok [1; 1; 1; 1].
Proof. cbn -[IZR Rdiv]. repeat f_equal; field. Qed.

Lemma tolerance_aaaa : fl_mul (Fin (2 / 10)) (std 0 [1; 1; 1; 1]) = Fin 0.
Proof.
  change [1; 1; 1; 1] with (repeat 1 (S 3)).
  rewrite (std_constant 0 1 3) by lia. simpl. f_equal. apply Rmult_0_r.
Qed.

Lemma shannon_aaaa : shannon_entropy [1; 1; 1; 1] 2 = Ok (Fin 0).
Proof.
  apply shannon_constant_value; try lra; [discriminate|].
  intros x y Hx Hy. simpl in Hx, Hy.
  repeat (destruct Hx as [<-|Hx]); try contradiction;
    repeat (destruct Hy as [<-|Hy]); try contradiction; reflexivity.
Qed.

Lemma approximate_aaaa :
  approximate_entropy [1; 1; 1; 1] 2
    (fl_mul (Fin (2 / 10)) (std 0 [1; 1; 1; 1])) = Ok NaN.
Proof.
  rewrite tolerance_aaaa.
  apply (approximate_entropy_nonpositive [1; 1; 1; 1] 2 0); simpl; lia || lra.
Qed.

Lemma sample_aaaa :
  sample_entropy [1; 1; 1; 1] 2
    (fl_mul (Fin (2 / 10)) (std 0 [1; 1; 1; 1])) = Ok PInf.
Proof.
  rewrite tolerance_aaaa.
  apply (sample_entropy_nonpositive [1; 1; 1; 1] 2 0); lia || lra.
Qed.

Lemma argsort_flat : argsort [1; 1; 1] = [0; 1; 2]%Z.
Proof.
  unfold argsort, sorted, enumerate.
  change (range (len [1; 1; 1])) with [0; 1; 2]%Z.
  cbn [combine fold_right insert_sorted snd fst].
  rewrite !Rleb_true by lra.
  cbn [combine fold_right insert_sorted snd fst].
  rewrite !Rleb_true by lra. reflexivity.
Qed.

Lemma permutation_aaaa : permutation_entropy [1; 1; 1; 1] 3 1 = Ok (Fin 0).
Proof.
  assert (Hs0 : slice_step [1; 1; 1; 1] 0 (0 + 1 * 3) 1 = Ok [1; 1; 1])
    by reflexivity.
  assert (Hs1 : slice_step [1; 1; 1; 1] 1 (1 + 1 * 3) 1 = Ok [1; 1; 1])
    by reflexivity.
  unfold permutation_entropy.
  change (range (len [1; 1; 1; 1] - 1 * (3 - 1))) with [0%Z; 1%Z].
  cbn [foldM]. rewrite Hs0, Hs1. cbn [bind]. rewrite argsort_flat.
  change (dict_get key_eqb [] [0; 1; 2]%Z) with (@None Z).
  cbv iota.
  change (dict_set key_eqb [] [0; 1; 2]%Z 1%Z) with [([0; 1; 2]%Z, 1%Z)].
  change (dict_get key_eqb [([0; 1; 2]%Z, 1%Z)] [0; 1; 2]%Z) with (Some 1%Z).
  cbv iota.
  change (dict_set key_eqb [([0; 1; 2]%Z, 1%Z)] [0; 1; 2]%Z (1 + 1)%Z)
    with [([0; 1; 2]%Z, 2%Z)].
  cbn [dict_values map snd fold_left Z.add Pos.add Pos.succ mapM bind].
  unfold math_log2.
  rewrite Rltb_true by lra. cbn [bind fl_mul fl_sum fold_left fl_add fl_neg].
  do 2 f_equal.
  replace (2 / 2) with 1 by field. rewrite ln_1. unfold Rdiv. ring.
Qed.

End ConstantText.

Module DefaultRun.

Import Order PyFacts WindowFacts Computation ConstantText.
Local Open Scope R_scope.

Lemma calculate_entropy_finite (x : list R) (enc : string)
    (a : AlgorithmType) (f : list R -> result npfloat) (v : npfloat) :
  _get_algorithm_function a = Some f -> f x = Ok v -> isfinite v = true ->
  _calculate_entropy x enc a
  = ([Compute enc a], Ok (mkEntropyResult enc (AlgorithmType_value a) v)).
Proof.
  intros Hf Hv Hfin. unfold _calculate_entropy. rewrite Hf. simpl.
  rewrite Hv. simpl. rewrite Hfin. reflexivity.
Qed.

Lemma calculate_entropy_not_finite (x : list R) (enc : string)
    (a : AlgorithmType) (f : list R -> result npfloat) (v : npfloat) :
  _get_algorithm_function a = Some f -> f x = Ok v -> isfinite v = false ->
  _calculate_entropy x enc a
  = ([Compute enc a], Raise (ValueError (not_finite_inner a))).
Proof.
  intros Hf Hv Hfin. unfold _calculate_entropy. rewrite Hf. simpl.
  rewrite Hv. simpl. rewrite Hfin. reflexivity.
Qed.

Lemma algorithms_loop_cons (x : list R) (e : EncodingModel)
    (a : AlgorithmType) (algs : list AlgorithmType)
    (results : list EntropyResult) :
  algorithms_loop x e (a :: algs) results
  = tbind (tbind (_calculate_entropy x (EncodingModel_value e) a)
                 (fun r => ret (results ++ [r])))
          (fun s' => algorithms_loop x e algs s').
Proof. reflexivity. Qed.

(** The loop over the algorithms on the encoding of ["aaaa"] stops at
    the first of Approximate and Sample. *)
Lemma algorithms_loop_aaaa (algs : list AlgorithmType) :
  Forall (fun a => In a validated) algs ->
  In APPROXIMATE algs \/ In SAMPLE algs ->
  forall results, exists tr a,
    (a = APPROXIMATE \/ a = SAMPLE)
    /\ algorithms_loop [1; 1; 1; 1] FREQUENCY algs results
       = (tr, Raise (ValueError (not_finite_inner a))).
Proof.
  induction 1 as [|a0 algs Ha0 Hall IH]; intros Hin results.
  - destruct Hin as [[]|[]].
  - rewrite algorithms_loop_cons.
    simpl in Ha0. destruct Ha0 as [<-|[<-|[<-|[<-|[]]]]].
    + (* Shannon goes through *)
      rewrite (calculate_entropy_finite _ _ SHANNON _ (Fin 0) eq_refl
                 shannon_aaaa eq_refl).
      assert (Hin' : In APPROXIMATE algs \/ In SAMPLE algs).
      { destruct Hin as [[E|Hin]|[E|Hin]]; try discriminate; auto. }
      cbn [tbind ret app].
      destruct (IH Hin' (results
                         ++ [mkEntropyResult (EncodingModel_value FREQUENCY)
                               (AlgorithmType_value SHANNON) (Fin 0)]))
        as [tr [a [Ha Hloop]]].
      rewrite Hloop. eexists. exists a. auto.
    + rewrite (calculate_entropy_not_finite _ _ APPROXIMATE _ NaN eq_refl
                 approximate_aaaa eq_refl).
      cbn [tbind]. eexists. exists APPROXIMATE. auto.
    + rewrite (calculate_entropy_not_finite _ _ SAMPLE _ PInf eq_refl
                 sample_aaaa eq_refl).
      cbn [tbind]. eexists. exists SAMPLE. auto.
    + rewrite (calculate_entropy_finite _ _ PERMUTATION _ (Fin 0) eq_refl
                 permutation_aaaa eq_refl).
      assert (Hin' : In APPROXIMATE algs \/ In SAMPLE algs).
      { destruct Hin as [[E|Hin]|[E|Hin]]; try discriminate; auto. }
      cbn [tbind ret app].
      destruct (IH Hin' (results
                         ++ [mkEntropyResult (EncodingModel_value FREQUENCY)
                               (AlgorithmType_value PERMUTATION) (Fin 0)]))
        as [tr [a [Ha Hloop]]].
      rewrite Hloop. eexists. exists a. auto.
Qed.

Lemma tbind_ret {A B} (a : A) (f : A -> traced B) : tbind (ret a) f = f a.
Proof. unfold tbind, ret. destruct (f a). reflexivity. Qed.

Lemma encoding_turn_aaaa (algs : list AlgorithmType) :
  Forall (fun a => In a validated) algs ->
  In APPROXIMATE algs \/ In SAMPLE algs ->
  exists tr a,
    (a = APPROXIMATE \/ a = SAMPLE)
    /\ encoding_turn [97; 97; 97; 97]%N algs [] FREQUENCY
       = (tr, Raise (ValueError (not_finite_message FREQUENCY a))).
Proof.
  intros Hall Hin.
  destruct (algorithms_loop_aaaa _ Hall Hin []) as [tr [a [Ha Hloop]]].
  exists (Encode FREQUENCY :: tr), a. split; [exact Ha|].
  pose proof encode_aaaa as Henc.
  change (text_of_string "aaaa") with [97; 97; 97; 97]%N in Henc.
  unfold encoding_turn, ttry, tbind, emit, lift. rewrite Henc.
  change (len [1%R; 1%R; 1%R; 1%R] =? 0)%Z with false. cbv iota.
  rewrite Hloop. unfold raise. cbn [app]. rewrite app_nil_r.
  destruct Ha as [-> | ->]; reflexivity.
Qed.

(** [get_stats] on ["aaaa"] with everything defaulted fails, whatever
    the order the set of algorithms iterates in. *)
Lemma get_stats_aaaa_fails (self : Order) (json_response : bool) :
  initialized self ->
  exists tr a,
    (a = APPROXIMATE \/ a = SAMPLE)
    /\ get_stats self (Str (text_of_string "aaaa")) None None json_response
       = (tr, Raise (ValueError (not_finite_message FREQUENCY a))).
Proof.
  intros Hinit.
  assert (Hall : Forall (fun a => In a validated) (_valid_algorithms self)).
  { apply Forall_forall. intros a Ha. exact (Permutation_in _ Hinit Ha). }
  assert (Hin : In APPROXIMATE (_valid_algorithms self)
                \/ In SAMPLE (_valid_algorithms self)).
  { left. apply (Permutation_in _ (Permutation_sym Hinit)). simpl. auto. }
  destruct (encoding_turn_aaaa _ Hall Hin) as [tr [a [Ha Hturn]]].
  exists tr, a. split; [exact Ha|].
  change (text_of_string "aaaa") with [97; 97; 97; 97]%N.
  unfold get_stats. rewrite !tbind_ret. cbn [tfoldM].
  unfold encoding_turn, algorithms_loop in Hturn. rewrite Hturn. reflexivity.
Qed.

(** The first of Approximate and Sample in a list of validated
    algorithms that holds one of them: what comes before it is Shannon
    or Permutation. *)
Lemma first_windowed_split (algs : list AlgorithmType) :
  Forall (fun a => In a validated) algs ->
  In APPROXIMATE algs \/ In SAMPLE algs ->
  exists pre a post,
    algs = pre ++ a :: post
    /\ (forall b, In b pre -> b = SHANNON \/ b = PERMUTATION)
    /\ (a = APPROXIMATE \/ a = SAMPLE).
Proof.
  induction 1 as [|a0 algs Ha0 Hall IH]; intros Hin.
  - destruct Hin as [[]|[]].
  - assert (Htail : a0 = SHANNON \/ a0 = PERMUTATION ->
                    In APPROXIMATE algs \/ In SAMPLE algs).
    { intros Hb. destruct Hin as [[E|Hin]|[E|Hin]]; auto;
        destruct Hb as [Hb|Hb]; rewrite Hb in E; discriminate E. }
    simpl in Ha0. destruct Ha0 as [<-|[<-|[<-|[<-|[]]]]].
    + destruct (IH (Htail (or_introl eq_refl)))
        as [pre [a [post [-> [Hpre Ha]]]]].
      exists (SHANNON :: pre), a, post. split; [reflexivity|].
      split; [|exact Ha]. intros b [<-|Hb]; auto.
    + exists [], APPROXIMATE, algs. split; [reflexivity|].
      split; [intros b []|auto].
    + exists [], SAMPLE, algs. split; [reflexivity|].
      split; [intros b []|auto].
    + destruct (IH (Htail (or_intror eq_refl)))
        as [pre [a [post [-> [Hpre Ha]]]]].
      exists (PERMUTATION :: pre), a, post. split; [reflexivity|].
      split; [|exact Ha]. intros b [<-|Hb]; auto.
Qed.

(** The loop over the algorithms on the encoding of ["aaaa"]: Shannon
    and Permutation go through, and the first of Approximate and Sample
    is where it stops. *)
Lemma algorithms_loop_aaaa_first (pre post : list AlgorithmType)
    (a : AlgorithmType) :
  (forall b, In b pre -> b = SHANNON \/ b = PERMUTATION) ->
  a = APPROXIMATE \/ a = SAMPLE ->
  forall results,
    algorithms_loop [1; 1; 1; 1] FREQUENCY (pre ++ a :: post) results
    = (map (Compute (EncodingModel_value FREQUENCY)) (pre ++ [a]),
       Raise (ValueError (not_finite_inner a))).
Proof.
  intros Hpre Ha. induction pre as [|b pre IH]; intros results.
  - cbn [app]. rewrite algorithms_loop_cons.
    destruct Ha as [-> | ->].
    + rewrite (calculate_entropy_not_finite _ _ APPROXIMATE _ NaN eq_refl
                 approximate_aaaa eq_refl).
      reflexivity.
    + rewrite (calculate_entropy_not_finite _ _ SAMPLE _ PInf eq_refl
                 sample_aaaa eq_refl).
      reflexivity.
  - cbn [app]. rewrite algorithms_loop_cons.
    assert (IH' := IH (fun b' Hb' => Hpre b' (or_intror Hb'))).
    destruct (Hpre b (or_introl eq_refl)) as [-> | ->].
    + rewrite (calculate_entropy_finite _ _ SHANNON _ (Fin 0) eq_refl
                 shannon_aaaa eq_refl).
      cbn [tbind ret app]. rewrite IH'. reflexivity.
    + rewrite (calculate_entropy_finite _ _ PERMUTATION _ (Fin 0) eq_refl
                 permutation_aaaa eq_refl).
      cbn [tbind ret app]. rewrite IH'. reflexivity.
Qed.

(** [get_stats] on ["aaaa"] with everything defaulted: the events it
    goes through and the error it raises, from the order the set of
    algorithms iterates in. *)
Lemma get_stats_aaaa_first (self : Order) (json_response : bool) :
  initialized self ->
  exists pre a post,
    _valid_algorithms self = pre ++ a :: post
    /\ (forall b, In b pre -> b = SHANNON \/ b = PERMUTATION)
    /\ (a = APPROXIMATE \/ a = SAMPLE)
    /\ get_stats self (Str (text_of_string "aaaa")) None None json_response
       = (Encode FREQUENCY
          :: map (Compute (EncodingModel_value FREQUENCY)) (pre ++ [a]),
          Raise (ValueError (not_finite_message FREQUENCY a))).
Proof.
  intros Hinit.
  assert (Hall : Forall (fun a => In a validated) (_valid_algorithms self)).
  { apply Forall_forall. intros a Ha. exact (Permutation_in _ Hinit Ha). }
  assert (Hin : In APPROXIMATE (_valid_algorithms self)
                \/ In SAMPLE (_valid_algorithms self)).
  { left. apply (Permutation_in _ (Permutation_sym Hinit)). simpl. auto. }
  destruct (first_windowed_split _ Hall Hin)
    as [pre [a [post [Hsplit [Hpre Ha]]]]].
  exists pre, a, post. repeat (split; [assumption|]).
  pose proof (algorithms_loop_aaaa_first pre post a Hpre Ha []) as Hloop.
  rewrite <- Hsplit in Hloop.
  assert (Hturn : encoding_turn [97; 97; 97; 97]%N (_valid_algorithms self)
                    [] FREQUENCY
                  = (Encode FREQUENCY
                     :: map (Compute (EncodingModel_value FREQUENCY))
                            (pre ++ [a]),
                     Raise (ValueError (not_finite_message FREQUENCY a)))).
  { pose proof encode_aaaa as Henc.
    change (text_of_string "aaaa") with [97; 97; 97; 97]%N in Henc.
    unfold encoding_turn, ttry, tbind, emit, lift. rewrite Henc.
    change (len [1%R; 1%R; 1%R; 1%R] =? 0)%Z with false. cbv iota.
    rewrite Hloop. unfold raise. cbn [app]. rewrite app_nil_r.
    destruct Ha as [-> | ->]; reflexivity. }
  change (text_of_string "aaaa") with [97; 97; 97; 97]%N.
  unfold get_stats. rewrite !tbind_ret. cbn [tfoldM].
  unfold encoding_turn, algorithms_loop in Hturn. rewrite Hturn. reflexivity.
Qed.

End DefaultRun.

(* ===================================================================== *)
(** * The orchestrator end to end *)
(* ===================================================================== *)

Module EndToEnd.

Import Order PyFacts WindowFacts Computation ConstantText DefaultRun.
Local Open Scope R_scope.

(** C1, as amended.  For the text ["aaaa"], [get_stats] with every
    parameter defaulted returns no result.  The Frequency encoding is
    the constant sequence 1, 1, 1, 1, whose Shannon and Permutation
    entropies are 0; its standard deviation, and so the tolerance, is
    0, which makes the Approximate entropy NaN and the Sample entropy
    infinite.  The call encodes the text, computes the algorithms in
    the order the set of algorithms iterates in, Shannon and
    Permutation going through, up to the first of Approximate and
    Sample in that order, and fails there with the error that names
    Frequency and that algorithm and says that the entropy is not
    finite. *)
Theorem get_stats_default_aaaa (self : Order) (json_response : bool) :
  initialized self ->
  ChaosEncoder.encode (text_of_string "aaaa") FREQUENCY = Ok [1; 1; 1; 1]
  /\ shannon_entropy [1; 1; 1; 1] 2 = Ok (Fin 0)
  /\ permutation_entropy [1; 1; 1; 1] 3 1 = Ok (Fin 0)
  /\ approximate_entropy [1; 1; 1; 1] 2
       (fl_mul (Fin (2 / 10)) (std 0 [1; 1; 1; 1])) = Ok NaN
  /\ sample_entropy [1; 1; 1; 1] 2
       (fl_mul (Fin (2 / 10)) (std 0 [1; 1; 1; 1])) = Ok PInf
  /\ exists pre a post,
       _valid_algorithms self = pre ++ a :: post
       /\ (forall b, In b pre -> b = SHANNON \/ b = PERMUTATION)
       /\ (a = APPROXIMATE \/ a = SAMPLE)
       /\ get_stats self (Str (text_of_string "aaaa")) None None
                    json_response
          = (Encode FREQUENCY
             :: map (Compute (EncodingModel_value FREQUENCY)) (pre ++ [a]),
             Raise (ValueError (not_finite_message FREQUENCY a))).
Proof.
  intros Hinit.
  split; [exact encode_aaaa|].
  split; [exact shannon_aaaa|].
  split; [exact permutation_aaaa|].
  split; [exact approximate_aaaa|].
  split; [exact sample_aaaa|].
  now apply get_stats_aaaa_first.
Qed.

Lemma get_stats_default_aaaa_witness :
  get_stats an_order (Str (text_of_string "aaaa")) None None false
  = ([Encode FREQUENCY; Compute "frequency" SHANNON;
      Compute "frequency" APPROXIMATE],
     Raise (ValueError (not_finite_message FREQUENCY APPROXIMATE))).
Proof.
  destruct (proj2 (proj2 (proj2 (proj2 (proj2
              (get_stats_default_aaaa an_order false
                 (Permutation_refl _)))))))
    as [pre [a [post [Hsplit [Hpre [Ha Hrun]]]]]].
  simpl in Hsplit.
  destruct pre as [|b [|b' pre]]; simpl in Hsplit; inversion Hsplit; subst.
  - destruct Ha as [Ha|Ha]; discriminate Ha.
  - exact Hrun.
  - destruct (Hpre APPROXIMATE (or_intror (or_introl eq_refl))) as [E|E];
      discriminate E.
Defined.

(** C1, as stated, fails: in no iteration order of the set of
    algorithms does the call return a response, let alone one of four
    finite results. *)
Lemma get_stats_aaaa_no_results :
  ~ (exists self resp,
       initialized self
       /\ snd (get_stats self (Str (text_of_string "aaaa")) None None false)
          = Ok resp
       /\ result_count resp = 4%nat
       /\ Forall (fun v => isfinite v = true) (entropies resp)).
Proof.
  intros [self [resp [Hinit [Hres _]]]].
  destruct (get_stats_aaaa_fails self false Hinit) as [tr [a [_ Hrun]]].
  rewrite Hrun in Hres. discriminate Hres.
Qed.

(** A run on the one-character text ["a"] with the Sample algorithm
    alone. *)
Lemma get_stats_single_sample :
  get_stats an_order (Str [97%N]) None (Some [SAMPLE]) false
  = ([Encode FREQUENCY; Compute "frequency" SAMPLE],
     Raise (ValueError (not_finite_message FREQUENCY SAMPLE))).
Proof. reflexivity. Qed.

Lemma get_stats_finite_witness :
  snd (get_stats an_order (Str [97%N]) None (Some [SAMPLE]) false)
  = Raise (ValueError (not_finite_message FREQUENCY SAMPLE)).
Proof.
  rewrite get_stats_single_sample.
  refine (proj2 (get_stats_finite an_order (Str [97%N]) None (Some [SAMPLE])
                   false _ _ get_stats_single_sample)
            [97%N] FREQUENCY SAMPLE _ [1 / 1] PInf eq_refl _ eq_refl
            eq_refl eq_refl eq_refl).
  simpl. auto.
Defined.

(** ** The tolerance the orchestrator supplies *)

Lemma std_two_apart (ddof : Z) :
  std ddof [97; 99]
  = np_sqrt (fl_div (Fin 2) (of_Z (Z.max (2 - ddof) 0))).
Proof.
  unfold std, mean, Rsum. cbn [map fold_left len length Z.of_nat
                               Pos.of_succ_nat Pos.succ].
  do 3 f_equal.
  replace (97 - (0 + 97 + 99) / 2) with (- (1)) by field.
  replace (99 - (0 + 97 + 99) / 2) with 1 by field.
  rewrite Rabs_Ropp, Rabs_R1. ring.
Qed.

(** C2 on the Ordinal encoding of ["ac"]: the orchestrator calls the
    Approximate and Sample algorithms with [m = 2] and with 0.2 times
    the standard deviation of divisor [N] of the encoded sequence,
    here 0.2, where 0.2 times the sample standard deviation (divisor
    [N - 1]) is [0.2 * sqrt 2]. *)
Theorem tolerance_uses_population_std :
  ChaosEncoder.encode [97; 99]%N ORDINAL = Ok [97; 99]
  /\ (exists f g,
        _get_algorithm_function APPROXIMATE = Some f
        /\ _get_algorithm_function SAMPLE = Some g
        /\ (forall x, f x = approximate_entropy x 2
                              (fl_mul (Fin (2 / 10)) (std 0 x)))
        /\ (forall x, g x = sample_entropy x 2
                              (fl_mul (Fin (2 / 10)) (std 0 x)))
        /\ f [97; 99] = approximate_entropy [97; 99] 2 (Fin (2 / 10))
        /\ g [97; 99] = sample_entropy [97; 99] 2 (Fin (2 / 10)))
  /\ fl_mul (Fin (2 / 10)) (std 0 [97; 99]) = Fin (2 / 10)
  /\ fl_mul (Fin (2 / 10)) (sample_std [97; 99]) = Fin (2 / 10 * sqrt 2)
  /\ 2 / 10 <> 2 / 10 * sqrt 2.
Proof.
  assert (Hpop : fl_mul (Fin (2 / 10)) (std 0 [97; 99]) = Fin (2 / 10)).
  { rewrite std_two_apart. change (Z.max (2 - 0) 0) with 2%Z.
    unfold of_Z, fl_div. rewrite Reqb_false by lra.
    unfold np_sqrt. rewrite Rleb_true by lra.
    replace (2 / 2) with 1 by field. rewrite sqrt_1. simpl. f_equal. ring. }
  split; [reflexivity|].
  split.
  { eexists. eexists. split; [reflexivity|]. split; [reflexivity|].
    split; [reflexivity|]. split; [reflexivity|].
    cbv beta. rewrite Hpop. split; reflexivity. }
  split; [exact Hpop|].
  split.
  - unfold sample_std. rewrite std_two_apart.
    change (Z.max (2 - 1) 0) with 1%Z.
    unfold of_Z, fl_div. rewrite Reqb_false by lra.
    unfold np_sqrt. rewrite Rleb_true by lra.
    replace (2 / 1) with 2 by field. reflexivity.
  - intros E.
    assert (Hs : sqrt 2 = 1) by lra.
    pose proof (sqrt_sqrt 2 ltac:(lra)) as Hsq. rewrite Hs in Hsq. lra.
Qed.

End EndToEnd.

(* ===================================================================== *)
(** * Further properties of the encoders *)
(* ===================================================================== *)

Module EncoderExtras.

Import Reference ChaosEncoder PyFacts BinaryFacts RankFacts OneHotFacts.

(** ** Ordinal *)

(** X1.  The Ordinal encoding keeps the length of the text, holds the
    code point of each character at its position, and is lossless: two
    texts with the same encoding are the same text. *)
Theorem ordinal_encode_lossless (t : text) :
  length (_ordinal_encode t) = length t
  /\ (forall i c, nth_error t i = Some c ->
        nth_error (_ordinal_encode t) i = Some (IZR (Z.of_N c)))
  /\ (forall t', encode t ORDINAL = encode t' ORDINAL -> t = t').
Proof.
  split; [apply length_map|]. split.
  - intros i c Hi. unfold _ordinal_encode. rewrite nth_error_map, Hi.
    reflexivity.
  - intros t' H. simpl in H. inversion H as [H']. clear H.
    revert t' H'. induction t as [|c t IH]; intros [|c' t'] H';
      try discriminate; [reflexivity|].
    simpl in H'. inversion H' as [[Hc Ht]].
    apply eq_IZR in Hc. unfold ord in Hc. apply N2Z.inj in Hc.
    subst c'. f_equal. now apply IH.
Qed.

(** ** Frequency *)

Lemma counter_value_set (d : dict char Z) (k c : char) (v : Z) :
  counter_value (dict_set N.eqb d k v) c
  = if N.eqb c k then v else counter_value d c.
Proof.
  unfold counter_value. rewrite dict_get_set.
  destruct (N.eqb c k); reflexivity.
Qed.

(** The loop of [_frequency_encode] adds the occurrences of each
    character to its counter. *)
Lemma count_loop_value (t : text) (c : char) :
  forall d : dict char Z,
    counter_value
      (fold_left (fun d c =>
                    dict_set N.eqb d c
                      (match dict_get N.eqb d c with
                       | Some n => n
                       | None => 0
                       end + 1)%Z) t d) c
    = (counter_value d c + Z.of_nat (char_count t c))%Z.
Proof.
  unfold char_count.
  induction t as [|x t IH]; intros d; simpl; [lia|].
  rewrite IH, counter_value_set. fold (counter_value d x).
  destruct (N.eq_dec x c) as [->|Hne].
  - rewrite N.eqb_refl. lia.
  - destruct (N.eqb_spec c x); [congruence|]. lia.
Qed.

Lemma count_loop_present (t : text) (c : char) :
  forall d : dict char Z,
    In c t \/ dict_get N.eqb d c <> None ->
    dict_get N.eqb
      (fold_left (fun d c =>
                    dict_set N.eqb d c
                      (match dict_get N.eqb d c with
                       | Some n => n
                       | None => 0
                       end + 1)%Z) t d) c <> None.
Proof.
  induction t as [|x t IH]; intros d H; simpl.
  - destruct H as [[]|H]; exact H.
  - apply IH. rewrite dict_get_set.
    destruct (N.eqb_spec c x) as [->|Hne]; [right; discriminate|].
    destruct H as [[E|H]|H]; [congruence|now left|now right].
Qed.

Lemma char_freq_getitem (t : text) (c : char) :
  In c t ->
  dict_getitem (count_chars t) c = Ok (Z.of_nat (char_count t c)).
Proof.
  intros Hc. unfold dict_getitem, count_chars.
  pose proof (count_loop_value t c []) as Hv.
  pose proof (count_loop_present t c [] (or_introl Hc)) as Hp.
  unfold counter_value in Hv at 1.
  destruct (dict_get N.eqb _ c) as [n|]; [|congruence].
  rewrite Hv. reflexivity.
Qed.

Lemma frequency_encode_map (t : text) :
  _frequency_encode t
  = Ok (map (fun c => (INR (char_count t c) / INR (length t))%R) t).
Proof.
  unfold _frequency_encode. apply mapM_ok_map.
  intros c Hc. rewrite (char_freq_getitem t c Hc). simpl.
  unfold len. now rewrite <- !INR_IZR_INZ.
Qed.

(** X2.  The Frequency encoding never raises (no character misses in
    the dictionary of counts), keeps the length of the text, and holds
    at each position the number of occurrences of that position's
    character divided by the length of the text: a number above 0 and
    at most 1. *)
Theorem frequency_encode_values (t : text) :
  exists out : list R,
    _frequency_encode t = Ok out
    /\ length out = length t
    /\ forall i c, nth_error t i = Some c ->
         nth_error out i
         = Some (INR (char_count t c) / INR (length t))%R
         /\ (0 < INR (char_count t c) / INR (length t) <= 1)%R.
Proof.
  eexists. split; [apply frequency_encode_map|].
  split; [apply length_map|].
  intros i c Hi. split; [rewrite nth_error_map, Hi; reflexivity|].
  assert (Hc : In c t) by (eapply nth_error_In; eassumption).
  assert (Hpos : (1 <= char_count t c)%nat).
  { unfold char_count. apply (count_occ_In N.eq_dec) in Hc. lia. }
  assert (Hle : (char_count t c <= length t)%nat)
    by apply count_occ_bound.
  assert (HL : (0 < INR (length t))%R) by (apply lt_0_INR; lia).
  assert (HC : (0 < INR (char_count t c))%R) by (apply lt_0_INR; lia).
  apply le_INR in Hle.
  split.
  - now apply Rdiv_lt_0_compat.
  - apply (Rmult_le_reg_r (INR (length t))); [assumption|].
    unfold Rdiv. rewrite Rmult_assoc, Rinv_l by lra. lra.
Qed.

End EncoderExtras.

Module BlockExtras.

Import Reference ChaosEncoder PyFacts BinaryFacts RankFacts OneHotFacts.

Lemma block_width_narrow (c : char) : (c < 256)%N -> block_width c = 8%nat.
Proof.
  intros Hc. unfold block_width, bit_length. apply Nat.max_l.
  destruct c as [|p]; [simpl; lia|]. simpl N.size_nat.
  destruct (le_lt_dec (Pos.size_nat p) 8) as [|Hgt]; [assumption|].
  pose proof (size_nat_low p 8%nat Hgt) as Hlow. simpl in Hlow. lia.
Qed.

Lemma block_width_min (c : char) : (8 <= block_width c)%nat.
Proof. unfold block_width. lia. Qed.

Lemma blocks_length (t : text) :
  length (flat_map (fun c => msb_bits (block_width c) c) t)
  = list_sum (map block_width t).
Proof.
  induction t as [|c t IH]; simpl; [reflexivity|].
  now rewrite length_app, msb_bits_length, IH.
Qed.

(** X3.  On every text the Binary encoding succeeds ([int] is only
    applied to binary digits); all its elements are 0 or 1; it holds
    one block per character, of eight elements or of the bit length of
    the code point when that is larger, so at least [8 * len(text)]
    elements, and exactly that many when every code point is below
    256. *)
Theorem binary_encode_text (t : text) :
  exists bits : list Z,
    _binary_encode t = Ok (map IZR bits)
    /\ Forall (fun v => v = 0 \/ v = 1)%R (map IZR bits)
    /\ length (map IZR bits) = list_sum (map block_width t)
    /\ (8 * length t <= length (map IZR bits))%nat
    /\ ((forall c, In c t -> (c < 256)%N) ->
        length (map IZR bits) = (8 * length t)%nat).
Proof.
  exists (flat_map (fun c => msb_bits (block_width c) c) t).
  split; [unfold _binary_encode; now rewrite binary_list_blocks|].
  split.
  { apply IZR_binary, Forall_forall. intros b Hb.
    apply in_flat_map in Hb. destruct Hb as [c [_ Hb]].
    pose proof (msb_bits_binary (block_width c) c) as Hall.
    rewrite Forall_forall in Hall. now apply Hall. }
  rewrite length_map, blocks_length.
  split; [reflexivity|]. split.
  - induction t as [|c t IH]; simpl; [lia|].
    pose proof (block_width_min c). lia.
  - intros Hnarrow. induction t as [|c t IH]; simpl; [reflexivity|].
    rewrite block_width_narrow by (apply Hnarrow; now left).
    rewrite IH by (intros d Hd; apply Hnarrow; now right). lia.
Qed.

Lemma bits_value_zeros (k : nat) (l : list Z) :
  bits_value (repeat 0%Z k ++ l) = bits_value l.
Proof.
  unfold bits_value. rewrite fold_left_app.
  replace (fold_left (fun acc b : Z => (2 * acc + b)%Z) (repeat 0%Z k) 0%Z)
    with 0%Z; [reflexivity|].
  induction k as [|k IH]; simpl; [reflexivity|exact IH].
Qed.

Lemma bits_value_byte (c : char) :
  (c < 256)%N -> bits_value (msb_bits 8 c) = Z.of_N c.
Proof.
  intros Hc. destruct c as [|p]; [reflexivity|].
  assert (Hs : (Pos.size_nat p <= 8)%nat).
  { destruct (le_lt_dec (Pos.size_nat p) 8) as [|Hgt]; [assumption|].
    pose proof (size_nat_low p 8%nat Hgt) as Hlow. simpl in Hlow. lia. }
  replace 8%nat with ((8 - Pos.size_nat p) + Pos.size_nat p)%nat by lia.
  rewrite msb_bits_pad by lia.
  rewrite bits_value_zeros. apply bits_value_min_width.
Qed.

Lemma decode_bytes_blocks (t : text) :
  (forall c, In c t -> (c < 256)%N) ->
  decode_bytes (flat_map (fun c => msb_bits 8 c) t) = map Z.of_N t.
Proof.
  intros Hnarrow. unfold decode_bytes.
  assert (Hlen : forall t', length (flat_map (fun c => msb_bits 8 c) t')
                            = (length t' * 8)%nat).
  { induction t' as [|c t' IH]; [reflexivity|]. cbn [flat_map length].
    rewrite length_app, msb_bits_length, IH. lia. }
  rewrite Hlen, Nat.div_mul by lia.
  induction t as [|c t IH]; [reflexivity|].
  cbn [flat_map length chunks map].
  rewrite firstn_app, msb_bits_length, Nat.sub_diag.
  rewrite firstn_all2 by (rewrite msb_bits_length; lia).
  simpl firstn. rewrite app_nil_r.
  rewrite skipn_app, msb_bits_length, Nat.sub_diag.
  rewrite skipn_all2 by (rewrite msb_bits_length; lia).
  simpl. rewrite bits_value_byte by (apply Hnarrow; now left).
  f_equal. apply IH. intros d Hd. apply Hnarrow. now right.
Qed.

(** X4.  On texts whose code points are all below 256 the Binary
    encoding can be read back: cutting it into groups of eight digits
    and taking the value of each group gives the code points of the
    text, so two such texts with the same encoding are equal.  Beyond
    256 this is lost: two different texts can have the same
    encoding. *)
Theorem binary_encode_round_trip :
  (forall t, (forall c, In c t -> (c < 256)%N) ->
     exists bits, binary_list t = Ok bits
                  /\ decode_bytes bits = map Z.of_N t)
  /\ (forall t t',
        (forall c, In c t -> (c < 256)%N) ->
        (forall c, In c t' -> (c < 256)%N) ->
        _binary_encode t = _binary_encode t' -> t = t')
  /\ (exists t t', t <> t' /\ _binary_encode t = _binary_encode t').
Proof.
  assert (Hflat : forall t, (forall c, In c t -> (c < 256)%N) ->
            flat_map (fun c => msb_bits (block_width c) c) t
            = flat_map (fun c => msb_bits 8 c) t).
  { intros t Hn. induction t as [|c t IH]; simpl; [reflexivity|].
    rewrite block_width_narrow by (apply Hn; now left).
    rewrite IH by (intros d Hd; apply Hn; now right). reflexivity. }
  split; [|split].
  - intros t Hn. eexists. split; [apply binary_list_blocks|].
    rewrite Hflat by assumption. now apply decode_bytes_blocks.
  - intros t t' Hn Hn' E. unfold _binary_encode in E.
    rewrite !binary_list_blocks in E. simpl in E. inversion E as [E'].
    assert (Hinj : forall l l' : list Z, map IZR l = map IZR l' -> l = l').
    { induction l as [|x l IH]; intros [|x' l'] H; try discriminate;
        [reflexivity|].
      simpl in H. inversion H as [[Hx Hl]]. apply eq_IZR in Hx.
      subst. f_equal. now apply IH. }
    apply Hinj in E'. rewrite !Hflat in E' by assumption.
    apply (f_equal decode_bytes) in E'.
    rewrite !decode_bytes_blocks in E' by assumption.
    clear - E'. revert t' E'.
    induction t as [|c t IH]; intros [|c' t'] E'; try discriminate;
      [reflexivity|].
    simpl in E'. inversion E' as [[Hc Ht]]. apply N2Z.inj in Hc.
    subst. f_equal. now apply IH.
  - exists [256; 768]%N, [513; 256]%N. split; [discriminate|].
    unfold _binary_encode. rewrite !binary_list_blocks. reflexivity.
Qed.

(** ** One-hot *)

Lemma rank_position (t : text) (c : char) :
  In c t -> nth_error (sorted N.leb (set_of t)) (rank t c) = Some c.
Proof.
  intros Hc. destruct (unique_chars_position t c Hc) as [i Hi].
  now rewrite (unique_chars_rank t i c Hi).
Qed.

Lemma one_hot_row_inj (k r1 r2 : nat) :
  (r1 < k)%nat -> one_hot_row k r1 = one_hot_row k r2 -> r1 = r2.
Proof.
  intros Hr E. apply (f_equal (fun l => nth r1 l 0%R)) in E.
  rewrite !one_hot_row_nth in E by assumption.
  rewrite Nat.eqb_refl in E.
  destruct (Nat.eqb_spec r1 r2); [assumption|]. exfalso. lra.
Qed.

(** X5.  The OneHot encoding tells the characters apart: the blocks of
    two positions of the text are equal exactly when the two positions
    hold the same character. *)
Theorem one_hot_encode_faithful (t : text) (i j : nat) (c d : char) :
  nth_error t i = Some c -> nth_error t j = Some d ->
  exists out : list R,
    _one_hot_encode t = Ok out
    /\ (block (distinct_count t) i out = block (distinct_count t) j out
        <-> c = d).
Proof.
  intros Hi Hj.
  set (k := distinct_count t).
  set (rows := map (fun c => one_hot_row k (rank t c)) t).
  assert (Hrows : Forall (fun r => length r = k) rows).
  { apply Forall_forall. intros r Hr. apply in_map_iff in Hr.
    destruct Hr as [x [<- _]]. apply one_hot_row_length. }
  assert (Hc : In c t) by (eapply nth_error_In; eassumption).
  assert (Hd : In d t) by (eapply nth_error_In; eassumption).
  assert (Hrank : (rank t c < k)%nat).
  { unfold k. rewrite <- unique_chars_length. apply nth_error_Some.
    rewrite (rank_position t c Hc). discriminate. }
  exists (concat rows). split; [apply one_hot_encode_rows|].
  assert (Hbi : block k i (concat rows) = one_hot_row k (rank t c)).
  { apply (Encodings.block_concat k rows Hrows).
    unfold rows. now rewrite nth_error_map, Hi. }
  assert (Hbj : block k j (concat rows) = one_hot_row k (rank t d)).
  { apply (Encodings.block_concat k rows Hrows).
    unfold rows. now rewrite nth_error_map, Hj. }
  rewrite Hbi, Hbj. split.
  - intros E. apply one_hot_row_inj in E; [|assumption].
    pose proof (rank_position t c Hc) as Pc.
    pose proof (rank_position t d Hd) as Pd.
    rewrite E in Pc. congruence.
  - intros ->. reflexivity.
Qed.

Lemma one_hot_encode_faithful_witness :
  exists out : list R,
    _one_hot_encode [98; 97; 98]%N = Ok out
    /\ (block (distinct_count [98; 97; 98]%N) 0 out
        = block (distinct_count [98; 97; 98]%N) 2 out
        <-> 98%N = 98%N).
Proof.
  apply (one_hot_encode_faithful [98; 97; 98]%N 0 2 98%N 98%N);
    reflexivity.
Defined.

End BlockExtras.

Module EncodeExtras.

Import Reference ChaosEncoder PyFacts BinaryFacts RankFacts OneHotFacts.

Lemma distinct_count_positive (t : text) :
  t <> [] -> (1 <= distinct_count t)%nat.
Proof.
  intros Ht. destruct t as [|c t]; [congruence|].
  unfold distinct_count.
  assert (Hin : In c (nodup N.eq_dec (c :: t))) by (apply nodup_In; now left).
  destruct (nodup N.eq_dec (c :: t)); [destruct Hin|simpl; lia].
Qed.

Lemma one_hot_encode_length (t : text) :
  exists out, _one_hot_encode t = Ok out
              /\ length out = (length t * distinct_count t)%nat.
Proof.
  eexists. split; [apply one_hot_encode_rows|].
  rewrite (Encodings.concat_rows_length (distinct_count t)).
  - now rewrite length_map.
  - apply Forall_forall. intros r Hr. apply in_map_iff in Hr.
    destruct Hr as [x [<- _]]. apply one_hot_row_length.
Qed.

Lemma encode_lengths (t : text) (model : EncodingModel) :
  exists out : list R,
    encode t model = Ok out
    /\ length out
       = match model with
         | ORDINAL | FREQUENCY => length t
         | ONE_HOT => (length t * distinct_count t)%nat
         | BINARY => list_sum (map block_width t)
         end
    /\ (out = [] <-> t = []).
Proof.
  assert (Hempty : forall (out : list R) (n : nat),
            length out = n -> (n = 0%nat <-> t = []) ->
            (out = [] <-> t = [])).
  { intros out n Hlen Hn. rewrite <- Hn, <- Hlen.
    destruct out; simpl; split; intros H; try reflexivity; discriminate. }
  assert (Hlen0 : length t = 0%nat <-> t = [])
    by (destruct t; simpl; split; intros H; try reflexivity; discriminate).
  destruct model; simpl encode.
  - exists (_ordinal_encode t).
    assert (Hl : length (_ordinal_encode t) = length t)
      by (unfold _ordinal_encode; now rewrite length_map).
    split; [reflexivity|]. split; [exact Hl|].
    exact (Hempty _ _ Hl Hlen0).
  - destruct (one_hot_encode_length t) as [out [Hout Hl]].
    exists out. split; [exact Hout|]. split; [exact Hl|].
    apply (Hempty _ _ Hl). split.
    + intros H. destruct t as [|c t]; [reflexivity|].
      pose proof (distinct_count_positive (c :: t)) as Hp.
      assert (c :: t <> []) by discriminate.
      specialize (Hp H0). simpl length in H. nia.
    + intros ->. reflexivity.
  - exists (map (fun c => INR (char_count t c) / INR (length t))%R t).
    assert (Hl : length (map (fun c => INR (char_count t c)
                                       / INR (length t))%R t) = length t)
      by now rewrite length_map.
    split; [apply EncoderExtras.frequency_encode_map|].
    split; [exact Hl|]. exact (Hempty _ _ Hl Hlen0).
  - exists (map IZR (flat_map (fun c => msb_bits (block_width c) c) t)).
    assert (Hl : length (map IZR (flat_map (fun c => msb_bits (block_width c) c) t))
                 = list_sum (map block_width t))
      by (rewrite length_map; apply BlockExtras.blocks_length).
    split; [unfold _binary_encode; now rewrite binary_list_blocks|].
    split; [exact Hl|]. apply (Hempty _ _ Hl). split.
    + intros H. destruct t as [|c t]; [reflexivity|].
      simpl in H. pose proof (BlockExtras.block_width_min c). lia.
    + intros ->. reflexivity.
Qed.


Lemma encode_nonempty (t : text) (model : EncodingModel) :
  t <> [] ->
  exists out, encode t model = Ok out /\ (len out =? 0)%Z = false.
Proof.
  intros Ht. destruct (encode_lengths t model) as [out [Hout [_ Hne]]].
  exists out. split; [exact Hout|].
  apply Z.eqb_neq. unfold len. destruct out; [tauto|simpl; lia].
Qed.

(** X6.  [encode] never raises, whatever the text and the model, and
    the length of what it returns is known from the text: one element
    per character for Ordinal and Frequency, the number of distinct
    characters per character for OneHot, the width of its block per
    character for Binary.  So the encoded sequence is empty exactly
    when the text is, and the orchestrator's failure [Encoding failed
    for model ...] cannot happen on a non-empty text. *)
Theorem encode_total (t : text) (model : EncodingModel) :
  exists out : list R,
    encode t model = Ok out
    /\ length out
       = match model with
         | ORDINAL | FREQUENCY => length t
         | ONE_HOT => (length t * distinct_count t)%nat
         | BINARY => list_sum (map block_width t)
         end
    /\ (out = [] <-> t = []).
Proof. exact (encode_lengths t model). Qed.

End EncodeExtras.

(* ===================================================================== *)
(** * Further properties of the entropy algorithms *)
(* ===================================================================== *)

Module EntropyFacts.

Import Reference PyFacts WindowFacts ApproximateEntropy ShannonEntropy.
Local Open Scope R_scope.

Lemma Rsum_cons (x : R) (l : list R) : Rsum (x :: l) = x + Rsum l.
Proof.
  unfold Rsum. simpl.
  assert (H : forall a b, fold_left Rplus l (a + b) = a + fold_left Rplus l b).
  { induction l as [|y l IH]; intros a b; simpl; [reflexivity|].
    rewrite <- IH. f_equal. lra. }
  rewrite <- H. f_equal. lra.
Qed.

Lemma Rsum_nil : Rsum [] = 0.
Proof. reflexivity. Qed.

Lemma Rsum_le {A} (f g : A -> R) (l : list A) :
  (forall x, In x l -> f x <= g x) ->
  Rsum (map f l) <= Rsum (map g l).
Proof.
  induction l as [|x l IH]; intros H; simpl map.
  - rewrite Rsum_nil. lra.
  - rewrite !Rsum_cons.
    assert (f x <= g x) by (apply H; now left).
    assert (Rsum (map f l) <= Rsum (map g l))
      by (apply IH; intros y Hy; apply H; now right).
    lra.
Qed.

Lemma Rsum_scal {A} (f : A -> R) (a : R) (l : list A) :
  Rsum (map (fun x => f x * a) l) = Rsum (map f l) * a.
Proof.
  induction l as [|x l IH]; simpl map.
  - rewrite Rsum_nil. lra.
  - rewrite !Rsum_cons, IH. lra.
Qed.

Lemma Rsum_const {A} (a : R) (l : list A) :
  Rsum (map (fun _ => a) l) = INR (length l) * a.
Proof.
  induction l as [|x l IH]; simpl map.
  - rewrite Rsum_nil. simpl. lra.
  - rewrite Rsum_cons, IH. simpl length. rewrite S_INR. lra.
Qed.

Lemma Rsum_minus {A} (f g : A -> R) (l : list A) :
  Rsum (map (fun x => f x - g x) l) = Rsum (map f l) - Rsum (map g l).
Proof.
  induction l as [|x l IH]; simpl map.
  - rewrite !Rsum_nil. lra.
  - rewrite !Rsum_cons, IH. lra.
Qed.

Lemma ln_tangent (x : R) : 0 < x -> ln x <= x - 1.
Proof.
  intros Hx. destruct (Rle_dec (ln x) (x - 1)) as [|Hn]; [assumption|].
  exfalso. apply Rnot_le_lt in Hn. apply exp_increasing in Hn.
  rewrite exp_ln in Hn by assumption.
  pose proof (exp_ineq1_le (x - 1)). lra.
Qed.

Lemma ln_nonpositive (p : R) : 0 < p <= 1 -> ln p <= 0.
Proof. intros [H0 H1]. pose proof (ln_tangent p H0). lra. Qed.

(** The entropy of a distribution lies between zero and the logarithm
    of the number of its outcomes. *)
Lemma entropy_bounds (ps : list R) :
  (forall p, In p ps -> 0 < p <= 1) -> Rsum ps = 1 ->
  0 <= - Rsum (map (fun p => p * ln p) ps) <= ln (INR (length ps)).
Proof.
  intros Hp Hsum. split.
  - assert (H : Rsum (map (fun p => p * ln p) ps)
                <= Rsum (map (fun _ => 0) ps)).
    { apply Rsum_le. intros p Hin. pose proof (Hp p Hin).
      pose proof (ln_nonpositive p H). nra. }
    rewrite Rsum_const in H. lra.
  - destruct ps as [|p0 ps']; [rewrite Rsum_nil in Hsum; lra|].
    set (ps := p0 :: ps') in *.
    set (k := INR (length ps)).
    assert (Hk : 0 < k) by (unfold k; apply lt_0_INR; simpl; lia).
    assert (H : Rsum (map (fun p => - (p * ln p) - p * ln k) ps)
                <= Rsum (map (fun p => / k - p) ps)).
    { apply Rsum_le. intros p Hin. destruct (Hp p Hin) as [Hp0 Hp1].
      assert (Hkp : 0 < / (k * p))
        by (apply Rinv_0_lt_compat; nra).
      pose proof (ln_tangent (/ (k * p)) Hkp) as Ht.
      rewrite ln_Rinv in Ht by nra. rewrite ln_mult in Ht by assumption.
      assert (E : p * (/ (k * p) - 1) = / k - p) by (field; lra).
      rewrite <- E. nra. }
    rewrite (Rsum_minus (fun p => - (p * ln p)) (fun p => p * ln k)) in H.
    rewrite (Rsum_scal (fun p => p) (ln k)) in H.
    rewrite (Rsum_minus (fun _ => / k) (fun p => p)) in H.
    rewrite map_id, Hsum, Rsum_const in H. fold k in H.
    assert (E : Rsum (map (fun p => - (p * ln p)) ps)
                = - Rsum (map (fun p => p * ln p) ps)).
    { clear. induction ps as [|x l IH]; simpl map.
      - rewrite !Rsum_nil. lra.
      - rewrite !Rsum_cons, IH. lra. }
    rewrite E in H.
    assert (k * / k = 1) by (field; lra). lra.
Qed.

Lemma Zsum_left_right (l : list Z) (a : Z) :
  fold_left Z.add l a = (a + fold_right Z.add 0%Z l)%Z.
Proof.
  revert a. induction l as [|x l IH]; intros a; simpl; [lia|].
  rewrite IH. lia.
Qed.

(** The probabilities of positive counts. *)
Lemma probabilities_of_counts (cs : list Z) (T : Z) :
  (forall c, In c cs -> (1 <= c)%Z) ->
  fold_right Z.add 0%Z cs = T -> cs <> [] ->
  (forall p, In p (map (fun c => IZR c / IZR T) cs) -> 0 < p <= 1)
  /\ Rsum (map (fun c => IZR c / IZR T) cs) = 1.
Proof.
  intros Hc HT Hne.
  assert (Hle : forall c, In c cs -> (c <= T)%Z).
  { rewrite <- HT. clear HT Hne. induction cs as [|x l IH]; intros c [].
    - subst. simpl.
      assert (0 <= fold_right Z.add 0 l)%Z.
      { clear IH. induction l as [|y l IH]; simpl; [lia|].
        assert (1 <= y)%Z by (apply Hc; right; now left).
        assert (0 <= fold_right Z.add 0 l)%Z
          by (apply IH; intros z Hz; apply Hc; simpl in *; tauto).
        lia. }
      lia.
    - simpl. assert (1 <= x)%Z by (apply Hc; now left).
      assert (c <= fold_right Z.add 0 l)%Z
        by (apply IH; [intros z Hz; apply Hc; now right|assumption]).
      lia. }
  assert (HTpos : (1 <= T)%Z).
  { destruct cs as [|c cs]; [congruence|].
    assert (1 <= c)%Z by (apply Hc; now left).
    assert (c <= T)%Z by (apply Hle; now left). lia. }
  assert (HTr : 0 < IZR T) by (apply IZR_lt; lia).
  split.
  - intros p Hin. apply in_map_iff in Hin. destruct Hin as [c [<- Hin]].
    assert (1 <= IZR c) by (apply IZR_le, Hc, Hin).
    assert (IZR c <= IZR T) by (apply IZR_le, Hle, Hin).
    split.
    + apply Rdiv_lt_0_compat; lra.
    + apply (Rmult_le_reg_r (IZR T)); [assumption|].
      unfold Rdiv. rewrite Rmult_assoc, Rinv_l by lra. lra.
  - unfold Rdiv. rewrite (Rsum_scal IZR (/ IZR T)).
    assert (E : Rsum (map IZR cs) = IZR (fold_right Z.add 0%Z cs)).
    { clear. induction cs as [|x l IH]; simpl map.
      - reflexivity.
      - rewrite Rsum_cons, IH. simpl. now rewrite plus_IZR. }
    rewrite E, HT. field. lra.
Qed.

(** The sum [-sum(p * log2(p) for p in probabilities)] of
    [shannon_entropy] and [permutation_entropy]. *)
Lemma log2_terms (ps : list R) :
  (forall p, In p ps -> 0 < p <= 1) ->
  mapM (fun p => l <- math_log2 (Fin p) ;; Ok (fl_mul (Fin p) l)) ps
  = Ok (map Fin (map (fun p => p * ln p / ln 2) ps)).
Proof.
  induction ps as [|p ps IH]; intros Hp; [reflexivity|].
  assert (Hhead : math_log2 (Fin p) = Ok (Fin (ln p / ln 2))).
  { unfold math_log2. rewrite Rltb_true by (apply Hp; now left).
    reflexivity. }
  cbn [mapM map]. rewrite Hhead. cbn [bind].
  rewrite IH by (intros q Hq; apply Hp; now right).
  cbn [fl_mul]. do 3 f_equal. unfold Rdiv. ring.
Qed.

Lemma ln_base_positive (base : R) : 1 < base -> 0 < ln base.
Proof. intros H. rewrite <- ln_1. apply ln_increasing; lra. Qed.

Lemma entropy_of_bounds (base : R) (ps : list R) :
  1 < base ->
  (forall p, In p ps -> 0 < p <= 1) -> Rsum ps = 1 ->
  0 <= entropy_of base ps <= ln (INR (length ps)) / ln base.
Proof.
  intros Hb Hp Hsum. pose proof (ln_base_positive base Hb) as Hl.
  pose proof (entropy_bounds ps Hp Hsum) as [H0 H1].
  unfold entropy_of.
  assert (E : Rsum (map (fun p => p * ln p / ln base) ps)
              = Rsum (map (fun p => p * ln p) ps) * / ln base)
    by (apply (Rsum_scal (fun p => p * ln p) (/ ln base))).
  rewrite E.
  assert (Hi : 0 < / ln base) by now apply Rinv_0_lt_compat.
  split.
  - nra.
  - unfold Rdiv. nra.
Qed.

Lemma entropy_of_nil (base : R) : entropy_of base [] = 0.
Proof. unfold entropy_of. simpl map. rewrite Rsum_nil. lra. Qed.

End EntropyFacts.

Module ShannonExtras.

Import Reference PyFacts WindowFacts ApproximateEntropy ShannonEntropy
       EntropyFacts.
Local Open Scope R_scope.

Lemma np_unique_positive (data : list R) (c : Z) :
  In c (map snd (np_unique data)) -> (1 <= c)%Z.
Proof.
  intros Hin. apply in_map_iff in Hin. destruct Hin as [[v c'] [Hc Hin]].
  simpl in Hc. subst c'.
  rewrite (np_unique_counts data v c Hin).
  assert (Hv : In v data).
  { apply np_unique_keys. apply in_map_iff. exists (v, c). auto. }
  apply (count_occ_In Req_dec_T) in Hv. unfold occurrences. lia.
Qed.

Lemma np_unique_frequencies (data : list R) :
  map (fun c => IZR c / IZR (len data)) (map snd (np_unique data))
  = map (frequency data) (map fst (np_unique data)).
Proof.
  rewrite !map_map. apply map_ext_in. intros [v c] Hin. simpl.
  rewrite (np_unique_counts data v c Hin). unfold frequency, len.
  now rewrite <- !INR_IZR_INZ.
Qed.

Lemma np_unique_distinct (data : list R) :
  Permutation (map fst (np_unique data)) (nodup Req_dec_T data).
Proof.
  apply NoDup_Permutation.
  - pose proof (np_unique_sorted data) as Hs.
    induction Hs as [|a l Hs IH Ha]; constructor; [|assumption].
    intros Hin. rewrite Forall_forall in Ha. specialize (Ha a Hin). lra.
  - apply NoDup_nodup.
  - intros x. rewrite np_unique_keys. symmetry. apply nodup_In.
Qed.

Lemma np_unique_probabilities (data : list R) :
  data <> [] ->
  (forall p, In p (map (frequency data) (map fst (np_unique data))) ->
             0 < p <= 1)
  /\ Rsum (map (frequency data) (map fst (np_unique data))) = 1.
Proof.
  intros Hne. rewrite <- np_unique_frequencies.
  apply probabilities_of_counts.
  - apply np_unique_positive.
  - apply np_unique_total.
  - intros E. apply map_eq_nil in E.
    destruct data as [|x data]; [congruence|].
    assert (Hin : In x (map fst (np_unique (x :: data))))
      by (apply np_unique_keys; now left).
    rewrite E in Hin. destruct Hin.
Qed.

(** The value of [shannon_entropy] on any data, for a base above 1. *)
Lemma shannon_entropy_value (data : list R) (base : R) :
  1 < base ->
  shannon_entropy data base
  = Ok (Fin (entropy_of base
               (map (frequency data) (map fst (np_unique data))))).
Proof.
  intros Hb. unfold shannon_entropy. cbv zeta.
  rewrite np_unique_frequencies.
  set (ps := map (frequency data) (map fst (np_unique data))).
  assert (Hp : forall p, In p ps -> 0 < p <= 1).
  { destruct data as [|x data]; [intros p []|].
    apply np_unique_probabilities. discriminate. }
  destruct (Reqb base 2) eqn:Eb.
  - assert (base = 2)
      by (unfold Reqb in Eb; destruct (Req_dec_T base 2);
          [assumption|discriminate]).
    subst base.
    rewrite (log2_terms ps Hp). cbn [bind].
    rewrite fl_sum_finite. reflexivity.
  - rewrite (map_ext_in _ (fun p => Fin (p * ln p / ln base))).
    + rewrite <- (map_map (fun p => p * ln p / ln base) Fin).
      rewrite fl_sum_finite. reflexivity.
    + intros p Hin. unfold np_log.
      rewrite (Rltb_true 0 p) by (apply Hp; assumption).
      rewrite (Rltb_true 0 base) by lra.
      cbn [fl_mul fl_div].
      rewrite Reqb_false by
        (pose proof (ln_base_positive base Hb); lra).
      reflexivity.
Qed.

(** X7.  For a base above 1 (the default 2 among them)
    [shannon_entropy] never raises and returns a finite number on every
    sequence: the entropy of the relative frequencies of its distinct
    values, taken in increasing order.  It is at least 0 and, on a
    non-empty sequence, at most the logarithm in that base of the number
    of distinct values. *)
Theorem shannon_entropy_bounds (data : list R) (base : R) :
  1 < base ->
  exists vs : list R,
    StronglySorted Rlt vs
    /\ Permutation vs (nodup Req_dec_T data)
    /\ shannon_entropy data base
       = Ok (Fin (entropy_of base (map (frequency data) vs)))
    /\ 0 <= entropy_of base (map (frequency data) vs)
    /\ (data <> [] ->
        entropy_of base (map (frequency data) vs)
        <= ln (INR (distinct_values data)) / ln base).
Proof.
  intros Hb. exists (map fst (np_unique data)).
  split; [apply np_unique_sorted|].
  split; [apply np_unique_distinct|].
  split; [now apply shannon_entropy_value|].
  destruct data as [|x data].
  - split; [|congruence]. simpl map. rewrite entropy_of_nil. lra.
  - set (d := x :: data).
    assert (Hne : d <> []) by discriminate.
    destruct (np_unique_probabilities d Hne) as [Hp Hsum].
    pose proof (entropy_of_bounds base _ Hb Hp Hsum) as [H0 H1].
    split; [exact H0|]. intros _.
    rewrite !length_map, np_unique_length in H1. exact H1.
Qed.

Lemma shannon_entropy_bounds_witness :
  exists vs : list R,
    StronglySorted Rlt vs
    /\ Permutation vs (nodup Req_dec_T [3; 1; 3])
    /\ shannon_entropy [3; 1; 3] 2
       = Ok (Fin (entropy_of 2 (map (frequency [3; 1; 3]) vs)))
    /\ 0 <= entropy_of 2 (map (frequency [3; 1; 3]) vs)
    /\ ([3; 1; 3] <> [] ->
        entropy_of 2 (map (frequency [3; 1; 3]) vs)
        <= ln (INR (distinct_values [3; 1; 3])) / ln 2).
Proof. apply (shannon_entropy_bounds [3; 1; 3] 2). lra. Defined.

Lemma sorted_unique (l l' : list R) :
  StronglySorted Rlt l -> StronglySorted Rlt l' ->
  (forall x, In x l <-> In x l') -> l = l'.
Proof.
  intros Hs. revert l'.
  induction Hs as [|a l Hs IH Ha]; intros l' Hs' Hin.
  - destruct l' as [|a' l']; [reflexivity|].
    exfalso. apply (proj2 (Hin a')). now left.
  - destruct Hs' as [|a' l' Hs' Ha'].
    + exfalso. apply (proj1 (Hin a)). now left.
    + rewrite Forall_forall in Ha, Ha'.
      assert (Haa : a = a').
      { destruct (proj1 (Hin a) (or_introl eq_refl)) as [E|H1];
          [now symmetry|].
        destruct (proj2 (Hin a') (or_introl eq_refl)) as [E|H2];
          [assumption|].
        specialize (Ha _ H2). specialize (Ha' _ H1). lra. }
      subst a'. f_equal. apply IH; [assumption|].
      intros x. split; intros Hx.
      * destruct (proj1 (Hin x) (or_intror Hx)) as [E|H1]; [|assumption].
        specialize (Ha _ Hx). lra.
      * destruct (proj2 (Hin x) (or_intror Hx)) as [E|H1]; [|assumption].
        specialize (Ha' _ Hx). lra.
Qed.

Lemma np_unique_table (data : list R) :
  np_unique data
  = map (fun v => (v, Z.of_nat (occurrences data v)))
        (map fst (np_unique data)).
Proof.
  rewrite map_map. rewrite <- (map_id (np_unique data)) at 1.
  apply map_ext_in. intros [v c] Hin. simpl.
  now rewrite (np_unique_counts data v c Hin).
Qed.

Lemma np_unique_permutation (data data' : list R) :
  Permutation data data' -> np_unique data = np_unique data'.
Proof.
  intros Hperm.
  assert (Hkeys : map fst (np_unique data) = map fst (np_unique data')).
  { apply sorted_unique; try apply np_unique_sorted.
    intros x. rewrite !np_unique_keys. split; intros Hx.
    - eapply Permutation_in; eassumption.
    - eapply Permutation_in; [apply Permutation_sym|]; eassumption. }
  rewrite (np_unique_table data), (np_unique_table data'), Hkeys.
  apply map_ext. intros v. do 2 f_equal. unfold occurrences.
  now apply Permutation_count_occ.
Qed.

(** X8.  [shannon_entropy] does not depend on the order of the
    sequence: on two arrangements of the same values it returns the
    same result, whatever the base. *)
Theorem shannon_entropy_permutation (data data' : list R) (base : R) :
  Permutation data data' ->
  shannon_entropy data base = shannon_entropy data' base.
Proof.
  intros Hperm. unfold shannon_entropy.
  rewrite (np_unique_permutation data data' Hperm).
  unfold len. now rewrite (Permutation_length Hperm).
Qed.

Lemma shannon_entropy_permutation_witness :
  shannon_entropy [1; 2; 1] 3 = shannon_entropy [2; 1; 1] 3.
Proof.
  apply (shannon_entropy_permutation [1; 2; 1] [2; 1; 1] 3).
  apply perm_swap.
Defined.

End ShannonExtras.

Module WindowExtras.

Import Reference PyFacts WindowFacts SampleFacts ApproximateEntropy
       ConstantText EntropyFacts.
Local Open Scope R_scope.

(** ** [approximate_entropy] where it has no value *)

Lemma phi_negative_dimension (ts : list R) (r : npfloat) (m_val : Z) :
  (len ts + 1 < m_val)%Z ->
  _phi ts r m_val
  = Raise (ValueError "negative dimensions are not allowed").
Proof.
  intros H. unfold _phi, zeros.
  destruct (Z.ltb_spec (len ts - m_val + 1) 0) as [_|Hge]; [reflexivity|lia].
Qed.

Lemma phi_ext_no_window (ts : list R) (r : R) (k : nat) :
  window_count (length ts) k = 0%nat -> phi_ext ts r k = NaN.
Proof.
  intros H. unfold phi_ext. rewrite H. simpl.
  rewrite Reqb_true by reflexivity. reflexivity.
Qed.

Lemma approximate_entropy_too_short (ts : list R) (k : nat) (r : R) :
  (1 <= k)%nat -> (length ts < k)%nat ->
  approximate_entropy ts (Z.of_nat k) (Fin r)
  = Raise (ValueError "negative dimensions are not allowed").
Proof.
  intros Hk Hlt. unfold approximate_entropy.
  destruct (Nat.eq_dec (length ts + 1) k) as [E|Hne].
  - rewrite phi_value by lia. cbn [bind].
    rewrite phi_negative_dimension by (unfold len; lia). reflexivity.
  - rewrite phi_negative_dimension by (unfold len; lia). reflexivity.
Qed.

Lemma approximate_entropy_one_window (ts : list R) (k : nat) (r : R) :
  (1 <= k)%nat -> length ts = k ->
  approximate_entropy ts (Z.of_nat k) (Fin r) = Ok NaN.
Proof.
  intros Hk Hlen. unfold approximate_entropy.
  rewrite phi_value by lia. cbn [bind].
  replace (Z.of_nat k + 1)%Z with (Z.of_nat (S k)) by lia.
  rewrite phi_value by lia. cbn [bind].
  rewrite (phi_ext_no_window ts r (S k)) by (unfold window_count; lia).
  unfold fl_sub. cbn [fl_neg]. destruct (phi_ext ts r k); reflexivity.
Qed.

Lemma approximate_entropy_no_tolerance (ts : list R) (k : nat) (r : R) :
  (1 <= k)%nat -> (k <= length ts)%nat -> r <= 0 ->
  approximate_entropy ts (Z.of_nat k) (Fin r) = Ok NaN.
Proof.
  intros Hk HN Hr.
  destruct (Nat.eq_dec (length ts) k) as [E|Hne];
    [now apply approximate_entropy_one_window|].
  unfold approximate_entropy.
  rewrite phi_value by lia. cbn [bind].
  replace (Z.of_nat k + 1)%Z with (Z.of_nat (S k)) by lia.
  rewrite phi_value by lia. cbn [bind].
  rewrite !phi_ext_nonpositive by (try assumption; unfold window_count; lia).
  reflexivity.
Qed.

(** X9.  Where [approximate_entropy] has no value, for a window length
    [m >= 1]: on a sequence shorter than [m] it raises the [ValueError]
    of [np.zeros] on a negative dimension; on a sequence of exactly [m]
    elements it returns [nan] (there is no window of length [m + 1]);
    and with a tolerance [r <= 0] it returns [nan] on every longer
    sequence as well. *)
Theorem approximate_entropy_undefined (ts : list R) (k : nat) (r : R) :
  (1 <= k)%nat ->
  ((length ts < k)%nat ->
     approximate_entropy ts (Z.of_nat k) (Fin r)
     = Raise (ValueError "negative dimensions are not allowed"))
  /\ (length ts = k ->
        approximate_entropy ts (Z.of_nat k) (Fin r) = Ok NaN)
  /\ ((k <= length ts)%nat -> r <= 0 ->
        approximate_entropy ts (Z.of_nat k) (Fin r) = Ok NaN).
Proof.
  intros Hk. split; [|split].
  - now apply approximate_entropy_too_short.
  - now apply approximate_entropy_one_window.
  - now apply approximate_entropy_no_tolerance.
Qed.

Lemma approximate_entropy_undefined_witness :
  approximate_entropy [5] 2 (Fin 1)
  = Raise (ValueError "negative dimensions are not allowed")
  /\ approximate_entropy [5; 7] 2 (Fin 1) = Ok NaN
  /\ approximate_entropy [5; 7; 6] 2 (Fin 0) = Ok NaN.
Proof.
  split; [|split].
  - apply (proj1 (approximate_entropy_undefined [5] 2 1 (le_S 1 1 (le_n 1)))).
    simpl. lia.
  - apply (proj1 (proj2 (approximate_entropy_undefined [5; 7] 2 1
                           (le_S 1 1 (le_n 1))))).
    reflexivity.
  - apply (proj2 (proj2 (approximate_entropy_undefined [5; 7; 6] 2 0
                           (le_S 1 1 (le_n 1))))).
    + simpl. lia.
    + lra.
Defined.

(** ** [sample_entropy] is never negative *)

Lemma chebyshev_prefix (k : nat) :
  forall a b : list R,
    chebyshev (firstn k a) (firstn k b)
    <= chebyshev (firstn (S k) a) (firstn (S k) b).
Proof.
  induction k as [|k IH]; intros a b.
  - simpl firstn at 1 2. unfold chebyshev at 1. simpl.
    apply chebyshev_nonneg.
  - destruct a as [|x a]; [unfold chebyshev; simpl; lra|].
    destruct b as [|y b]; [unfold chebyshev; simpl; lra|].
    specialize (IH a b).
    change (firstn (S (S k)) (x :: a)) with (x :: firstn (S k) a).
    change (firstn (S (S k)) (y :: b)) with (y :: firstn (S k) b).
    change (firstn (S k) (x :: a)) with (x :: firstn k a).
    change (firstn (S k) (y :: b)) with (y :: firstn k b).
    unfold chebyshev in *. cbn [combine map fold_right fst snd].
    apply Rmax_case_strong; intros H.
    + apply Rmax_l.
    + apply Rle_trans with (1 := IH). apply Rmax_r.
Qed.

Lemma chebyshev_window_longer (ts : list R) (k i j : nat) :
  chebyshev (window ts k i) (window ts k j)
  <= chebyshev (window ts (S k) i) (window ts (S k) j).
Proof. unfold window. apply chebyshev_prefix. Qed.

Lemma filter_count_le {A} (P Q : A -> bool) (l : list A) :
  (forall x, In x l -> P x = true -> Q x = true) ->
  (length (filter P l) <= length (filter Q l))%nat.
Proof.
  induction l as [|x l IH]; intros H; simpl; [lia|].
  assert (IHl : (length (filter P l) <= length (filter Q l))%nat)
    by (apply IH; intros y Hy; apply H; now right).
  destruct (P x) eqn:EP.
  - rewrite (H x (or_introl eq_refl) EP). simpl. lia.
  - destruct (Q x); simpl; lia.
Qed.

Lemma filter_prefix_le (P Q : nat -> bool) (n n' : nat) :
  (n' <= n)%nat ->
  (forall j, (j < n')%nat -> P j = true -> Q j = true) ->
  (length (filter P (seq 0 n')) <= length (filter Q (seq 0 n)))%nat.
Proof.
  intros Hn H. replace n with (n' + (n - n'))%nat by lia.
  rewrite seq_app, filter_app, length_app.
  assert ((length (filter P (seq 0 n')) <= length (filter Q (seq 0 n')))%nat).
  { apply filter_count_le. intros j Hj. apply in_seq in Hj.
    apply H. lia. }
  lia.
Qed.

Lemma list_sum_prefix_le (f g : nat -> nat) (n n' : nat) :
  (n' <= n)%nat ->
  (forall i, (i < n')%nat -> (f i <= g i)%nat) ->
  (list_sum (map f (seq 0 n')) <= list_sum (map g (seq 0 n)))%nat.
Proof.
  intros Hn H. replace n with (n' + (n - n'))%nat by lia.
  rewrite seq_app, map_app, list_sum_app.
  assert ((list_sum (map f (seq 0 n')) <= list_sum (map g (seq 0 n')))%nat).
  { assert (Hin : forall i, In i (seq 0 n') -> (f i <= g i)%nat)
      by (intros i Hi; apply in_seq in Hi; apply H; lia).
    clear H. induction (seq 0 n') as [|x l IH]; simpl; [lia|].
    assert (f x <= g x)%nat by (apply Hin; now left).
    assert (list_sum (map f l) <= list_sum (map g l))%nat
      by (apply IH; intros i Hi; apply Hin; now right).
    lia. }
  lia.
Qed.

(** Every pair of windows of length [m + 1] the second loop counts is
    a pair of windows of length [m] the first loop counts. *)
Lemma A_count_le_B_count (ts : list R) (k : nat) (r : R) :
  (A_count ts k r <= B_count ts k r)%nat.
Proof.
  unfold A_count, B_count. rewrite !pair_count_sum.
  apply list_sum_prefix_le; [lia|]. intros i _.
  apply filter_prefix_le; [unfold window_count; lia|].
  intros j _ Hj. apply andb_true_iff in Hj. destruct Hj as [Hij Hd].
  apply andb_true_iff. split; [assumption|].
  apply Rltb_true. unfold Rltb in Hd.
  destruct (Rlt_dec (chebyshev (window ts (S k) i) (window ts (S k) j)) r)
    as [Hlt|]; [|discriminate].
  pose proof (chebyshev_window_longer ts k i j). lra.
Qed.

Lemma A_count_short (ts : list R) (k : nat) (r : R) :
  (length ts <= k + 1)%nat -> A_count ts k r = 0%nat.
Proof.
  intros H. unfold A_count, pair_count.
  replace (length ts - S k)%nat with 0%nat by lia. reflexivity.
Qed.

Lemma sample_entropy_sign (ts : list R) (k : nat) (r : R) :
  (1 <= k)%nat ->
  exists v : npfloat,
    sample_entropy ts (Z.of_nat k) (Fin r) = Ok v
    /\ nonnegative v
    /\ (v = PInf <-> A_count ts k r = 0%nat).
Proof.
  intros Hk. rewrite sample_entropy_value by assumption.
  pose proof (A_count_le_B_count ts k r) as Hle.
  destruct (A_count ts k r) as [|a] eqn:EA.
  - exists PInf. rewrite andb_false_r. repeat split; auto.
  - destruct (B_count ts k r) as [|b] eqn:EB; [lia|].
    eexists. split; [reflexivity|]. cbn [Nat.ltb Nat.leb andb nonnegative].
    split.
    + assert (0 < INR (S a)) by (apply lt_0_INR; lia).
      assert (INR (S a) <= INR (S b)) by (apply le_INR; lia).
      assert (Hq : 0 < INR (S a) / INR (S b) <= 1).
      { split.
        - apply Rdiv_lt_0_compat; lra.
        - apply (Rmult_le_reg_r (INR (S b))); [lra|].
          unfold Rdiv. rewrite Rmult_assoc, Rinv_l by lra. lra. }
      pose proof (ln_nonpositive _ Hq). lra.
    + split; intros H; discriminate.
Qed.

(** X10.  For a window length [m >= 1] and any tolerance,
    [sample_entropy] never raises and never returns a negative number
    or [nan]: every pair the count [A] holds is a pair of the count
    [B], so the result is [-ln(A/B) >= 0], or positive infinity, which
    it is exactly when [A = 0]. *)
Theorem sample_entropy_nonnegative (ts : list R) (k : nat) (r : R) :
  (1 <= k)%nat ->
  (A_count ts k r <= B_count ts k r)%nat
  /\ exists v : npfloat,
       sample_entropy ts (Z.of_nat k) (Fin r) = Ok v
       /\ nonnegative v
       /\ (v = PInf <-> A_count ts k r = 0%nat).
Proof.
  intros Hk. split; [apply A_count_le_B_count|].
  now apply sample_entropy_sign.
Qed.

Lemma sample_entropy_nonnegative_witness :
  le (A_count [0; 0; 0; 0] 2 (5 / 10)) (B_count [0; 0; 0; 0] 2 (5 / 10))
  /\ exists v : npfloat,
       sample_entropy [0; 0; 0; 0] 2 (Fin (5 / 10)) = Ok v
       /\ nonnegative v
       /\ (v = PInf <-> A_count [0; 0; 0; 0] 2 (5 / 10) = 0%nat).
Proof.
  apply (sample_entropy_nonnegative [0; 0; 0; 0] 2 (5 / 10)). lia.
Defined.

Lemma sample_entropy_infinite_cases (ts : list R) (k : nat) (r : R) :
  (1 <= k)%nat -> (length ts <= k + 1)%nat \/ r <= 0 ->
  sample_entropy ts (Z.of_nat k) (Fin r) = Ok PInf.
Proof.
  intros Hk [Hshort|Hr].
  - rewrite sample_entropy_value by assumption.
    rewrite A_count_short by assumption. now rewrite andb_false_r.
  - now apply sample_entropy_nonpositive.
Qed.

(** X11.  [sample_entropy] returns positive infinity, for a window
    length [m >= 1], on every sequence of at most [m + 1] elements
    (the second loop has no turn) and under every tolerance [r <= 0]
    (no distance is below it). *)
Theorem sample_entropy_infinite (ts : list R) (k : nat) (r : R) :
  (1 <= k)%nat -> (length ts <= k + 1)%nat \/ r <= 0 ->
  sample_entropy ts (Z.of_nat k) (Fin r) = Ok PInf.
Proof. exact (sample_entropy_infinite_cases ts k r). Qed.

Lemma sample_entropy_infinite_witness :
  sample_entropy [1; 2; 3] 2 (Fin 10) = Ok PInf.
Proof.
  apply (sample_entropy_infinite [1; 2; 3] 2 10); [lia|].
  left. simpl. lia.
Defined.

End WindowExtras.

Module PermutationExtras.

Import Reference PyFacts WindowFacts ApproximateEntropy EntropyFacts.
Local Open Scope R_scope.

Section Counters.
Context {K : Type} (eqb : K -> K -> bool).

Lemma dict_set_total (d : dict K Z) (k : K) (v : Z) :
  fold_right Z.add 0%Z (dict_values (dict_set eqb d k v))
  = match dict_get eqb d k with
    | Some c => (fold_right Z.add 0%Z (dict_values d) - c + v)%Z
    | None => (fold_right Z.add 0%Z (dict_values d) + v)%Z
    end.
Proof.
  unfold dict_values.
  induction d as [|[k' v'] d IH]; simpl; [lia|].
  destruct (eqb k k'); simpl; [lia|].
  rewrite IH. destruct (dict_get eqb d k); lia.
Qed.

Lemma dict_set_values (d : dict K Z) (k : K) (v x : Z) :
  In x (dict_values (dict_set eqb d k v)) ->
  x = v \/ In x (dict_values d).
Proof.
  unfold dict_values.
  induction d as [|[k' v'] d IH]; simpl; [intuition|].
  destruct (eqb k k'); simpl; intros [H|H]; auto.
  destruct (IH H); auto.
Qed.

Lemma dict_set_length (d : dict K Z) (k : K) (v : Z) :
  (length (dict_set eqb d k v) <= S (length d))%nat.
Proof.
  induction d as [|[k' v'] d IH]; simpl; [lia|].
  destruct (eqb k k'); simpl; lia.
Qed.

Lemma dict_get_value (d : dict K Z) (k : K) (c : Z) :
  dict_get eqb d k = Some c -> In c (dict_values d).
Proof.
  unfold dict_values.
  induction d as [|[k' v'] d IH]; simpl; [discriminate|].
  destruct (eqb k k'); intros H.
  - inversion H. now left.
  - right. now apply IH.
Qed.
End Counters.

Lemma slice_step_ok (ts : list R) (lo hi step : Z) :
  step <> 0%Z -> exists pattern, slice_step ts lo hi step = Ok pattern.
Proof.
  intros H. unfold slice_step.
  destruct (Z.eqb_spec step 0); [contradiction|]. eexists. reflexivity.
Qed.

(** The loop of [permutation_entropy]: every turn adds one to one
    counter, a new one or not. *)
Lemma permutation_counts_loop (ts : list R) (order delay : Z) :
  delay <> 0%Z ->
  forall (l : list Z) (counts : dict (list Z) Z),
    (forall c, In c (dict_values counts) -> (1 <= c)%Z) ->
    exists counts' : dict (list Z) Z,
      foldM (fun counts i =>
               pattern <- slice_step ts i (i + delay * order) delay ;;
               match dict_get key_eqb counts (argsort pattern) with
               | Some c =>
                   Ok (dict_set key_eqb counts (argsort pattern) (c + 1)%Z)
               | None => Ok (dict_set key_eqb counts (argsort pattern) 1%Z)
               end) l counts
      = Ok counts'
      /\ (forall c, In c (dict_values counts') -> (1 <= c)%Z)
      /\ fold_right Z.add 0%Z (dict_values counts')
         = (fold_right Z.add 0%Z (dict_values counts)
            + Z.of_nat (length l))%Z
      /\ (length counts' <= length counts + length l)%nat.
Proof.
  intros Hd. induction l as [|i l IH]; intros counts Hpos.
  - exists counts. simpl. repeat split; auto; lia.
  - destruct (slice_step_ok ts i (i + delay * order) delay Hd)
      as [pattern Hp].
    cbn [foldM]. rewrite Hp. cbn [bind].
    set (key := argsort pattern).
    destruct (dict_get key_eqb counts key) as [c|] eqn:Eget.
    + assert (Hc : (1 <= c)%Z)
        by (apply Hpos; eapply dict_get_value; eassumption).
      destruct (IH (dict_set key_eqb counts key (c + 1)%Z))
        as [counts' [Hrun [Hpos' [Hsum Hlen]]]].
      { intros x Hx. apply dict_set_values in Hx.
        destruct Hx as [->|Hx]; [lia|now apply Hpos]. }
      exists counts'. split; [exact Hrun|]. split; [exact Hpos'|].
      rewrite Hsum, dict_set_total, Eget.
      pose proof (dict_set_length key_eqb counts key (c + 1)%Z).
      simpl length. split; lia.
    + destruct (IH (dict_set key_eqb counts key 1%Z))
        as [counts' [Hrun [Hpos' [Hsum Hlen]]]].
      { intros x Hx. apply dict_set_values in Hx.
        destruct Hx as [->|Hx]; [lia|now apply Hpos]. }
      exists counts'. split; [exact Hrun|]. split; [exact Hpos'|].
      rewrite Hsum, dict_set_total, Eget.
      pose proof (dict_set_length key_eqb counts key 1%Z).
      simpl length. split; lia.
Qed.

Lemma ln_monotone (x y : R) : 0 < x -> x <= y -> ln x <= ln y.
Proof.
  intros Hx [Hlt| ->]; [|lra]. left. now apply ln_increasing.
Qed.

Lemma permutation_entropy_range (ts : list R) (order delay : Z) :
  delay <> 0%Z ->
  exists h : R,
    permutation_entropy ts order delay = Ok (Fin h)
    /\ 0 <= h
    /\ (permutation_windows ts order delay = 0%nat -> h = 0)
    /\ ((1 <= permutation_windows ts order delay)%nat ->
        h <= ln (INR (permutation_windows ts order delay)) / ln 2).
Proof.
  intros Hd. unfold permutation_entropy. cbv zeta.
  destruct (permutation_counts_loop ts order delay Hd
              (range (len ts - delay * (order - 1))) [])
    as [counts [Hrun [Hpos [Hsum Hlen]]]]; [intros c []|].
  rewrite Hrun. cbn [bind].
  rewrite Zsum_left_right, Z.add_0_l.
  assert (HW : length (range (len ts - delay * (order - 1)))
               = permutation_windows ts order delay)
    by (unfold range, permutation_windows;
        now rewrite length_map, length_seq).
  rewrite HW in Hsum, Hlen. simpl in Hsum, Hlen.
  set (W := permutation_windows ts order delay) in *.
  set (T := fold_right Z.add 0%Z (dict_values counts)) in *.
  destruct (dict_values counts) as [|c0 cs] eqn:Evals.
  - exists (- 0). cbn [map mapM bind]. split; [reflexivity|].
    split; [lra|]. split; [intros _; lra|].
    intros HW1. unfold T in Hsum. simpl in Hsum. lia.
  - assert (Hne : c0 :: cs <> []) by discriminate.
    destruct (probabilities_of_counts (c0 :: cs) T Hpos eq_refl Hne)
      as [Hp Hone].
    set (ps := map (fun count => IZR count / IZR T) (c0 :: cs)) in *.
    rewrite (log2_terms ps Hp). cbn [bind].
    rewrite fl_sum_finite. cbn [fl_neg].
    exists (entropy_of 2 ps). split; [reflexivity|].
    assert (H2 : 1 < 2) by lra.
    destruct (entropy_of_bounds 2 ps H2 Hp Hone) as [H0 H1].
    split; [exact H0|].
    assert (HlenW : (1 <= length ps <= W)%nat).
    { unfold ps. rewrite length_map.
      assert (length (c0 :: cs) = length counts)
        by (rewrite <- Evals; unfold dict_values; apply length_map).
      simpl in *. lia. }
    split; [intros HW0; lia|]. intros _.
    apply Rle_trans with (1 := H1).
    pose proof (ln_base_positive 2 H2) as Hl2.
    apply Rmult_le_compat_r; [left; now apply Rinv_0_lt_compat|].
    apply ln_monotone; [apply lt_0_INR; lia|apply le_INR; lia].
Qed.

Lemma permutation_entropy_zero_delay (ts : list R) (order : Z) :
  ts <> [] ->
  permutation_entropy ts order 0
  = Raise (ValueError "slice step cannot be zero").
Proof.
  intros Hne. unfold permutation_entropy. cbv zeta.
  assert (Hr : exists l, range (len ts - 0 * (order - 1)) = 0%Z :: l).
  { unfold range, len. destruct ts as [|x ts]; [congruence|].
    replace (Z.to_nat (Z.of_nat (length (x :: ts)) - 0 * (order - 1)))
      with (S (length ts)) by (simpl length; lia).
    eexists. reflexivity. }
  destruct Hr as [l ->]. reflexivity.
Qed.

(** X12.  [permutation_entropy] with a delay other than zero never
    raises and returns a finite number, at least 0 and at most the
    base-2 logarithm of the number of windows it reads; it is 0 when
    the sequence is too short for a single window.  With a delay of
    zero it raises, on a non-empty sequence, the [ValueError] of the
    slice. *)
Theorem permutation_entropy_bounds (ts : list R) (order delay : Z) :
  (delay <> 0%Z ->
   exists h : R,
     permutation_entropy ts order delay = Ok (Fin h)
     /\ 0 <= h
     /\ (permutation_windows ts order delay = 0%nat -> h = 0)
     /\ ((1 <= permutation_windows ts order delay)%nat ->
         h <= ln (INR (permutation_windows ts order delay)) / ln 2))
  /\ (delay = 0%Z -> ts <> [] ->
      permutation_entropy ts order delay
      = Raise (ValueError "slice step cannot be zero")).
Proof.
  split.
  - apply permutation_entropy_range.
  - intros -> Hne. now apply permutation_entropy_zero_delay.
Qed.

Lemma permutation_entropy_bounds_witness :
  (exists h : R,
     permutation_entropy [4; 7; 9; 10; 6] 3 1 = Ok (Fin h)
     /\ 0 <= h
     /\ (permutation_windows [4; 7; 9; 10; 6] 3 1 = 0%nat -> h = 0)
     /\ (le 1 (permutation_windows [4; 7; 9; 10; 6] 3 1) ->
         h <= ln (INR (permutation_windows [4; 7; 9; 10; 6] 3 1)) / ln 2))
  /\ permutation_entropy [4; 7] 3 0
     = Raise (ValueError "slice step cannot be zero").
Proof.
  split.
  - apply (proj1 (permutation_entropy_bounds [4; 7; 9; 10; 6] 3 1)).
    discriminate.
  - apply (proj2 (permutation_entropy_bounds [4; 7] 3 0));
      [reflexivity|discriminate].
Defined.

End PermutationExtras.

Module MultiscaleExtras.

Import Reference PyFacts WindowFacts SampleFacts ApproximateEntropy
       EntropyFacts WindowExtras.
Local Open Scope R_scope.

(** A loop that fills an array, one index per turn. *)
Lemma fill_loop {A} (body : list A -> Z -> result (list A))
    (val : nat -> A) (d : A) (arg : nat -> Z) (bound : nat) :
  (forall res i, (i < bound)%nat ->
                 body res (arg i) = setitem res (Z.of_nat i) (val i)) ->
  forall (n : nat) (filled : list A),
    (length filled + n <= bound)%nat ->
    foldM body (map arg (seq (length filled) n)) (filled ++ repeat d n)
    = Ok (filled ++ map val (seq (length filled) n)).
Proof.
  intros Hbody. induction n as [|n IH]; intros filled Hb.
  - reflexivity.
  - cbn [seq map repeat].
    rewrite (foldM_cons _ _ _ _ (filled ++ val (length filled) :: repeat d n)).
    + replace (filled ++ val (length filled) :: repeat d n)
        with ((filled ++ [val (length filled)]) ++ repeat d n)
        by (rewrite <- app_assoc; reflexivity).
      replace (S (length filled))
        with (length (filled ++ [val (length filled)]))
        by (rewrite length_app; simpl; lia).
      rewrite IH by (rewrite length_app; simpl; lia).
      rewrite <- app_assoc. reflexivity.
    + rewrite Hbody by lia. apply setitem_nat, set_nth_middle.
Qed.

Lemma quot_of_nat (n s : nat) :
  Z.quot (Z.of_nat n) (Z.of_nat s) = Z.of_nat (n / s).
Proof.
  destruct s as [|s]; [simpl; now rewrite Z.quot_0_r_ext|].
  rewrite Z.quot_div_nonneg by lia. now rewrite Nat2Z.inj_div.
Qed.

Lemma coarse_grain_value (ts : list R) (s : nat) :
  (1 <= s)%nat -> _coarse_grain ts (Z.of_nat s) = Ok (coarse ts s).
Proof.
  intros Hs. unfold _coarse_grain. cbv zeta.
  destruct (Z.eqb_spec (Z.of_nat s) 0) as [|_]; [lia|].
  unfold len at 1 2. rewrite quot_of_nat.
  unfold zeros. destruct (Z.ltb_spec (Z.of_nat (length ts / s)) 0); [lia|].
  cbn [bind]. rewrite Nat2Z.id, range_of_nat.
  pose proof (fill_loop
                (fun res i =>
                   setitem res i
                     (mean (slice ts (i * Z.of_nat s)
                                  ((i + 1) * Z.of_nat s))))
                (block_mean ts s) 0 Z.of_nat (length ts / s)) as Hloop.
  specialize (Hloop ltac:(
    intros res i Hi; cbv beta; f_equal; unfold block_mean; f_equal;
    replace (Z.of_nat i * Z.of_nat s)%Z with (Z.of_nat (i * s)) by lia;
    replace ((Z.of_nat i + 1) * Z.of_nat s)%Z
      with (Z.of_nat (i * s) + Z.of_nat s)%Z by lia;
    apply slice_window;
    pose proof (Nat.Div0.mul_div_le (length ts) s); nia)).
  specialize (Hloop (length ts / s)%nat [] ltac:(simpl; lia)).
  exact Hloop.
Qed.

Lemma window_single (ts : list R) (i : nat) (x : R) :
  nth_error ts i = Some x -> window ts 1 i = [x].
Proof.
  unfold window. revert i. induction ts as [|y ts IH]; intros i H.
  - destruct i; discriminate.
  - destruct i as [|i]; simpl in H |- *.
    + now inversion H.
    + now apply IH.
Qed.

Lemma mean_single (x : R) : mean [x] = x.
Proof. unfold mean, Rsum, len. simpl. field. Qed.

Lemma coarse_identity (ts : list R) : coarse ts 1 = ts.
Proof.
  unfold coarse. rewrite Nat.div_1_r.
  assert (H : forall pre,
             map (block_mean (pre ++ ts) 1) (seq (length pre) (length ts))
             = ts).
  { induction ts as [|x ts IH]; intros pre; [reflexivity|].
    cbn [length seq map]. f_equal.
    - unfold block_mean. rewrite Nat.mul_1_r.
      rewrite (window_single _ _ x) by apply nth_error_middle.
      apply mean_single.
    - replace (pre ++ x :: ts) with ((pre ++ [x]) ++ ts)
        by (rewrite <- app_assoc; reflexivity).
      replace (S (length pre)) with (length (pre ++ [x]))
        by (rewrite length_app; simpl; lia).
      apply IH. }
  exact (H []).
Qed.

Lemma coarse_length (ts : list R) (s : nat) :
  length (coarse ts s) = (length ts / s)%nat.
Proof. unfold coarse. now rewrite length_map, length_seq. Qed.

Lemma coarse_grain_negative (ts : list R) (scale : Z) :
  (scale < 0)%Z -> (- scale <= len ts)%Z ->
  _coarse_grain ts scale
  = Raise (ValueError "negative dimensions are not allowed").
Proof.
  intros Hneg Hle. unfold _coarse_grain. cbv zeta.
  destruct (Z.eqb_spec scale 0) as [|_]; [lia|].
  unfold zeros.
  assert (Hq : (Z.quot (len ts) scale < 0)%Z).
  { replace scale with (- (- scale))%Z by lia.
    rewrite Z.quot_opp_r by lia.
    assert (1 <= Z.quot (len ts) (- scale))%Z; [|lia].
    rewrite Z.quot_div_nonneg by (unfold len in *; lia).
    apply Z.div_le_lower_bound; lia. }
  destruct (Z.ltb_spec (Z.quot (len ts) scale) 0); [reflexivity|lia].
Qed.

(** X13.  [_coarse_grain] at a scale [s >= 1] returns the averages of
    the [N // s] consecutive whole blocks of [s] samples (what is left
    over at the end is dropped), so at scale 1 it returns the sequence
    itself; at scale 0 it raises [ZeroDivisionError]; at a negative
    scale no larger in size than the sequence is long it raises the
    [ValueError] of [np.zeros]. *)
Theorem coarse_grain_blocks (ts : list R) :
  (forall s : nat, (1 <= s)%nat ->
     _coarse_grain ts (Z.of_nat s) = Ok (coarse ts s)
     /\ length (coarse ts s) = (length ts / s)%nat)
  /\ _coarse_grain ts 1 = Ok ts
  /\ _coarse_grain ts 0 = Raise (ZeroDivisionError "division by zero")
  /\ (forall scale : Z, (scale < 0)%Z -> (- scale <= len ts)%Z ->
        _coarse_grain ts scale
        = Raise (ValueError "negative dimensions are not allowed")).
Proof.
  split; [|split; [|split]].
  - intros s Hs. split; [now apply coarse_grain_value|apply coarse_length].
  - change 1%Z with (Z.of_nat 1). rewrite coarse_grain_value by lia.
    now rewrite coarse_identity.
  - reflexivity.
  - apply coarse_grain_negative.
Qed.

(** ** [multiscale_entropy] *)

Lemma Rsum_nonneg (l : list R) :
  (forall x, In x l -> 0 <= x) -> 0 <= Rsum l.
Proof.
  induction l as [|x l IH]; intros H.
  - rewrite Rsum_nil. lra.
  - rewrite Rsum_cons.
    assert (0 <= x) by (apply H; now left).
    assert (0 <= Rsum l) by (apply IH; intros y Hy; apply H; now right).
    lra.
Qed.

Lemma std_sample (ts : list R) :
  (2 <= length ts)%nat -> std 1 ts = Fin (sample_deviation ts).
Proof.
  intros Hlen. unfold std, sample_deviation.
  destruct ts as [|x0 ts0]; [simpl in Hlen; lia|].
  cbv iota zeta. set (ts := x0 :: ts0) in *.
  rewrite (map_ext (fun v => Rabs (v - mean ts) * Rabs (v - mean ts))
                   (fun v => (v - mean ts) * (v - mean ts))).
  2:{ intros v. rewrite <- Rabs_mult. apply Rabs_pos_eq.
      apply (Rle_0_sqr (v - mean ts)). }
  set (S2 := Rsum (map (fun v => (v - mean ts) * (v - mean ts)) ts)).
  assert (HS : 0 <= S2).
  { apply Rsum_nonneg. intros y Hy. apply in_map_iff in Hy.
    destruct Hy as [v [<- _]]. apply (Rle_0_sqr (v - mean ts)). }
  assert (Hd : Z.max (len ts - 1) 0 = Z.of_nat (length ts - 1))
    by (unfold len; lia).
  rewrite Hd, of_Z_nat.
  assert (Hpos : 0 < INR (length ts - 1)) by (apply lt_0_INR; lia).
  cbn [fl_div]. rewrite Reqb_false by lra. cbn [np_sqrt].
  rewrite Rleb_true; [reflexivity|].
  apply Rmult_le_pos; [assumption|]. left. now apply Rinv_0_lt_compat.
Qed.

Lemma multiscale_entropy_value (ts : list R) (n k : nat) (r : R) :
  (1 <= k)%nat -> (2 <= length ts)%nat ->
  multiscale_entropy ts (Z.of_nat n) (Z.of_nat k) (Fin r)
  = Ok (map (fun i => sampen (coarse ts (S i)) k (r * sample_deviation ts))
            (seq 0 n)).
Proof.
  intros Hk Hlen. unfold multiscale_entropy. cbv zeta.
  rewrite std_sample by assumption. cbn [fl_mul].
  destruct (Z.ltb_spec (Z.of_nat n) 0) as [|_]; [lia|].
  cbn [bind]. rewrite Nat2Z.id, range_of_nat, map_map.
  pose proof (fill_loop
                (fun mse scale =>
                   coarse_grained <- _coarse_grain ts scale ;;
                   v <- sample_entropy coarse_grained (Z.of_nat k)
                          (Fin (r * sample_deviation ts)) ;;
                   setitem mse (scale - 1)%Z v)
                (fun i => sampen (coarse ts (S i)) k
                                 (r * sample_deviation ts))
                (Fin 0) (fun i => (Z.of_nat i + 1)%Z) n) as Hloop.
  specialize (Hloop ltac:(
    intros res i Hi; cbv beta;
    replace (Z.of_nat i + 1)%Z with (Z.of_nat (S i)) by lia;
    rewrite coarse_grain_value by lia; cbn [bind];
    rewrite sample_entropy_value by assumption; cbn [bind];
    replace (Z.of_nat (S i) - 1)%Z with (Z.of_nat i) by lia;
    reflexivity)).
  specialize (Hloop n [] ltac:(simpl; lia)).
  exact Hloop.
Qed.

Lemma sampen_short (ts : list R) (k : nat) (r : R) :
  (length ts <= k + 1)%nat -> sampen ts k r = PInf.
Proof.
  intros H. unfold sampen. rewrite A_count_short by assumption.
  now rewrite andb_false_r.
Qed.

(** X14.  [multiscale_entropy] on a sequence of at least two elements,
    for a window length [m >= 1] and a number [n >= 0] of scales, never
    raises and returns [n] values: the one of scale [s] is the sample
    entropy of the sequence coarse-grained at that scale, under the
    tolerance [r] times the sample standard deviation (divisor [N - 1])
    of the whole sequence.  Every scale that leaves at most [m + 1]
    blocks gives positive infinity.  A negative number of scales raises
    the [ValueError] of [np.zeros]. *)
Theorem multiscale_entropy_scales (ts : list R) (n k : nat) (r : R) :
  (1 <= k)%nat -> (2 <= length ts)%nat ->
  exists mse : list npfloat,
    multiscale_entropy ts (Z.of_nat n) (Z.of_nat k) (Fin r) = Ok mse
    /\ length mse = n
    /\ (forall i, (i < n)%nat ->
          nth_error mse i
          = Some (sampen (coarse ts (S i)) k (r * sample_deviation ts))
          /\ sample_entropy (coarse ts (S i)) (Z.of_nat k)
                            (Fin (r * sample_deviation ts))
             = Ok (sampen (coarse ts (S i)) k (r * sample_deviation ts))
          /\ ((length ts / S i <= k + 1)%nat ->
              nth_error mse i = Some PInf))
    /\ (forall scale_range : Z, (scale_range < 0)%Z ->
          multiscale_entropy ts scale_range (Z.of_nat k) (Fin r)
          = Raise (ValueError "negative dimensions are not allowed")).
Proof.
  intros Hk Hlen. eexists.
  split; [now apply multiscale_entropy_value|].
  split; [now rewrite length_map, length_seq|].
  split.
  - intros i Hi.
    assert (Hnth : nth_error
                     (map (fun i => sampen (coarse ts (S i)) k
                                           (r * sample_deviation ts))
                          (seq 0 n)) i
                   = Some (sampen (coarse ts (S i)) k
                                  (r * sample_deviation ts))).
    { rewrite nth_error_map.
      rewrite (nth_error_nth' _ 0%nat) by (rewrite length_seq; lia).
      rewrite seq_nth by lia. reflexivity. }
    split; [exact Hnth|]. split.
    + now apply sample_entropy_value.
    + intros Hshort. rewrite Hnth. f_equal. apply sampen_short.
      now rewrite coarse_length.
  - intros scale_range Hneg. unfold multiscale_entropy. cbv zeta.
    destruct (Z.ltb_spec scale_range 0) as [_|]; [reflexivity|lia].
Qed.

Lemma multiscale_entropy_scales_witness :
  exists mse : list npfloat,
    multiscale_entropy [1; 2; 4; 3; 5; 7] 2 2 (Fin (2 / 10)) = Ok mse
    /\ length mse = 2%nat.
Proof.
  destruct (multiscale_entropy_scales [1; 2; 4; 3; 5; 7] 2 2 (2 / 10))
    as [mse [Hrun [Hlen _]]]; [lia|simpl; lia|].
  exists mse. split; [exact Hrun|exact Hlen].
Defined.

End MultiscaleExtras.

(* ===================================================================== *)
(** * Further properties of the orchestrator *)
(* ===================================================================== *)

Module RunFacts.

Import Reference PyFacts DuplicateFacts Validation Computation DefaultRun.

Lemma invalid_algos_none (self : Order) (algs : list AlgorithmType) :
  filter (fun a => negb (existsb (AlgorithmType_eqb a)
                           (_valid_algorithms self))) algs = []
  <-> Forall (fun a => In a (_valid_algorithms self)) algs.
Proof.
  induction algs as [|a algs IH]; simpl.
  - split; auto.
  - destruct (existsb (AlgorithmType_eqb a) (_valid_algorithms self)) eqn:E;
      simpl.
    + apply (existsb_eqb_In AlgorithmType_eqb AlgorithmType_eqb_eq) in E.
      rewrite IH. split; intros H.
      * constructor; assumption.
      * now inversion H.
    + split; [discriminate|]. intros H. inversion H as [|? ? Hin _]; subst.
      apply (existsb_eqb_In AlgorithmType_eqb AlgorithmType_eqb_eq) in Hin.
      congruence.
Qed.

(** [get_stats] on a non-empty text: the validation refuses the
    selections, with no event, or the call is the two loops followed by
    the building of the response. *)
Lemma get_stats_split (self : Order) (c : char) (t : text)
    (encodings : option (list EncodingModel))
    (algorithms : option (list AlgorithmType)) (json_response : bool) :
  (~ accepts self encodings algorithms
   /\ exists msg,
        get_stats self (Str (c :: t)) encodings algorithms json_response
        = ([], Raise (ValueError msg))
        /\ (DuplicateSelectionError (ValueError msg)
            \/ UnsupportedAlgorithmError (ValueError msg)))
  \/ (accepts self encodings algorithms
      /\ get_stats self (Str (c :: t)) encodings algorithms json_response
         = tbind (tfoldM (encoding_turn (c :: t)
                            (selected_algorithms self algorithms))
                         (selected_encodings encodings) [])
                 (respond json_response)).
Proof.
  unfold accepts, get_stats.
  assert (Henc :
    (~ encodings_pass encodings
     /\ match encodings with
        | None => ret [FREQUENCY]
        | Some encodings =>
            if has_duplicates EncodingModel_eqb encodings
            then raise (ValueError "Duplicate encoding models detected")
            else
              match filter (fun e => negb (isinstance_EncodingModel e))
                           encodings with
              | [] => ret encodings
              | invalid_encodings =>
                  raise (ValueError
                           ("Invalid encoding models: "
                            ++ repr_list (map EncodingModel_repr
                                              invalid_encodings)))
              end
        end = ([], Raise (ValueError "Duplicate encoding models detected")))
    \/ (encodings_pass encodings
        /\ match encodings with
           | None => ret [FREQUENCY]
           | Some encodings =>
               if has_duplicates EncodingModel_eqb encodings
               then raise (ValueError "Duplicate encoding models detected")
               else
                 match filter (fun e => negb (isinstance_EncodingModel e))
                              encodings with
                 | [] => ret encodings
                 | invalid_encodings =>
                     raise (ValueError
                              ("Invalid encoding models: "
                               ++ repr_list (map EncodingModel_repr
                                                 invalid_encodings)))
                 end
           end = ret (selected_encodings encodings))).
  { destruct encodings as [es|]; [|right; split; [exact I|reflexivity]].
    destruct (has_duplicates EncodingModel_eqb es) eqn:Ed.
    - left. split; [|reflexivity]. simpl.
      now apply (has_duplicates_true EncodingModel_eqb EncodingModel_eqb_eq).
    - right. split.
      + simpl.
        now apply (has_duplicates_NoDup EncodingModel_eqb EncodingModel_eqb_eq).
      + rewrite filter_none_enc. reflexivity. }
  destruct Henc as [[Hno ->] | [Hyes ->]].
  { left. split; [tauto|]. eexists. split; [reflexivity|].
    left. left. reflexivity. }
  rewrite tbind_ret.
  destruct algorithms as [algs|].
  - destruct (has_duplicates AlgorithmType_eqb algs) eqn:Ed.
    + left. split.
      * apply (has_duplicates_true AlgorithmType_eqb AlgorithmType_eqb_eq)
          in Ed.
        tauto.
      * eexists. split; [reflexivity|]. left. right. reflexivity.
    + apply (has_duplicates_NoDup AlgorithmType_eqb AlgorithmType_eqb_eq)
        in Ed.
      destruct (filter (fun a => negb (existsb (AlgorithmType_eqb a)
                                          (_valid_algorithms self))) algs)
        as [|a0 inv] eqn:Ef.
      * right. apply invalid_algos_none in Ef.
        split; [tauto|]. rewrite tbind_ret. reflexivity.
      * left. split.
        -- intros [_ [_ Hall]]. apply invalid_algos_none in Hall.
           congruence.
        -- eexists. split; [reflexivity|]. right.
           exists (a0 :: inv). split; [discriminate|reflexivity].
  - right. split; [tauto|]. rewrite tbind_ret. reflexivity.
Qed.

Lemma ttry_raises {A} (m : traced A) (msg : exn -> string)
    (tr : list event) (e : exn) :
  ttry m (fun e => raise (ValueError (msg e))) = (tr, Raise e) ->
  exists s, e = ValueError s.
Proof.
  destruct m as [tr0 [a|e0]]; simpl; intros H; inversion H.
  eexists. reflexivity.
Qed.

Lemma tfoldM_raises {A S} (P : exn -> Prop) (body : S -> A -> traced S) :
  (forall s x tr e, body s x = (tr, Raise e) -> P e) ->
  forall l s tr e, tfoldM body l s = (tr, Raise e) -> P e.
Proof.
  intros Hbody. induction l as [|x l IH]; intros s tr e H; simpl in H.
  - discriminate.
  - apply tbind_inv in H.
    destruct H as [[ex [Hm Hex]] | [tr1 [s1 [tr2 [_ [Hk _]]]]]].
    + inversion Hex; subst. eapply Hbody; eassumption.
    + eapply IH; eassumption.
Qed.

Lemma encoding_turn_raises (t : text) (algs : list AlgorithmType)
    (results : list EntropyResult) (e : EncodingModel)
    (tr : list event) (ex : exn) :
  encoding_turn t algs results e = (tr, Raise ex) ->
  exists s, ex = ValueError s.
Proof.
  unfold encoding_turn. intros H.
  apply (ttry_raises _ (fun e0 => ("Error processing encoding "
                                   ++ EncodingModel_format e
                                   ++ ": " ++ exn_str e0)%string) tr ex H).
Qed.

Lemma get_stats_value_error (self : Order) (data : pyarg)
    (encodings : option (list EncodingModel))
    (algorithms : option (list AlgorithmType)) (json_response : bool)
    (tr : list event) (e : exn) :
  get_stats self data encodings algorithms json_response = (tr, Raise e) ->
  exists msg, e = ValueError msg.
Proof.
  intros H.
  destruct data as [[|c t]|b];
    try (simpl in H; inversion H; eexists; reflexivity).
  destruct (get_stats_split self c t encodings algorithms json_response)
    as [[_ [msg [E _]]] | [_ E]]; rewrite E in H.
  - inversion H. eexists. reflexivity.
  - apply tbind_inv in H.
    destruct H as [[ex [Hm Hex]] | [tr1 [rs [tr2 [_ [Hk _]]]]]].
    + inversion Hex; subst ex.
      apply (tfoldM_raises (fun e => exists msg, e = ValueError msg)
               (encoding_turn (c :: t) (selected_algorithms self algorithms)))
        in Hm; [exact Hm|].
      intros s x tr' e' Ht. eapply encoding_turn_raises; eassumption.
    + destruct rs; simpl in Hk; inversion Hk. eexists. reflexivity.
Qed.

(** ** What a run that returns went through *)

Lemma algorithms_loop_ok (x : list R) (e : EncodingModel)
    (algs : list AlgorithmType) :
  forall results tr rs,
    algorithms_loop x e algs results = (tr, Ok rs) ->
    exists new,
      rs = results ++ new
      /\ tr = map (Compute (EncodingModel_value e)) algs
      /\ Forall2 (fun a r =>
                    encoding r = EncodingModel_value e
                    /\ algorithm r = AlgorithmType_value a
                    /\ exists f, _get_algorithm_function a = Some f
                                 /\ f x = Ok (entropy r)
                                 /\ isfinite (entropy r) = true)
                 algs new.
Proof.
  induction algs as [|a algs IH]; intros results tr rs H.
  - unfold algorithms_loop in H. simpl in H. inversion H; subst.
    exists []. rewrite app_nil_r. repeat split. constructor.
  - rewrite algorithms_loop_cons in H.
    apply tbind_inv in H.
    destruct H as [[ex [_ Hex]] | [tr1 [s1 [tr2 [Hm [Hk ->]]]]]];
      [discriminate|].
    apply tbind_inv in Hm.
    destruct Hm as [[ex [_ Hex]] | [tr0 [r0 [tr0' [Hc [Hret ->]]]]]];
      [discriminate|].
    inversion Hret; subst tr0' s1. clear Hret.
    destruct (IH _ _ _ Hk) as [new [-> [-> Hall]]].
    exists (r0 :: new). rewrite <- app_assoc. split; [reflexivity|].
    destruct (calculate_entropy_cases x (EncodingModel_value e) a)
      as [[_ [msg Hcase]] | [f0 [Hf0 [[v [Hv [Hfin Hcase]]]
                                     | [[v [Hv [Hfin Hcase]]]
                                       | [e0 [He0 Hcase]]]]]]];
      rewrite Hcase in Hc; inversion Hc; subst.
    split; [rewrite app_nil_r; reflexivity|].
    constructor; [|assumption].
    simpl. repeat split. exists f0. auto.
Qed.

Lemma encoding_turn_ok (t : text) (algs : list AlgorithmType)
    (results : list EntropyResult) (e : EncodingModel)
    (tr : list event) (rs : list EntropyResult) :
  encoding_turn t algs results e = (tr, Ok rs) ->
  exists new,
    rs = results ++ new
    /\ tr = Encode e :: map (Compute (EncodingModel_value e)) algs
    /\ Forall2 (fun a r => record_of t (e, a) (record r)) algs new.
Proof.
  unfold encoding_turn. simpl.
  destruct (ChaosEncoder.encode t e) as [x|ex] eqn:Eenc; simpl;
    [|discriminate].
  destruct (len x =? 0)%Z; simpl; [discriminate|].
  destruct (algorithms_loop x e algs results) as [tr' [rs'|ex]] eqn:Eloop;
    simpl; intros H; inversion H; subst.
  destruct (algorithms_loop_ok x e algs results _ _ Eloop)
    as [new [-> [-> Hall]]].
  exists new. repeat split.
  eapply Forall2_impl; [|exact Hall].
  intros a r [He [Ha [f [Hf [Hv Hfin]]]]].
  unfold record_of, record, computes. simpl. repeat split; try assumption.
  exists x, f. auto.
Qed.

Lemma encodings_loop_ok (t : text) (algs : list AlgorithmType)
    (encs : list EncodingModel) :
  forall results tr rs,
    tfoldM (encoding_turn t algs) encs results = (tr, Ok rs) ->
    exists new,
      rs = results ++ new
      /\ tr = full_trace encs algs
      /\ Forall2 (fun ea r => record_of t ea (record r))
                 (list_prod encs algs) new.
Proof.
  induction encs as [|e encs IH]; intros results tr rs H; simpl in H.
  - inversion H; subst. exists []. rewrite app_nil_r.
    repeat split. constructor.
  - apply tbind_inv in H.
    destruct H as [[ex [_ Hex]] | [tr1 [s1 [tr2 [Hm [Hk ->]]]]]];
      [discriminate|].
    destruct (encoding_turn_ok _ _ _ _ _ _ Hm) as [new1 [-> [-> H1]]].
    destruct (IH _ _ _ Hk) as [new2 [-> [-> H2]]].
    exists (new1 ++ new2). rewrite app_assoc. split; [reflexivity|].
    split; [reflexivity|].
    simpl list_prod. apply Forall2_app; [|assumption].
    clear - H1. induction H1; simpl; constructor; assumption.
Qed.

Lemma respond_ok (json_response : bool) (rs : list EntropyResult)
    (tr : list event) (resp : response) :
  respond json_response rs = (tr, Ok resp) ->
  tr = [] /\ rs <> [] /\ records resp = map record rs
  /\ resp = (if json_response then Json (map record rs) else Results rs).
Proof.
  destruct rs as [|r rs]; simpl; [discriminate|].
  intros H. inversion H; subst. split; [reflexivity|].
  split; [discriminate|].
  destruct json_response; simpl; auto.
Qed.

(** A call that returns: the pairs it went through and what it
    returns. *)
Lemma get_stats_ok (self : Order) (t : text)
    (encodings : option (list EncodingModel))
    (algorithms : option (list AlgorithmType)) (json_response : bool)
    (tr : list event) (resp : response) :
  get_stats self (Str t) encodings algorithms json_response = (tr, Ok resp) ->
  t <> []
  /\ accepts self encodings algorithms
  /\ tr = full_trace (selected_encodings encodings)
                     (selected_algorithms self algorithms)
  /\ Forall2 (record_of t)
             (list_prod (selected_encodings encodings)
                        (selected_algorithms self algorithms))
             (records resp)
  /\ records resp <> []
  /\ (exists rs, resp = if json_response then Json (map record rs)
                        else Results rs).
Proof.
  intros H. destruct t as [|c t]; [discriminate H|].
  split; [discriminate|].
  destruct (get_stats_split self c t encodings algorithms json_response)
    as [[_ [msg [E _]]] | [Hacc E]]; rewrite E in H; [discriminate|].
  split; [exact Hacc|].
  apply tbind_inv in H.
  destruct H as [[ex [_ Hex]] | [tr1 [rs [tr2 [Hloop [Hresp ->]]]]]];
    [discriminate|].
  destruct (encodings_loop_ok _ _ _ _ _ _ Hloop) as [new [-> [-> Hall]]].
  simpl in Hresp. apply respond_ok in Hresp.
  destruct Hresp as [-> [Hne [Hrec Hshape]]].
  rewrite app_nil_r. split; [reflexivity|].
  rewrite Hrec. split.
  - clear - Hall. induction Hall; simpl; constructor; assumption.
  - split; [|exists new; exact Hshape].
    destruct new; [congruence|discriminate].
Qed.

(** ** Where a run fails *)






End RunFacts.

Module RunExtras.

Import Reference PyFacts WindowFacts SampleFacts ApproximateEntropy
       ShannonEntropy ConstantText DuplicateFacts Validation Computation
       DefaultRun EntropyFacts WindowExtras RunFacts.




(** ** The two shapes of the response *)

Lemma tbind_same_trace {A B} (R : result B -> result B -> Prop)
    (m : traced A) (k1 k2 : A -> traced B) :
  (forall e, R (Raise e) (Raise e)) ->
  (forall a, fst (k1 a) = fst (k2 a) /\ R (snd (k1 a)) (snd (k2 a))) ->
  fst (tbind m k1) = fst (tbind m k2)
  /\ R (snd (tbind m k1)) (snd (tbind m k2)).
Proof.
  intros Hr Hk. destruct m as [tr [a|e]]; simpl.
  - destruct (Hk a) as [H1 H2].
    destruct (k1 a) as [t1 r1], (k2 a) as [t2 r2]. simpl in *.
    subst. auto.
  - auto.
Qed.

(** X16.  The flag [json_response] only changes the shape of what is
    returned: with and without it a call goes through the same events,
    fails with the same error or returns the same records, as a list of
    results without the flag and as the document with it. *)
Theorem get_stats_json_same_records (self : Order) (data : pyarg)
    (encodings : option (list EncodingModel))
    (algorithms : option (list AlgorithmType)) :
  fst (get_stats self data encodings algorithms false)
  = fst (get_stats self data encodings algorithms true)
  /\ match snd (get_stats self data encodings algorithms false),
           snd (get_stats self data encodings algorithms true) with
     | Ok plain, Ok json =>
         records plain = records json
         /\ (exists rs, plain = Results rs)
         /\ (exists rs, json = Json rs)
     | Raise e, Raise e' => e = e'
     | _, _ => False
     end.
Proof.
  set (R := fun r1 r2 : result response =>
              match r1, r2 with
              | Ok plain, Ok json =>
                  records plain = records json
                  /\ (exists rs, plain = Results rs)
                  /\ (exists rs, json = Json rs)
              | Raise e, Raise e' => e = e'
              | _, _ => False
              end).
  assert (HR : forall e, R (Raise e) (Raise e)) by (intros e; reflexivity).
  destruct data as [[|c t]|b]; try (simpl; auto).
  unfold get_stats.
  apply (tbind_same_trace R); [exact HR|]. intros encs.
  apply (tbind_same_trace R); [exact HR|]. intros algs.
  apply (tbind_same_trace R); [exact HR|]. intros [|r rs].
  - simpl. auto.
  - simpl. split; [reflexivity|]. split; [reflexivity|].
    split; eexists; reflexivity.
Qed.

(** ** Calls that return *)

Lemma Forall2_length_eq {A B} (P : A -> B -> Prop) (l : list A)
    (l' : list B) :
  Forall2 P l l' -> length l = length l'.
Proof. induction 1; simpl; congruence. Qed.

Lemma Forall2_In_left {A B} (P : A -> B -> Prop) (l : list A)
    (l' : list B) (x : A) :
  Forall2 P l l' -> In x l -> exists y, In y l' /\ P x y.
Proof.
  induction 1 as [|a b l l' Hab _ IH]; intros Hin; [destruct Hin|].
  destruct Hin as [->|Hin].
  - exists b. split; [now left|assumption].
  - destruct (IH Hin) as [y [Hy Hp]]. exists y. split; [now right|assumption].
Qed.

Lemma Forall2_In_right {A B} (P : A -> B -> Prop) (l : list A)
    (l' : list B) (y : B) :
  Forall2 P l l' -> In y l' -> exists x, In x l /\ P x y.
Proof.
  induction 1 as [|a b l l' Hab _ IH]; intros Hin; [destruct Hin|].
  destruct Hin as [->|Hin].
  - exists a. split; [now left|assumption].
  - destruct (IH Hin) as [x [Hx Hp]]. exists x. split; [now right|assumption].
Qed.

Lemma result_count_records (resp : response) :
  result_count resp = length (records resp).
Proof.
  unfold result_count, entropies, records.
  destruct resp; now rewrite !length_map.
Qed.

Lemma entropies_records (resp : response) :
  entropies resp = map snd (records resp).
Proof.
  unfold entropies, records. destruct resp; [|reflexivity].
  rewrite map_map. reflexivity.
Qed.

(** X17.  A call of [get_stats] that returns was given a non-empty text
    and selections that pass the validation; it went through every
    selected encoding once, in the order of the request, and for each
    of them through every selected algorithm; it returns one record per
    pair (encoding, algorithm), encoding by encoding in that order,
    each with the [value] of its two enumeration members and the finite
    entropy the algorithm computes on that encoding of the text. *)
Theorem get_stats_results (self : Order) (t : text)
    (encodings : option (list EncodingModel))
    (algorithms : option (list AlgorithmType)) (json_response : bool)
    (tr : list event) (resp : response) :
  get_stats self (Str t) encodings algorithms json_response = (tr, Ok resp) ->
  t <> []
  /\ accepts self encodings algorithms
  /\ tr = full_trace (selected_encodings encodings)
                     (selected_algorithms self algorithms)
  /\ Forall2 (record_of t)
             (list_prod (selected_encodings encodings)
                        (selected_algorithms self algorithms))
             (records resp)
  /\ result_count resp
     = (length (selected_encodings encodings)
        * length (selected_algorithms self algorithms))%nat
  /\ (1 <= result_count resp)%nat.
Proof.
  intros H.
  destruct (get_stats_ok _ _ _ _ _ _ _ H)
    as [Ht [Hacc [Htr [Hrec [Hne _]]]]].
  repeat (split; [assumption|]).
  rewrite result_count_records.
  rewrite <- (Forall2_length_eq _ _ _ Hrec), length_prod.
  split; [reflexivity|].
  rewrite <- length_prod, (Forall2_length_eq _ _ _ Hrec).
  destruct (records resp); [congruence|simpl; lia].
Qed.

Lemma algorithms_loop_run (x : list R) (e : EncodingModel)
    (algs : list AlgorithmType) :
  (forall a, In a algs ->
     exists f v, _get_algorithm_function a = Some f
                 /\ f x = Ok v /\ isfinite v = true) ->
  forall results,
    exists new,
      algorithms_loop x e algs results
      = (map (Compute (EncodingModel_value e)) algs, Ok (results ++ new))
      /\ length new = length algs.
Proof.
  induction algs as [|a algs IH]; intros Hall results.
  - exists []. rewrite app_nil_r. split; reflexivity.
  - destruct (Hall a (or_introl eq_refl)) as [f [v [Hf [Hv Hfin]]]].
    rewrite algorithms_loop_cons.
    rewrite (calculate_entropy_finite x _ a f v Hf Hv Hfin).
    destruct (IH (fun a' Ha' => Hall a' (or_intror Ha'))
                 (results ++ [mkEntropyResult (EncodingModel_value e)
                                              (AlgorithmType_value a) v]))
      as [new [Hrun Hlen]].
    exists (mkEntropyResult (EncodingModel_value e)
                            (AlgorithmType_value a) v :: new).
    simpl tbind at 2. unfold tbind at 1. rewrite Hrun.
    rewrite <- app_assoc. simpl. split; [reflexivity|]. now rewrite Hlen.
Qed.

Lemma encoding_turn_run (t : text) (algs : list AlgorithmType)
    (e : EncodingModel) :
  t <> [] ->
  (forall a, In a algs -> exists v, computes t e a v) ->
  forall results,
    exists new,
      encoding_turn t algs results e
      = (Encode e :: map (Compute (EncodingModel_value e)) algs,
         Ok (results ++ new))
      /\ length new = length algs.
Proof.
  intros Ht Hall results.
  destruct (EncodeExtras.encode_nonempty t e Ht) as [x [Hx Hlen]].
  assert (Hall' : forall a, In a algs ->
            exists f v, _get_algorithm_function a = Some f
                        /\ f x = Ok v /\ isfinite v = true).
  { intros a Ha. destruct (Hall a Ha) as [v [x' [f [Hx' [Hf [Hv Hfin]]]]]].
    rewrite Hx in Hx'. inversion Hx'; subst x'. exists f, v. auto. }
  destruct (algorithms_loop_run x e algs Hall' results) as [new [Hrun Hl]].
  exists new. split; [|exact Hl].
  unfold encoding_turn. rewrite Hx. simpl. rewrite Hlen, Hrun. reflexivity.
Qed.

Lemma encodings_loop_run (t : text) (algs : list AlgorithmType)
    (encs : list EncodingModel) :
  t <> [] ->
  (forall e a, In e encs -> In a algs -> exists v, computes t e a v) ->
  forall results,
    exists new,
      tfoldM (encoding_turn t algs) encs results
      = (full_trace encs algs, Ok (results ++ new))
      /\ length new = (length encs * length algs)%nat.
Proof.
  intros Ht. induction encs as [|e encs IH]; intros Hall results.
  - exists []. rewrite app_nil_r. split; reflexivity.
  - destruct (encoding_turn_run t algs e Ht
                (fun a Ha => Hall e a (or_introl eq_refl) Ha) results)
      as [new1 [Hrun1 Hl1]].
    destruct (IH (fun e' a He' Ha => Hall e' a (or_intror He') Ha)
                 (results ++ new1)) as [new2 [Hrun2 Hl2]].
    exists (new1 ++ new2). cbn [tfoldM]. rewrite Hrun1.
    unfold tbind. rewrite Hrun2. rewrite <- app_assoc.
    split; [reflexivity|]. rewrite length_app. simpl. lia.
Qed.

Lemma get_stats_runs (self : Order) (t : text)
    (encodings : option (list EncodingModel))
    (algorithms : option (list AlgorithmType)) (json_response : bool) :
  t <> [] ->
  accepts self encodings algorithms ->
  selected_encodings encodings <> [] ->
  selected_algorithms self algorithms <> [] ->
  (forall e a,
     In e (selected_encodings encodings) ->
     In a (selected_algorithms self algorithms) ->
     exists v, computes t e a v) ->
  exists resp,
    get_stats self (Str t) encodings algorithms json_response
    = (full_trace (selected_encodings encodings)
                  (selected_algorithms self algorithms),
       Ok resp).
Proof.
  intros Ht Hacc Hencs Halgs Hall.
  destruct t as [|c t]; [congruence|].
  destruct (get_stats_split self c t encodings algorithms json_response)
    as [[Hno _] | [_ E]]; [contradiction|].
  rewrite E.
  destruct (encodings_loop_run (c :: t) _ _ Ht Hall []) as [new [Hrun Hl]].
  rewrite Hrun. simpl app.
  assert (Hnew : new <> []).
  { destruct new; [|discriminate]. simpl in Hl.
    destruct (selected_encodings encodings); [congruence|].
    destruct (selected_algorithms self algorithms); [congruence|].
    simpl in Hl. lia. }
  destruct new as [|r new]; [congruence|].
  eexists. simpl. rewrite app_nil_r. reflexivity.
Qed.

End RunExtras.

Module SelectionExtras.

Import Reference PyFacts WindowFacts SampleFacts ApproximateEntropy
       ShannonEntropy ConstantText DuplicateFacts Validation Computation
       DefaultRun EntropyFacts WindowExtras RunFacts RunExtras.
Local Open Scope R_scope.

(** X18.  [get_stats] returns whenever the text is not empty, the
    selections pass the validation and are not empty, and every
    selected algorithm has a finite value on every selected encoding of
    the text; it then goes through all the pairs and returns one record
    for each. *)
Theorem get_stats_succeeds (self : Order) (t : text)
    (encodings : option (list EncodingModel))
    (algorithms : option (list AlgorithmType)) (json_response : bool) :
  t <> [] ->
  accepts self encodings algorithms ->
  selected_encodings encodings <> [] ->
  selected_algorithms self algorithms <> [] ->
  (forall e a,
     In e (selected_encodings encodings) ->
     In a (selected_algorithms self algorithms) ->
     exists v, computes t e a v) ->
  exists resp,
    get_stats self (Str t) encodings algorithms json_response
    = (full_trace (selected_encodings encodings)
                  (selected_algorithms self algorithms),
       Ok resp)
    /\ result_count resp
       = (length (selected_encodings encodings)
          * length (selected_algorithms self algorithms))%nat.
Proof.
  intros Ht Hacc Hencs Halgs Hall.
  destruct (get_stats_runs self t encodings algorithms json_response
              Ht Hacc Hencs Halgs Hall) as [resp Hrun].
  exists resp. split; [exact Hrun|].
  destruct (get_stats_ok _ _ _ _ _ _ _ Hrun) as [_ [_ [_ [Hrec _]]]].
  rewrite result_count_records.
  now rewrite <- (Forall2_length_eq _ _ _ Hrec), length_prod.
Qed.

Lemma computes_shannon (t : text) (e : EncodingModel) :
  exists h, computes t e SHANNON (Fin h) /\ 0 <= h.
Proof.
  destruct (EncodeExtras.encode_lengths t e) as [x [Hx _]].
  exists (entropy_of 2 (map (frequency x) (map fst (np_unique x)))).
  split.
  - exists x, (fun x => shannon_entropy x 2).
    split; [exact Hx|]. split; [reflexivity|].
    split; [apply ShannonExtras.shannon_entropy_value; lra|reflexivity].
  - destruct x as [|x0 x].
    + simpl map. rewrite entropy_of_nil. lra.
    + assert (Hne : x0 :: x <> []) by discriminate.
      destruct (ShannonExtras.np_unique_probabilities _ Hne) as [Hp Hs].
      assert (H2 : 1 < 2) by lra.
      apply (entropy_of_bounds 2 _ H2 Hp Hs).
Qed.

Lemma computes_permutation (t : text) (e : EncodingModel) :
  exists h, computes t e PERMUTATION (Fin h) /\ 0 <= h.
Proof.
  destruct (EncodeExtras.encode_lengths t e) as [x [Hx _]].
  assert (Hd : 1%Z <> 0%Z) by discriminate.
  destruct (PermutationExtras.permutation_entropy_range x 3 1 Hd)
    as [h [Hh [H0 _]]].
  exists h. split; [|exact H0].
  exists x, (fun x => permutation_entropy x 3 1).
  split; [exact Hx|]. split; [reflexivity|]. split; [exact Hh|reflexivity].
Qed.

Lemma get_stats_succeeds_witness :
  exists resp,
    get_stats an_order (Str [97; 98]%N) (Some [ORDINAL]) (Some [SHANNON])
              false
    = (full_trace [ORDINAL] [SHANNON], Ok resp)
    /\ result_count resp = 1%nat.
Proof.
  apply (get_stats_succeeds an_order [97; 98]%N (Some [ORDINAL])
           (Some [SHANNON]) false).
  - discriminate.
  - split.
    + simpl. constructor; [intros []|constructor].
    + split.
      * constructor; [intros []|constructor].
      * constructor; [simpl; auto|constructor].
  - discriminate.
  - discriminate.
  - intros e a He Ha. simpl in Ha. destruct Ha as [<-|[]].
    destruct (computes_shannon [97; 98]%N e) as [h [Hc _]].
    exists (Fin h). exact Hc.
Defined.

Lemma get_stats_results_witness :
  exists tr resp,
    get_stats an_order (Str [120; 121; 120]%N) (Some [BINARY; ORDINAL])
              (Some [PERMUTATION]) true
    = (tr, Ok resp)
    /\ tr = full_trace [BINARY; ORDINAL] [PERMUTATION]
    /\ result_count resp = 2%nat.
Proof.
  destruct (get_stats_runs an_order [120; 121; 120]%N
              (Some [BINARY; ORDINAL]) (Some [PERMUTATION]) true)
    as [resp Hrun].
  - discriminate.
  - split.
    + simpl. constructor; [intros [H|[]]; discriminate H|].
      constructor; [intros []|constructor].
    + split.
      * constructor; [intros []|constructor].
      * constructor; [simpl; auto|constructor].
  - discriminate.
  - discriminate.
  - intros e a He Ha. simpl in Ha. destruct Ha as [<-|[]].
    destruct (computes_permutation [120; 121; 120]%N e) as [h [Hc _]].
    exists (Fin h). exact Hc.
  - exists (full_trace [BINARY; ORDINAL] [PERMUTATION]), resp.
    split; [exact Hrun|].
    destruct (get_stats_results _ _ _ _ _ _ _ Hrun)
      as [_ [_ [Htr [_ [Hcount _]]]]].
    split; [reflexivity|exact Hcount].
Defined.

(** X19.  With the algorithms Shannon and Permutation only, [get_stats]
    returns on every non-empty text and every non-empty selection of
    encodings without repetition: both algorithms have a finite value
    on every sequence.  The entropies it returns are all at least 0. *)
Theorem get_stats_shannon_permutation (self : Order) (t : text)
    (encodings : option (list EncodingModel))
    (algs : list AlgorithmType) (json_response : bool) :
  initialized self ->
  t <> [] ->
  encodings_pass encodings -> selected_encodings encodings <> [] ->
  NoDup algs -> algs <> [] ->
  (forall a, In a algs -> a = SHANNON \/ a = PERMUTATION) ->
  exists resp,
    get_stats self (Str t) encodings (Some algs) json_response
    = (full_trace (selected_encodings encodings) algs, Ok resp)
    /\ result_count resp
       = (length (selected_encodings encodings) * length algs)%nat
    /\ Forall nonnegative (entropies resp).
Proof.
  intros Hinit Ht Hpass Hencs Hnd Halgs Hsel.
  assert (Hvalid : forall a, a = SHANNON \/ a = PERMUTATION ->
                             In a (_valid_algorithms self)).
  { intros a Ha. unfold initialized in Hinit.
    apply (Permutation_in a (Permutation_sym Hinit)).
    destruct Ha as [->| ->]; simpl; auto. }
  assert (Hacc : accepts self encodings (Some algs)).
  { split; [assumption|]. split; [assumption|].
    apply Forall_forall. intros a Ha. apply Hvalid, Hsel, Ha. }
  assert (Hall : forall e a,
            In e (selected_encodings encodings) ->
            In a (selected_algorithms self (Some algs)) ->
            exists v, computes t e a v).
  { intros e a _ Ha. simpl in Ha. destruct (Hsel a Ha) as [->| ->].
    - destruct (computes_shannon t e) as [h [Hc _]]. now exists (Fin h).
    - destruct (computes_permutation t e) as [h [Hc _]]. now exists (Fin h). }
  destruct (get_stats_runs self t encodings (Some algs) json_response
              Ht Hacc Hencs Halgs Hall) as [resp Hrun].
  exists resp. split; [exact Hrun|].
  destruct (get_stats_ok _ _ _ _ _ _ _ Hrun) as [_ [_ [_ [Hrec _]]]].
  split.
  - rewrite result_count_records.
    now rewrite <- (Forall2_length_eq _ _ _ Hrec), length_prod.
  - rewrite entropies_records. apply Forall_forall. intros v Hv.
    apply in_map_iff in Hv. destruct Hv as [r [<- Hr]].
    destruct (Forall2_In_right _ _ _ r Hrec Hr) as [[e a] [Hea Hrecord]].
    apply in_prod_iff in Hea. destruct Hea as [_ Ha].
    destruct Hrecord as [_ [_ [x [f [Hx [Hf [Hfx _]]]]]]].
    simpl in Ha, Hx, Hf, Hfx.
    destruct (Hsel a Ha) as [->| ->]; inversion Hf; subst f.
    + rewrite ShannonExtras.shannon_entropy_value in Hfx by lra.
      inversion Hfx as [Hv']. simpl.
      destruct x as [|x0 x].
      * simpl map. rewrite entropy_of_nil. lra.
      * assert (Hne : x0 :: x <> []) by discriminate.
        destruct (ShannonExtras.np_unique_probabilities _ Hne) as [Hp Hs].
        assert (H2 : 1 < 2) by lra.
        apply (entropy_of_bounds 2 _ H2 Hp Hs).
    + assert (Hd : 1%Z <> 0%Z) by discriminate.
      destruct (PermutationExtras.permutation_entropy_range x 3 1 Hd)
        as [h [Hh [H0 _]]].
      rewrite Hh in Hfx. inversion Hfx as [Hv']. simpl. exact H0.
Qed.

Lemma get_stats_shannon_permutation_witness :
  exists resp,
    get_stats an_order (Str [104; 105]%N) None
              (Some [SHANNON; PERMUTATION]) true
    = (full_trace [FREQUENCY] [SHANNON; PERMUTATION], Ok resp)
    /\ result_count resp = 2%nat
    /\ Forall nonnegative (entropies resp).
Proof.
  apply (get_stats_shannon_permutation an_order [104; 105]%N None
           [SHANNON; PERMUTATION] true).
  - apply Permutation_refl.
  - discriminate.
  - exact I.
  - discriminate.
  - constructor; [intros [H|[]]; discriminate H|].
    constructor; [intros []|constructor].
  - discriminate.
  - intros a [<-|[<-|[]]]; auto.
Defined.

(** ** Sequences on which the windowed algorithms have no finite
    value *)

Lemma std_population (x : list R) :
  x <> [] -> exists sd, std 0 x = Fin sd.
Proof.
  intros Hne. unfold std.
  destruct x as [|x0 xs]; [congruence|].
  cbv iota zeta. set (x := x0 :: xs) in *.
  rewrite (map_ext (fun v => Rabs (v - mean x) * Rabs (v - mean x))
                   (fun v => (v - mean x) * (v - mean x))).
  2:{ intros v. rewrite <- Rabs_mult. apply Rabs_pos_eq.
      apply (Rle_0_sqr (v - mean x)). }
  set (S2 := Rsum (map (fun v => (v - mean x) * (v - mean x)) x)).
  assert (HS : 0 <= S2).
  { apply MultiscaleExtras.Rsum_nonneg. intros y Hy. apply in_map_iff in Hy.
    destruct Hy as [v [<- _]]. apply (Rle_0_sqr (v - mean x)). }
  assert (Hd : Z.max (len x - 0) 0 = Z.of_nat (length x))
    by (unfold len; lia).
  rewrite Hd, of_Z_nat.
  assert (Hpos : 0 < INR (length x))
    by (apply lt_0_INR; unfold x; simpl; lia).
  cbn [fl_div]. rewrite Reqb_false by lra. cbn [np_sqrt].
  rewrite Rleb_true; [eexists; reflexivity|].
  apply Rmult_le_pos; [assumption|]. left. now apply Rinv_0_lt_compat.
Qed.

Lemma std_of_constant (x : list R) :
  x <> [] -> constant x -> std 0 x = Fin 0.
Proof.
  intros Hne Hc. destruct x as [|x0 xs]; [congruence|].
  assert (E : x0 :: xs = repeat x0 (S (length xs))).
  { apply (all_equal_repeat x0 (x0 :: xs)).
    intros c Hin. apply Hc; [assumption|now left]. }
  rewrite E. apply std_constant. lia.
Qed.

Lemma tolerance_of (x : list R) :
  x <> [] ->
  exists r, fl_mul (Fin (2 / 10)) (std 0 x) = Fin r
            /\ (constant x -> r <= 0).
Proof.
  intros Hne. destruct (std_population x Hne) as [sd Hsd].
  exists (2 / 10 * sd). rewrite Hsd. split; [reflexivity|].
  intros Hc. rewrite (std_of_constant x Hne Hc) in Hsd.
  inversion Hsd. lra.
Qed.

Lemma exact_constant_constant (x : list R) :
  exact_constant x -> constant x.
Proof.
  intros [z [j [Hall _]]] a b Ha Hb.
  now rewrite (Hall a Ha), (Hall b Hb).
Qed.

Lemma degenerate_no_value (x : list R) (a : AlgorithmType)
    (f : list R -> result npfloat) (v : npfloat) :
  x <> [] -> degenerate x a ->
  _get_algorithm_function a = Some f -> f x = Ok v ->
  isfinite v = false.
Proof.
  intros Hne Hdeg Hf Hv.
  destruct (tolerance_of x Hne) as [r [Hr Hconst]].
  assert (H12 : (1 <= 2)%nat) by lia.
  destruct a; simpl in Hdeg; try contradiction.
  - (* Approximate *)
    assert (Ef : f = fun x => approximate_entropy x 2
                                (fl_mul (Fin (2 / 10)) (std 0 x)))
      by (unfold _get_algorithm_function in Hf; congruence).
    rewrite Ef in Hv. cbv beta in Hv. rewrite Hr in Hv.
    destruct (le_lt_dec 2 (length x)) as [Hlen|Hlen].
    + assert (E : approximate_entropy x (Z.of_nat 2) (Fin r) = Ok NaN).
      { destruct Hdeg as [Hc|Hshort].
        - apply approximate_entropy_no_tolerance; auto.
          apply Hconst. now apply exact_constant_constant.
        - apply approximate_entropy_one_window; [assumption|lia]. }
      change (Z.of_nat 2) with 2%Z in E. rewrite E in Hv.
      inversion Hv. reflexivity.
    + pose proof (approximate_entropy_too_short x 2 r H12 Hlen) as E.
      change (Z.of_nat 2) with 2%Z in E. rewrite E in Hv. discriminate.
  - (* Sample *)
    assert (Ef : f = fun x => sample_entropy x 2
                                (fl_mul (Fin (2 / 10)) (std 0 x)))
      by (unfold _get_algorithm_function in Hf; congruence).
    rewrite Ef in Hv. cbv beta in Hv. rewrite Hr in Hv.
    assert (E : sample_entropy x (Z.of_nat 2) (Fin r) = Ok PInf).
    { apply sample_entropy_infinite_cases; [assumption|].
      destruct Hdeg as [Hc|Hshort]; [right|left; lia].
      apply Hconst. now apply exact_constant_constant. }
    change (Z.of_nat 2) with 2%Z in E. rewrite E in Hv.
    inversion Hv. reflexivity.
Qed.

Lemma get_stats_degenerate_fails (self : Order) (t : text)
    (encodings : option (list EncodingModel))
    (algorithms : option (list AlgorithmType)) (json_response : bool)
    (e : EncodingModel) (a : AlgorithmType) (x : list R) :
  In e (selected_encodings encodings) ->
  In a (selected_algorithms self algorithms) ->
  ChaosEncoder.encode t e = Ok x -> degenerate x a ->
  exists tr msg,
    get_stats self (Str t) encodings algorithms json_response
    = (tr, Raise (ValueError msg)).
Proof.
  intros He Ha Hx Hdeg.
  destruct (get_stats self (Str t) encodings algorithms json_response)
    as [tr [resp|ex]] eqn:Hrun.
  - exfalso.
    destruct (get_stats_ok _ _ _ _ _ _ _ Hrun) as [Ht [_ [_ [Hrec _]]]].
    assert (Hin : In (e, a) (list_prod (selected_encodings encodings)
                                       (selected_algorithms self algorithms)))
      by (apply in_prod; assumption).
    destruct (Forall2_In_left _ _ _ _ Hrec Hin)
      as [r [_ [_ [_ [x' [f [Hx' [Hf [Hv Hfin]]]]]]]]].
    simpl in Hx', Hf, Hv, Hfin.
    rewrite Hx in Hx'. inversion Hx'; subst x'.
    assert (Hne : x <> []).
    { destruct (EncodeExtras.encode_lengths t e) as [x' [Hx'' [_ Hnil]]].
      rewrite Hx in Hx''. inversion Hx''; subst x'. tauto. }
    rewrite (degenerate_no_value x a f (snd r) Hne Hdeg Hf Hv) in Hfin.
    discriminate.
  - destruct (get_stats_value_error _ _ _ _ _ _ _ Hrun) as [msg ->].
    exists tr, msg. reflexivity.
Qed.

(** X20.  [get_stats] fails whenever one of the selected encodings of
    the text is a sequence on which one of the selected algorithms
    cannot have a finite value under the orchestrator's parameters:
    Approximate entropy on a sequence of at most two elements, Sample
    entropy on one of at most three (whatever the tolerance is), and
    either of them on a constant sequence of integers or of binary
    fractions, whose standard deviation, and so the tolerance, is 0
    without any rounding. *)
Theorem get_stats_degenerate (self : Order) (t : text)
    (encodings : option (list EncodingModel))
    (algorithms : option (list AlgorithmType)) (json_response : bool)
    (e : EncodingModel) (a : AlgorithmType) (x : list R) :
  In e (selected_encodings encodings) ->
  In a (selected_algorithms self algorithms) ->
  ChaosEncoder.encode t e = Ok x -> degenerate x a ->
  exists tr msg,
    get_stats self (Str t) encodings algorithms json_response
    = (tr, Raise (ValueError msg)).
Proof. apply get_stats_degenerate_fails. Qed.

Lemma get_stats_degenerate_witness :
  exists tr msg,
    get_stats an_order (Str [97; 98; 99]%N) (Some [ORDINAL]) (Some [SAMPLE])
              false
    = (tr, Raise (ValueError msg)).
Proof.
  apply (get_stats_degenerate an_order [97; 98; 99]%N (Some [ORDINAL])
           (Some [SAMPLE]) false ORDINAL SAMPLE
           (ChaosEncoder._ordinal_encode [97; 98; 99]%N)).
  - simpl. auto.
  - simpl. auto.
  - reflexivity.
  - right. simpl. lia.
Defined.

(** ** Texts whose characters are equally frequent *)

Lemma list_sum_add {A} (f g : A -> nat) (u : list A) :
  list_sum (map (fun c => f c + g c)%nat u)
  = (list_sum (map f u) + list_sum (map g u))%nat.
Proof. induction u as [|c u IH]; simpl; [reflexivity|]. lia. Qed.

Lemma list_sum_const {A} (n : nat) (u : list A) :
  list_sum (map (fun _ => n) u) = (length u * n)%nat.
Proof. induction u as [|c u IH]; simpl; [reflexivity|]. lia. Qed.

Lemma indicator_absent (x : char) (u : list char) :
  ~ In x u ->
  list_sum (map (fun c => if N.eq_dec x c then 1 else 0)%nat u) = 0%nat.
Proof.
  induction u as [|c u IH]; intros Hx; simpl; [reflexivity|].
  destruct (N.eq_dec x c) as [->|_]; [exfalso; apply Hx; now left|].
  apply IH. intros H. apply Hx. now right.
Qed.

Lemma indicator_present (x : char) (u : list char) :
  NoDup u -> In x u ->
  list_sum (map (fun c => if N.eq_dec x c then 1 else 0)%nat u) = 1%nat.
Proof.
  induction 1 as [|c u Hc Hnd IH]; intros Hx; [destruct Hx|]. simpl.
  destruct (N.eq_dec x c) as [->|Hne].
  - now rewrite indicator_absent.
  - destruct Hx as [E|Hx]; [congruence|]. now rewrite IH.
Qed.

(** The length of a text is the sum of the counts of its distinct
    characters. *)
Lemma length_count_sum (u : list char) :
  NoDup u ->
  forall t : text, (forall c, In c t -> In c u) ->
    length t = list_sum (map (char_count t) u).
Proof.
  intros Hnd. induction t as [|x t IH]; intros Hin.
  - rewrite (map_ext (char_count []) (fun _ => 0%nat))
      by (intros c; reflexivity).
    now rewrite list_sum_const, Nat.mul_0_r.
  - rewrite (map_ext (char_count (x :: t))
                     (fun c => char_count t c
                               + (if N.eq_dec x c then 1 else 0))%nat).
    + rewrite list_sum_add, <- IH by (intros c Hc; apply Hin; now right).
      rewrite indicator_present by (try assumption; apply Hin; now left).
      simpl. lia.
    + intros c. unfold char_count. simpl.
      destruct (N.eq_dec x c); lia.
Qed.

Lemma equal_counts_length (t : text) (c : char) :
  (forall a b, In a t -> In b t -> char_count t a = char_count t b) ->
  In c t ->
  length t = (ChaosEncoder.distinct_count t * char_count t c)%nat.
Proof.
  intros Heq Hc.
  rewrite (length_count_sum (nodup N.eq_dec t) (NoDup_nodup _ _) t)
    by (intros a Ha; now apply nodup_In).
  rewrite (map_ext_in (char_count t) (fun _ => char_count t c)).
  - apply list_sum_const.
  - intros a Ha. apply nodup_In in Ha. now apply Heq.
Qed.

(** The Frequency encoding of a text whose characters are equally
    frequent, when their number is a power of two. *)
Lemma frequency_exact_constant (t : text) (j : nat) :
  (forall a b, In a t -> In b t -> char_count t a = char_count t b) ->
  ChaosEncoder.distinct_count t = (2 ^ j)%nat ->
  (Z.of_nat (length t) <= 2 ^ 53)%Z ->
  exact_constant (map (fun c => INR (char_count t c) / INR (length t)) t).
Proof.
  intros Heq Hk Hlen. exists 1%Z, j. split; [|split].
  - intros v Hv. apply in_map_iff in Hv. destruct Hv as [c [<- Hc]].
    pose proof (equal_counts_length t c Heq Hc) as E.
    assert (Hpos : (1 <= char_count t c)%nat).
    { unfold char_count. apply (count_occ_In N.eq_dec) in Hc. lia. }
    rewrite E, Hk, mult_INR, pow_INR.
    assert (0 < INR (char_count t c)) by (apply lt_0_INR; lia).
    assert (0 < INR 2 ^ j) by (apply pow_lt; simpl; lra).
    change (INR 2) with 2 in *. field. lra.
  - rewrite length_map. lia.
  - destruct t as [|c t].
    + exfalso. unfold ChaosEncoder.distinct_count in Hk. simpl in Hk.
      pose proof (Nat.pow_nonzero 2 j). lia.
    + pose proof (equal_counts_length (c :: t) c Heq (or_introl eq_refl))
        as E.
      assert (Hpos : (1 <= char_count (c :: t) c)%nat).
      { unfold char_count.
        assert (Hc : In c (c :: t)) by now left.
        apply (count_occ_In N.eq_dec) in Hc. lia. }
      assert (Hle : (2 ^ j <= length (c :: t))%nat)
        by (rewrite E, Hk; nia).
      assert (Hz : (Z.of_nat (2 ^ j) <= 2 ^ 53)%Z) by lia.
      rewrite Nat2Z.inj_pow in Hz. change (Z.of_nat 2) with 2%Z in Hz.
      apply Z.pow_le_mono_r_iff in Hz; lia.
Qed.

(** X21.  Called with the defaults, [get_stats] fails on every text
    whose characters all occur equally often and whose distinct
    characters are one, two, four or another power of two in number
    (a repeated character, ["abab"], a text of four distinct
    characters, ...): its Frequency encoding is a constant binary
    fraction, of standard deviation 0 without rounding, and the
    default algorithms include Sample entropy. *)
Theorem get_stats_default_equal_counts (self : Order) (t : text)
    (j : nat) (json_response : bool) :
  initialized self ->
  (forall c d, In c t -> In d t -> char_count t c = char_count t d) ->
  ChaosEncoder.distinct_count t = (2 ^ j)%nat ->
  (Z.of_nat (length t) <= 2 ^ 53)%Z ->
  exists tr msg,
    get_stats self (Str t) None None json_response
    = (tr, Raise (ValueError msg)).
Proof.
  intros Hinit Heq Hk Hlen.
  apply (get_stats_degenerate_fails self t None None json_response
           FREQUENCY SAMPLE
           (map (fun c => INR (char_count t c) / INR (length t)) t)).
  - simpl. auto.
  - simpl. unfold initialized in Hinit.
    apply (Permutation_in SAMPLE (Permutation_sym Hinit)). simpl. auto.
  - apply EncoderExtras.frequency_encode_map.
  - left. now apply (frequency_exact_constant t j).
Qed.

Lemma get_stats_default_equal_counts_witness :
  exists tr msg,
    get_stats an_order (Str [97; 98; 98; 97]%N) None None false
    = (tr, Raise (ValueError msg)).
Proof.
  apply (get_stats_default_equal_counts an_order [97; 98; 98; 97]%N 1
           false).
  - apply Permutation_refl.
  - intros c d Hc Hd. simpl in Hc, Hd.
    destruct Hc as [<-|[<-|[<-|[<-|[]]]]];
      destruct Hd as [<-|[<-|[<-|[<-|[]]]]]; reflexivity.
  - reflexivity.
  - apply Z.leb_le. reflexivity.
Defined.

Lemma full_trace_no_algorithm (encs : list EncodingModel) :
  full_trace encs [] = map Encode encs.
Proof.
  unfold full_trace. induction encs as [|e l IH]; [reflexivity|].
  change (map Encode (e :: l)) with (Encode e :: map Encode l).
  rewrite <- IH. reflexivity.
Qed.

(** X22.  When the selections pass the validation but one of them is
    the empty list, [get_stats] computes no entropy and fails with [No
    entropy results were calculated], after having encoded the text
    with every selected encoding. *)
Theorem get_stats_empty_selection (self : Order) (t : text)
    (encodings : option (list EncodingModel))
    (algorithms : option (list AlgorithmType)) (json_response : bool) :
  t <> [] ->
  accepts self encodings algorithms ->
  selected_encodings encodings = []
  \/ selected_algorithms self algorithms = [] ->
  get_stats self (Str t) encodings algorithms json_response
  = (map Encode (selected_encodings encodings),
     Raise (ValueError "No entropy results were calculated")).
Proof.
  intros Ht Hacc Hempty. destruct t as [|c t]; [congruence|].
  destruct (get_stats_split self c t encodings algorithms json_response)
    as [[Hno _] | [_ E]]; [contradiction|].
  rewrite E.
  assert (Hall : forall e a,
            In e (selected_encodings encodings) ->
            In a (selected_algorithms self algorithms) ->
            exists v, computes (c :: t) e a v).
  { intros e a He Ha. destruct Hempty as [H|H]; rewrite H in *; contradiction. }
  destruct (encodings_loop_run (c :: t) _ _ Ht Hall []) as [new [Hrun Hl]].
  assert (Hnew : new = []).
  { destruct new; [reflexivity|]. simpl in Hl.
    destruct Hempty as [H|H]; rewrite H in Hl; simpl in Hl; lia. }
  subst new. rewrite Hrun. simpl. rewrite app_nil_r. f_equal.
  destruct Hempty as [H|H]; rewrite H; [reflexivity|].
  apply full_trace_no_algorithm.
Qed.

Lemma get_stats_empty_selection_witness :
  get_stats an_order (Str [97]%N) (Some [BINARY; ORDINAL]) (Some []) false
  = ([Encode BINARY; Encode ORDINAL],
     Raise (ValueError "No entropy results were calculated")).
Proof.
  apply (get_stats_empty_selection an_order [97]%N (Some [BINARY; ORDINAL])
           (Some []) false).
  - discriminate.
  - split.
    + simpl. constructor; [intros [H|[]]; discriminate H|].
      constructor; [intros []|constructor].
    + split; constructor.
  - right. reflexivity.
Defined.

(** X23.  The encodings are validated before the algorithms: on a
    non-empty text a list of encodings with a repetition is refused
    with [Duplicate encoding models detected], before any event,
    whatever the algorithms are. *)
Theorem get_stats_duplicate_encodings (self : Order) (t : text)
    (es : list EncodingModel) (algorithms : option (list AlgorithmType))
    (json_response : bool) :
  t <> [] -> ~ NoDup es ->
  get_stats self (Str t) (Some es) algorithms json_response
  = ([], Raise (ValueError "Duplicate encoding models detected")).
Proof.
  intros Ht Hdup. destruct t as [|c t]; [congruence|].
  apply (has_duplicates_true EncodingModel_eqb EncodingModel_eqb_eq) in Hdup.
  unfold get_stats. rewrite Hdup. reflexivity.
Qed.

Lemma get_stats_duplicate_encodings_witness :
  get_stats an_order (Str [97]%N) (Some [BINARY; BINARY])
            (Some [MULTISCALE; MULTISCALE]) false
  = ([], Raise (ValueError "Duplicate encoding models detected")).
Proof.
  apply (get_stats_duplicate_encodings an_order [97]%N [BINARY; BINARY]
           (Some [MULTISCALE; MULTISCALE]) false).
  - discriminate.
  - intros H. inversion H as [|? ? Hin _]; subst. apply Hin. now left.
Defined.

End SelectionExtras.

Module RearrangementExtras.

Import Reference ChaosEncoder PyFacts BinaryFacts RankFacts OneHotFacts
       ShannonEntropy.
Local Open Scope R_scope.

Lemma nodup_permutation (t t' : text) :
  Permutation t t' ->
  Permutation (nodup N.eq_dec t) (nodup N.eq_dec t').
Proof.
  intros Hp. apply NoDup_Permutation; try apply NoDup_nodup.
  intros x. rewrite !nodup_In. split; intros Hx.
  - eapply Permutation_in; eassumption.
  - eapply Permutation_in; [apply Permutation_sym|]; eassumption.
Qed.

Lemma distinct_count_permutation (t t' : text) :
  Permutation t t' -> distinct_count t = distinct_count t'.
Proof.
  intros Hp. unfold distinct_count.
  apply Permutation_length. now apply nodup_permutation.
Qed.

Lemma rank_permutation (t t' : text) (c : char) :
  Permutation t t' -> rank t c = rank t' c.
Proof.
  intros Hp. unfold rank.
  apply filter_length_perm. now apply nodup_permutation.
Qed.

(** Every encoding of a rearranged text is a rearrangement of the
    encoding of the text. *)
Lemma encode_permutation (t t' : text) (model : EncodingModel) :
  Permutation t t' ->
  exists x x', encode t model = Ok x /\ encode t' model = Ok x'
               /\ Permutation x x'.
Proof.
  intros Hp. destruct model; simpl encode.
  - exists (_ordinal_encode t), (_ordinal_encode t').
    repeat split. unfold _ordinal_encode. now apply Permutation_map.
  - rewrite !one_hot_encode_rows. do 2 eexists.
    split; [reflexivity|]. split; [reflexivity|].
    rewrite <- !flat_map_concat_map.
    rewrite (flat_map_ext
               (fun c => one_hot_row (distinct_count t) (rank t c))
               (fun c => one_hot_row (distinct_count t') (rank t' c))).
    + now apply Permutation_flat_map.
    + intros c.
      now rewrite (distinct_count_permutation t t' Hp),
                  (rank_permutation t t' c Hp).
  - rewrite !EncoderExtras.frequency_encode_map. do 2 eexists.
    split; [reflexivity|]. split; [reflexivity|].
    rewrite (map_ext
               (fun c => INR (char_count t c) / INR (length t))
               (fun c => INR (char_count t' c) / INR (length t'))).
    + now apply Permutation_map.
    + intros c. unfold char_count.
      rewrite (proj1 (Permutation_count_occ N.eq_dec t t') Hp c).
      now rewrite (Permutation_length Hp).
  - unfold _binary_encode. rewrite !binary_list_blocks. cbn [bind].
    do 2 eexists. split; [reflexivity|]. split; [reflexivity|].
    apply Permutation_map. now apply Permutation_flat_map.
Qed.

(** X25.  The Shannon entropy of a text does not depend on the order
    of its characters, under any of the four encodings: the encoding
    of a rearranged text is a rearrangement of the encoding of the
    text, and [shannon_entropy] returns the same on both. *)
Theorem shannon_of_encoding_permutation (t t' : text)
    (model : EncodingModel) (base : R) :
  Permutation t t' ->
  exists x x',
    encode t model = Ok x /\ encode t' model = Ok x'
    /\ Permutation x x'
    /\ shannon_entropy x base = shannon_entropy x' base.
Proof.
  intros Hp.
  destruct (encode_permutation t t' model Hp) as [x [x' [Hx [Hx' Hxx]]]].
  exists x, x'. repeat (split; [assumption|]).
  unfold shannon_entropy.
  rewrite (ShannonExtras.np_unique_permutation x x' Hxx).
  unfold len. now rewrite (Permutation_length Hxx).
Qed.

Lemma shannon_of_encoding_permutation_witness :
  exists x x',
    encode [98; 97; 98]%N ONE_HOT = Ok x
    /\ encode [97; 98; 98]%N ONE_HOT = Ok x'
    /\ Permutation x x'
    /\ shannon_entropy x 2 = shannon_entropy x' 2.
Proof.
  apply (shannon_of_encoding_permutation [98; 97; 98]%N [97; 98; 98]%N
           ONE_HOT 2).
  apply perm_swap.
Defined.

End RearrangementExtras.

Module ApproximateExtras.

Import Reference PyFacts WindowFacts SampleFacts ApproximateEntropy
       ShannonEntropy ConstantText DuplicateFacts Validation Computation
       DefaultRun EntropyFacts WindowExtras RunFacts RunExtras
       SelectionExtras.
Local Open Scope R_scope.

Lemma approximate_entropy_positive_tolerance (ts : list R) (k : nat)
    (r : R) :
  (1 <= k)%nat -> (k + 1 <= length ts)%nat -> 0 < r ->
  approximate_entropy ts (Z.of_nat k) (Fin r)
  = Ok (Fin (Rabs (phi_real ts r k - phi_real ts r (S k)))).
Proof.
  intros Hk HN Hr. unfold approximate_entropy.
  rewrite phi_value by lia. cbn [bind].
  replace (Z.of_nat k + 1)%Z with (Z.of_nat (S k)) by lia.
  rewrite phi_value by lia. cbn [bind].
  rewrite !phi_ext_real by (try assumption; unfold window_count; lia).
  reflexivity.
Qed.

Lemma approximate_entropy_finite_cases (ts : list R) (k : nat) (r : R) :
  (1 <= k)%nat ->
  (exists v, approximate_entropy ts (Z.of_nat k) (Fin r) = Ok (Fin v))
  <-> ((k + 1 <= length ts)%nat /\ 0 < r).
Proof.
  intros Hk. split.
  - intros [v Hv].
    destruct (le_lt_dec k (length ts)) as [Hle|Hlt].
    + destruct (Rlt_dec 0 r) as [Hr|Hr].
      * split; [|assumption].
        destruct (Nat.eq_dec (length ts) k) as [E|Hne]; [|lia].
        rewrite approximate_entropy_one_window in Hv by assumption.
        discriminate.
      * rewrite approximate_entropy_no_tolerance in Hv
          by (try assumption; lra).
        discriminate.
    + rewrite approximate_entropy_too_short in Hv by assumption.
      discriminate.
  - intros [HN Hr]. eexists.
    now apply approximate_entropy_positive_tolerance.
Qed.

(** X26.  For a window length [m >= 1], [approximate_entropy] returns a
    finite number exactly when the sequence has at least [m + 1]
    elements and the tolerance is positive; that number is then
    [|phi(m) - phi(m+1)|], which is at least 0. *)
Theorem approximate_entropy_finite_iff (ts : list R) (k : nat) (r : R) :
  (1 <= k)%nat ->
  ((exists v, approximate_entropy ts (Z.of_nat k) (Fin r) = Ok (Fin v))
   <-> ((k + 1 <= length ts)%nat /\ 0 < r))
  /\ ((k + 1 <= length ts)%nat -> 0 < r ->
      approximate_entropy ts (Z.of_nat k) (Fin r)
      = Ok (Fin (Rabs (phi_real ts r k - phi_real ts r (S k))))
      /\ 0 <= Rabs (phi_real ts r k - phi_real ts r (S k))).
Proof.
  intros Hk. split; [now apply approximate_entropy_finite_cases|].
  intros HN Hr.
  split; [now apply approximate_entropy_positive_tolerance|apply Rabs_pos].
Qed.

Lemma approximate_entropy_finite_iff_witness :
  approximate_entropy [1; 2; 4] 2 (Fin 1)
  = Ok (Fin (Rabs (phi_real [1; 2; 4] 1 2 - phi_real [1; 2; 4] 1 3)))
  /\ 0 <= Rabs (phi_real [1; 2; 4] 1 2 - phi_real [1; 2; 4] 1 3).
Proof.
  apply (proj2 (approximate_entropy_finite_iff [1; 2; 4] 2 1
                  (le_S 1 1 (le_n 1)))).
  - simpl. lia.
  - lra.
Defined.

(** ** The tolerance of the orchestrator *)

Lemma Rsum_zero (l : list R) :
  (forall x, In x l -> 0 <= x) -> Rsum l = 0 ->
  forall x, In x l -> x = 0.
Proof.
  induction l as [|y l IH]; intros Hpos Hsum x Hin; [destruct Hin|].
  rewrite Rsum_cons in Hsum.
  assert (0 <= y) by (apply Hpos; now left).
  assert (0 <= Rsum l)
    by (apply MultiscaleExtras.Rsum_nonneg; intros z Hz; apply Hpos;
        now right).
  destruct Hin as [<-|Hin]; [lra|].
  apply IH; [intros z Hz; apply Hpos; now right|lra|assumption].
Qed.

Lemma std_population_value (x : list R) :
  x <> [] -> std 0 x = Fin (population_deviation x).
Proof.
  intros Hne. unfold std, population_deviation.
  destruct x as [|x0 xs]; [congruence|].
  cbv iota zeta. set (x := x0 :: xs) in *.
  rewrite (map_ext (fun v => Rabs (v - mean x) * Rabs (v - mean x))
                   (fun v => (v - mean x) * (v - mean x))).
  2:{ intros v. rewrite <- Rabs_mult. apply Rabs_pos_eq.
      apply (Rle_0_sqr (v - mean x)). }
  set (S2 := Rsum (map (fun v => (v - mean x) * (v - mean x)) x)).
  assert (HS : 0 <= S2).
  { apply MultiscaleExtras.Rsum_nonneg. intros y Hy. apply in_map_iff in Hy.
    destruct Hy as [v [<- _]]. apply (Rle_0_sqr (v - mean x)). }
  assert (Hd : Z.max (len x - 0) 0 = Z.of_nat (length x))
    by (unfold len; lia).
  rewrite Hd, of_Z_nat.
  assert (Hpos : 0 < INR (length x))
    by (apply lt_0_INR; unfold x; simpl; lia).
  cbn [fl_div]. rewrite Reqb_false by lra. cbn [np_sqrt].
  rewrite Rleb_true; [reflexivity|].
  apply Rmult_le_pos; [assumption|]. left. now apply Rinv_0_lt_compat.
Qed.

Lemma population_deviation_positive (x : list R) :
  x <> [] -> ~ constant x -> 0 < population_deviation x.
Proof.
  intros Hne Hnc. unfold population_deviation.
  set (S2 := Rsum (map (fun v => (v - mean x) * (v - mean x)) x)).
  assert (HS : 0 <= S2).
  { apply MultiscaleExtras.Rsum_nonneg. intros y Hy. apply in_map_iff in Hy.
    destruct Hy as [v [<- _]]. apply (Rle_0_sqr (v - mean x)). }
  assert (Hpos : 0 < INR (length x)).
  { apply lt_0_INR. destruct x; [congruence|simpl; lia]. }
  assert (HS0 : S2 <> 0).
  { intros E. apply Hnc.
    assert (Hall : forall v, In v x -> v = mean x).
    { intros v Hv.
      assert (Hz : (v - mean x) * (v - mean x) = 0).
      { apply (Rsum_zero (map (fun v => (v - mean x) * (v - mean x)) x)).
        - intros y Hy. apply in_map_iff in Hy.
          destruct Hy as [w [<- _]]. apply (Rle_0_sqr (w - mean x)).
        - exact E.
        - apply in_map_iff. exists v. auto. }
      apply Rmult_integral in Hz. lra. }
    intros a b Ha Hb. rewrite (Hall a Ha), (Hall b Hb). reflexivity. }
  apply sqrt_lt_R0. apply Rdiv_lt_0_compat; lra.
Qed.

(** The sequences on which the orchestrator's Approximate entropy has
    a finite value. *)
Lemma computes_approximate (t : text) (e : EncodingModel) (x : list R) :
  ChaosEncoder.encode t e = Ok x ->
  ~ constant x -> (3 <= length x)%nat ->
  exists h, computes t e APPROXIMATE (Fin h).
Proof.
  intros Hx Hnc Hlen.
  assert (Hne : x <> []) by (destruct x; [simpl in Hlen; lia|discriminate]).
  pose proof (population_deviation_positive x Hne Hnc) as Hsd.
  assert (Hr : 0 < 2 / 10 * population_deviation x) by lra.
  pose proof (approximate_entropy_positive_tolerance x 2
                (2 / 10 * population_deviation x)
                (le_S 1 1 (le_n 1)) Hlen Hr) as Hv.
  change (Z.of_nat 2) with 2%Z in Hv.
  eexists. exists x, (fun x => approximate_entropy x 2
                                 (fl_mul (Fin (2 / 10)) (std 0 x))).
  split; [exact Hx|]. split; [reflexivity|].
  split; [|reflexivity].
  cbv beta. rewrite (std_population_value x Hne). cbn [fl_mul]. exact Hv.
Qed.

(** X27.  With algorithms chosen among Shannon, Approximate and
    Permutation, Approximate among them, [get_stats] returns whenever
    every selected encoding of the text has at least three elements,
    not all equal: the tolerance [0.2 * std] of the Approximate entropy
    is then positive and the sequence long enough for its windows, and
    the two other algorithms always have a finite value.  And when it
    returns, every selected encoding has at least three elements and
    is not a constant sequence of integers or of binary fractions
    (whose standard deviation is 0 without rounding). *)
Theorem get_stats_approximate (self : Order) (t : text)
    (encodings : option (list EncodingModel))
    (algs : list AlgorithmType) (json_response : bool) :
  initialized self ->
  t <> [] ->
  encodings_pass encodings -> selected_encodings encodings <> [] ->
  NoDup algs -> In APPROXIMATE algs ->
  (forall a, In a algs -> a = SHANNON \/ a = APPROXIMATE \/ a = PERMUTATION) ->
  ((forall e x,
      In e (selected_encodings encodings) ->
      ChaosEncoder.encode t e = Ok x ->
      ~ constant x /\ (3 <= length x)%nat) ->
   exists resp,
     get_stats self (Str t) encodings (Some algs) json_response
     = (full_trace (selected_encodings encodings) algs, Ok resp))
  /\ ((exists tr resp,
         get_stats self (Str t) encodings (Some algs) json_response
         = (tr, Ok resp)) ->
      forall e x,
        In e (selected_encodings encodings) ->
        ChaosEncoder.encode t e = Ok x ->
        ~ exact_constant x /\ (3 <= length x)%nat).
Proof.
  intros Hinit Ht Hpass Hencs Hnd Hap Hsel. split.
  - intros Hall.
    assert (Hvalid : forall a,
              a = SHANNON \/ a = APPROXIMATE \/ a = PERMUTATION ->
              In a (_valid_algorithms self)).
    { intros a Ha. unfold initialized in Hinit.
      apply (Permutation_in a (Permutation_sym Hinit)).
      destruct Ha as [->|[->| ->]]; simpl; auto. }
    assert (Hacc : accepts self encodings (Some algs)).
    { split; [assumption|]. split; [assumption|].
      apply Forall_forall. intros a Ha. apply Hvalid, Hsel, Ha. }
    assert (Halgs : selected_algorithms self (Some algs) <> [])
      by (simpl; intros E; rewrite E in Hap; destruct Hap).
    assert (Hcomp : forall e a,
              In e (selected_encodings encodings) ->
              In a (selected_algorithms self (Some algs)) ->
              exists v, computes t e a v).
    { intros e a He Ha. simpl in Ha.
      destruct (Hsel a Ha) as [->|[->| ->]].
      - destruct (computes_shannon t e) as [h [Hc _]]. now exists (Fin h).
      - destruct (EncodeExtras.encode_lengths t e) as [x [Hx _]].
        destruct (Hall e x He Hx) as [Hnc Hlen].
        destruct (computes_approximate t e x Hx Hnc Hlen) as [h Hc].
        now exists (Fin h).
      - destruct (computes_permutation t e) as [h [Hc _]].
        now exists (Fin h). }
    exact (get_stats_runs self t encodings (Some algs) json_response
             Ht Hacc Hencs Halgs Hcomp).
  - intros [tr [resp Hrun]] e x He Hx.
    assert (Hnot : ~ degenerate x APPROXIMATE).
    { intros Hdeg.
      destruct (get_stats_degenerate_fails self t encodings (Some algs)
                  json_response e APPROXIMATE x He Hap Hx Hdeg)
        as [tr' [msg Hfail]].
      rewrite Hrun in Hfail. discriminate. }
    simpl in Hnot. split; [tauto|].
    destruct (le_lt_dec 3 (length x)); [assumption|].
    exfalso. apply Hnot. right. lia.
Qed.

Lemma ordinal_abc_spread (e : EncodingModel) (x : list R) :
  In e [ORDINAL] ->
  ChaosEncoder.encode [97; 98; 99]%N e = Ok x ->
  ~ constant x /\ (3 <= length x)%nat.
Proof.
  intros [<-|[]] Hx. simpl in Hx. inversion Hx; subst x. clear Hx.
  split; [|simpl; lia].
  intros Hc.
  assert (E : IZR (ord 97%N) = IZR (ord 98%N))
    by (apply Hc; simpl; auto).
  apply eq_IZR in E. discriminate E.
Qed.

Lemma get_stats_approximate_witness :
  exists resp,
    get_stats an_order (Str [97; 98; 99]%N) (Some [ORDINAL])
              (Some [APPROXIMATE]) false
    = (full_trace [ORDINAL] [APPROXIMATE], Ok resp).
Proof.
  apply (proj1 (get_stats_approximate an_order [97; 98; 99]%N
                  (Some [ORDINAL]) [APPROXIMATE] false
                  (Permutation_refl _)
                  ltac:(discriminate)
                  ltac:(simpl; constructor; [intros []|constructor])
                  ltac:(discriminate)
                  ltac:(constructor; [intros []|constructor])
                  (or_introl eq_refl)
                  ltac:(intros a [<-|[]]; auto))).
  exact ordinal_abc_spread.
Defined.

End ApproximateExtras.
